(** * A set-associative cache simulator (csim), embedded from main.cpp

    The source file holds two variants of one trace-driven simulator.
    The first keeps a dirty bit per line and charges write-back
    penalties; the second (module [Simplified]) has no dirty bit.
    Both are a single [main]: three validation checks on the command
    line, then one loop over the trace.  The loop body is embedded as
    [step], the [for] loop that searches a set as [scan], the whole
    program after argument parsing as [main].

    Numbers are [Z] with the widths of the C++ types written out
    (LP64): [unsigned long] counters wrap modulo 2^64, and the [int]
    expression that computes a miss penalty is reduced to the 32-bit
    two's-complement range before it is added to the counter.  The
    three sizes are the [int]s that [stoi] returns; the shifts and the
    mask of the address decomposition are the mathematical ones, which
    is what the code computes whenever the shift count is below 32, and
    the general properties below hold whatever value a tag has.  The
    policies and the trace operations stay the strings the code
    compares.  Vector subscripts are partial: a subscript outside the
    vector makes the step return [None].  Running out of memory while
    the cache is allocated is not modelled. *)

From Stdlib Require Import ZArith String Bool List Lia.
From stdpp Require Import base option list.

Local Open Scope string_scope.
Local Open Scope Z_scope.

(** ** Machine arithmetic *)

Definition ULONG_MAX : Z := 18446744073709551615.
Definition INT_MAX : Z := 2147483647.

(** [unsigned long] arithmetic. *)
Definition wrap64 (z : Z) : Z := z mod 2 ^ 64.

(** The value of an [int] expression.  ISO C++ leaves signed overflow
    undefined; the model takes the two's-complement result of the usual
    targets, which [cycles +=] then converts to [unsigned long].  The
    general statements about a cost assume the expression fits and do
    not rest on this choice; the four evaluations at a block of 2^27
    bytes show what it gives where the expression does not fit. *)
Definition wrap_int (z : Z) : Z := (z + 2 ^ 31) mod 2 ^ 32 - 2 ^ 31.

(** ** Data *)

(** [struct CacheLine] of the first variant. *)
Record CacheLine := mkLine {
  valid : bool;
  dirty : bool;
  tag : Z;
  lastUsed : Z
}.

Definition empty_line : CacheLine :=
  {| valid := false; dirty := false; tag := 0; lastUsed := 0 |}.

(** The six command-line arguments after [stoi]. *)
Record Config := mkConfig {
  numSets : Z;
  blocksPerSet : Z;
  blockSize : Z;
  writeAlloc : string;
  writePolicy : string;
  evictPolicy : string
}.

(** One trace line: [op] and the hexadecimal address (the third field is
    read and ignored). *)
Record Access := mkAccess {
  op : string;
  addr : Z
}.

Definition Load (a : Z) : Access := {| op := "l"; addr := a |}.
Definition Store (a : Z) : Access := {| op := "s"; addr := a |}.

(** The seven statistics printed at the end. *)
Record Stats := mkStats {
  totalLoads : Z;
  totalStores : Z;
  loadHits : Z;
  loadMisses : Z;
  storeHits : Z;
  storeMisses : Z;
  cycles : Z
}.

Record State := mkState {
  cache : list (list CacheLine);
  stats : Stats;
  timeCounter : Z
}.

(** ** Validation *)

Definition isPowerOfTwo (n : Z) : bool := (0 <? n) && (Z.land n (n - 1) =? 0).

Inductive ConfigError :=
  | SizeNotPowerOfTwo
  | BlockTooSmall
  | IllegalWritePair.

Definition validate (cfg : Config) : option ConfigError :=
  if negb (isPowerOfTwo (numSets cfg)) || negb (isPowerOfTwo (blocksPerSet cfg))
     || negb (isPowerOfTwo (blockSize cfg))
  then Some SizeNotPowerOfTwo
  else if blockSize cfg <? 4 then Some BlockTooSmall
  else if String.eqb (writeAlloc cfg) "no-write-allocate"
          && String.eqb (writePolicy cfg) "write-back"
  then Some IllegalWritePair
  else None.

Definition isWriteAlloc (cfg : Config) : bool := String.eqb (writeAlloc cfg) "write-allocate".
Definition useLRU (cfg : Config) : bool := String.eqb (evictPolicy cfg) "lru".

(** ** Address decomposition *)

Definition blockOffsetBits (cfg : Config) : Z := Z.log2 (blockSize cfg).
Definition setBits (cfg : Config) : Z := Z.log2 (numSets cfg).

Definition setIndex (cfg : Config) (a : Z) : Z :=
  Z.land (Z.shiftr a (blockOffsetBits cfg)) (Z.shiftl 1 (setBits cfg) - 1).

Definition tag_of (cfg : Config) (a : Z) : Z :=
  Z.shiftr a (blockOffsetBits cfg + setBits cfg).

(** ** Vector subscripts *)

Definition at_index {A} (v : list A) (i : Z) : option A :=
  if i <? 0 then None else v !! Z.to_nat i.

(** [v[i].field = x]: fails outside the vector. *)
Definition assign {A} (v : list A) (i : Z) (f : A → A) : option (list A) :=
  x ← at_index v i; Some (<[Z.to_nat i := f x]> v).

(** ** The search loop *)

Record Scan := mkScan {
  hit : bool;
  hitIndex : Z;
  emptyIndex : Z;
  evictIndex : Z;
  oldestTime : Z
}.

Definition scan_start : Scan :=
  {| hit := false; hitIndex := -1; emptyIndex := -1; evictIndex := 0;
     oldestTime := ULONG_MAX |}.

(** [n] iterations are left, the loop variable is [i]. *)
Fixpoint scan_from (n : nat) (set : list CacheLine) (tg : Z) (i : Z) (sc : Scan)
  : option Scan :=
  match n with
  | O => Some sc
  | S n' =>
    l ← at_index set i;
    if valid l && (tag l =? tg) then
      Some {| hit := true; hitIndex := i; emptyIndex := emptyIndex sc;
              evictIndex := evictIndex sc; oldestTime := oldestTime sc |}
    else
      let e := if negb (valid l) && (emptyIndex sc =? -1) then i else emptyIndex sc in
      let sc' :=
        if lastUsed l <? oldestTime sc then
          {| hit := hit sc; hitIndex := hitIndex sc; emptyIndex := e;
             evictIndex := i; oldestTime := lastUsed l |}
        else
          {| hit := hit sc; hitIndex := hitIndex sc; emptyIndex := e;
             evictIndex := evictIndex sc; oldestTime := oldestTime sc |} in
      scan_from n' set tg (i + 1) sc'
  end.

Definition scan (cfg : Config) (set : list CacheLine) (tg : Z) : option Scan :=
  scan_from (Z.to_nat (blocksPerSet cfg)) set tg 0 scan_start.

(** ** Statistics updates *)

Definition add_cycles (n : Z) (st : Stats) : Stats :=
  {| totalLoads := totalLoads st; totalStores := totalStores st;
     loadHits := loadHits st; loadMisses := loadMisses st;
     storeHits := storeHits st; storeMisses := storeMisses st;
     cycles := wrap64 (cycles st + n) |}.

Definition count_load (h : bool) (st : Stats) : Stats :=
  {| totalLoads := wrap64 (totalLoads st + 1); totalStores := totalStores st;
     loadHits := if h then wrap64 (loadHits st + 1) else loadHits st;
     loadMisses := if h then loadMisses st else wrap64 (loadMisses st + 1);
     storeHits := storeHits st; storeMisses := storeMisses st;
     cycles := cycles st |}.

Definition count_store (h : bool) (st : Stats) : Stats :=
  {| totalLoads := totalLoads st; totalStores := wrap64 (totalStores st + 1);
     loadHits := loadHits st; loadMisses := loadMisses st;
     storeHits := if h then wrap64 (storeHits st + 1) else storeHits st;
     storeMisses := if h then storeMisses st else wrap64 (storeMisses st + 1);
     cycles := cycles st |}.

(** [100 * (blockSize / 4)], an [int]. *)
Definition miss_penalty (cfg : Config) : Z :=
  wrap_int (100 * Z.quot (blockSize cfg) 4).

(** ** Line updates *)

Definition touch (tc : Z) (l : CacheLine) : CacheLine :=
  {| valid := valid l; dirty := dirty l; tag := tag l; lastUsed := tc |}.

Definition mark_dirty (l : CacheLine) : CacheLine :=
  {| valid := valid l; dirty := true; tag := tag l; lastUsed := lastUsed l |}.

Definition install (tg tc : Z) (d : bool) (l : CacheLine) : CacheLine :=
  {| valid := true; dirty := d; tag := tg; lastUsed := tc |}.

(** [target = (emptyIndex != -1) ? emptyIndex : evictIndex]. *)
Definition target (sc : Scan) : Z :=
  if negb (emptyIndex sc =? -1) then emptyIndex sc else evictIndex sc.

(** The guarded [cycles += 100 * (blockSize / 4)] before a block is
    overwritten; [set[evictIndex].dirty] is read only when the first two
    conjuncts hold. *)
Definition evict_writeback (cfg : Config) (sc : Scan) (set : list CacheLine) (st : Stats)
  : option Stats :=
  if (emptyIndex sc =? -1) && String.eqb (writePolicy cfg) "write-back" then
    l ← at_index set (evictIndex sc);
    Some (if dirty l then add_cycles (miss_penalty cfg) st else st)
  else Some st.

(** ** One trace line *)

(** The part of the loop body after [timeCounter++], on the set the
    address maps to. *)
Definition handle (cfg : Config) (o : string) (tg tc : Z) (sc : Scan)
    (set : list CacheLine) (st : Stats) : option (list CacheLine * Stats) :=
  if String.eqb o "l" then
    let st := count_load (hit sc) st in
    if hit sc then
      let st := add_cycles 1 st in
      if useLRU cfg then
        set ← assign set (hitIndex sc) (touch tc); Some (set, st)
      else Some (set, st)
    else
      let st := add_cycles (wrap_int (miss_penalty cfg + 1)) st in
      st ← evict_writeback cfg sc set st;
      set ← assign set (target sc) (install tg tc false);
      Some (set, st)
  else if String.eqb o "s" then
    let st := count_store (hit sc) st in
    if hit sc then
      '(set, st) ←
        (if String.eqb (writePolicy cfg) "write-through" then
           Some (set, add_cycles (1 + 100) st)
         else
           set ← assign set (hitIndex sc) mark_dirty;
           Some (set, add_cycles 1 st));
      if useLRU cfg then
        set ← assign set (hitIndex sc) (touch tc); Some (set, st)
      else Some (set, st)
    else
      if isWriteAlloc cfg then
        let st := add_cycles (miss_penalty cfg) st in
        st ← evict_writeback cfg sc set st;
        if String.eqb (writePolicy cfg) "write-through" then
          set ← assign set (target sc) (install tg tc false);
          Some (set, add_cycles (1 + 100) st)
        else
          set ← assign set (target sc) (install tg tc true);
          Some (set, add_cycles 1 st)
      else Some (set, add_cycles 100 st)
  else Some (set, st).

Definition step (cfg : Config) (s : State) (a : Access) : option State :=
  let si := setIndex cfg (addr a) in
  let tg := tag_of cfg (addr a) in
  set ← at_index (cache s) si;
  sc ← scan cfg set tg;
  let tc := wrap64 (timeCounter s + 1) in
  '(set', st') ← handle cfg (op a) tg tc sc set (stats s);
  Some {| cache := <[Z.to_nat si := set']> (cache s); stats := st'; timeCounter := tc |}.

Fixpoint run (cfg : Config) (s : State) (tr : list Access) : option State :=
  match tr with
  | [] => Some s
  | a :: tr' => s' ← step cfg s a; run cfg s' tr'
  end.

Definition zero_stats : Stats :=
  {| totalLoads := 0; totalStores := 0; loadHits := 0; loadMisses := 0;
     storeHits := 0; storeMisses := 0; cycles := 0 |}.

(** [vector<vector<CacheLine>> cache(numSets, vector<CacheLine>(blocksPerSet))]
    and the zeroed counters. *)
Definition init (cfg : Config) : State :=
  {| cache := replicate (Z.to_nat (numSets cfg))
                (replicate (Z.to_nat (blocksPerSet cfg)) empty_line);
     stats := zero_stats; timeCounter := 0 |}.

Definition simulate (cfg : Config) (tr : list Access) : option State :=
  run cfg (init cfg) tr.

Inductive Outcome :=
  | Rejected (e : ConfigError)
  | Finished (st : Stats)
  | OutOfRange.

Definition main (cfg : Config) (tr : list Access) : Outcome :=
  match validate cfg with
  | Some e => Rejected e
  | None =>
    match simulate cfg tr with
    | Some s => Finished (stats s)
    | None => OutOfRange
    end
  end.

(** ** The second variant: no dirty bit *)

Module Simplified.

Record CacheLine := mkLine {
  valid : bool;
  tag : Z;
  lastUsed : Z
}.

Definition empty_line : CacheLine := {| valid := false; tag := 0; lastUsed := 0 |}.

Record State := mkState {
  cache : list (list CacheLine);
  stats : Stats;
  timeCounter : Z
}.

Record Scan := mkScan {
  hit : bool;
  emptyIndex : Z;
  evictIndex : Z;
  oldestTime : Z
}.

Definition scan_start : Scan :=
  {| hit := false; emptyIndex := -1; evictIndex := 0; oldestTime := ULONG_MAX |}.

Definition touch (tc : Z) (l : CacheLine) : CacheLine :=
  {| valid := valid l; tag := tag l; lastUsed := tc |}.

Definition install (tg tc : Z) (l : CacheLine) : CacheLine :=
  {| valid := true; tag := tg; lastUsed := tc |}.

(** The search loop of this variant writes [set[i].lastUsed] itself,
    with the value [timeCounter] has before the increment. *)
Fixpoint scan_from (lru : bool) (tc : Z) (n : nat) (set : list CacheLine) (tg : Z)
    (i : Z) (sc : Scan) : option (list CacheLine * Scan) :=
  match n with
  | O => Some (set, sc)
  | S n' =>
    l ← at_index set i;
    if valid l && (tag l =? tg) then
      set' ← (if lru then assign set i (touch tc) else Some set);
      Some (set', {| hit := true; emptyIndex := emptyIndex sc;
                     evictIndex := evictIndex sc; oldestTime := oldestTime sc |})
    else
      let e := if negb (valid l) && (emptyIndex sc =? -1) then i else emptyIndex sc in
      let sc' :=
        if lastUsed l <? oldestTime sc then
          {| hit := hit sc; emptyIndex := e; evictIndex := i; oldestTime := lastUsed l |}
        else
          {| hit := hit sc; emptyIndex := e; evictIndex := evictIndex sc;
             oldestTime := oldestTime sc |} in
      scan_from lru tc n' set tg (i + 1) sc'
  end.

Definition scan (cfg : Config) (tc : Z) (set : list CacheLine) (tg : Z)
  : option (list CacheLine * Scan) :=
  scan_from (useLRU cfg) tc (Z.to_nat (blocksPerSet cfg)) set tg 0 scan_start.

Definition target (sc : Scan) : Z :=
  if negb (emptyIndex sc =? -1) then emptyIndex sc else evictIndex sc.

Definition handle (cfg : Config) (o : string) (tg tc : Z) (sc : Scan)
    (set : list CacheLine) (st : Stats) : option (list CacheLine * Stats) :=
  if String.eqb o "l" then
    let st := count_load (hit sc) st in
    if hit sc then Some (set, add_cycles 1 st)
    else
      let st := add_cycles (miss_penalty cfg) st in
      set ← assign set (target sc) (install tg tc);
      Some (set, st)
  else if String.eqb o "s" then
    let st := count_store (hit sc) st in
    if hit sc then Some (set, add_cycles 1 st)
    else
      let st := add_cycles (miss_penalty cfg) st in
      if isWriteAlloc cfg then
        set ← assign set (target sc) (install tg tc);
        Some (set, st)
      else Some (set, st)
  else Some (set, st).

Definition step (cfg : Config) (s : State) (a : Access) : option State :=
  let si := setIndex cfg (addr a) in
  let tg := tag_of cfg (addr a) in
  set ← at_index (cache s) si;
  '(set, sc) ← scan cfg (timeCounter s) set tg;
  let tc := wrap64 (timeCounter s + 1) in
  '(set', st') ← handle cfg (op a) tg tc sc set (stats s);
  Some {| cache := <[Z.to_nat si := set']> (cache s); stats := st'; timeCounter := tc |}.

Fixpoint run (cfg : Config) (s : State) (tr : list Access) : option State :=
  match tr with
  | [] => Some s
  | a :: tr' => s' ← step cfg s a; run cfg s' tr'
  end.

Definition init (cfg : Config) : State :=
  {| cache := replicate (Z.to_nat (numSets cfg))
                (replicate (Z.to_nat (blocksPerSet cfg)) empty_line);
     stats := zero_stats; timeCounter := 0 |}.

Definition simulate (cfg : Config) (tr : list Access) : option State :=
  run cfg (init cfg) tr.

Definition main (cfg : Config) (tr : list Access) : Outcome :=
  match validate cfg with
  | Some e => Rejected e
  | None =>
    match simulate cfg tr with
    | Some s => Finished (stats s)
    | None => OutOfRange
    end
  end.

End Simplified.

(** * Vocabulary of the properties *)

(** ** What the search loop finds *)

Definition pow2 (n : Z) : Prop := exists k, 0 <= k /\ n = 2 ^ k.

Definition matches (tg : Z) (l : CacheLine) : bool := valid l && (tag l =? tg).

(** The first line of the set, from index 0, that is valid and holds [tg]. *)
Definition first_match (set : list CacheLine) (tg : Z) (i : nat) (l : CacheLine) : Prop :=
  set !! i = Some l /\ matches tg l = true /\
  forall j l', (j < i)%nat -> set !! j = Some l' -> matches tg l' = false.

Definition no_match (set : list CacheLine) (tg : Z) : Prop :=
  forall j l, set !! j = Some l -> matches tg l = false.

Definition first_invalid (set : list CacheLine) (i : nat) : Prop :=
  (exists l, set !! i = Some l /\ valid l = false) /\
  forall j l', (j < i)%nat -> set !! j = Some l' -> valid l' = true.

Definition all_valid (set : list CacheLine) : Prop :=
  forall j l, set !! j = Some l -> valid l = true.

(** Line [e] holds the minimum [lastUsed] of the set and is the first
    one that does. *)
Definition oldest (set : list CacheLine) (e : nat) (v : CacheLine) : Prop :=
  set !! e = Some v /\
  forall j l, set !! j = Some l ->
    lastUsed v <= lastUsed l /\ ((j < e)%nat -> lastUsed v < lastUsed l).

(** The line a block is written to: the first invalid line, or the
    oldest line when all are valid. *)
Definition insertion_target (set : list CacheLine) (t : nat) : Prop :=
  first_invalid set t \/ (all_valid set /\ exists v, oldest set t v).

(** A valid line of the set holds [tg]. *)
Definition resident (set : list CacheLine) (tg : Z) : Prop :=
  exists i l, set !! i = Some l /\ matches tg l = true.

(** The loop invariant after [k] lines without a hit. *)
Record scan_inv (set : list CacheLine) (tg : Z) (k : nat) (sc : Scan) : Prop := {
  si_hit : hit sc = false;
  si_hitIndex : hitIndex sc = -1;
  si_nomatch : forall j l, (j < k)%nat -> set !! j = Some l -> matches tg l = false;
  si_empty :
    (emptyIndex sc = -1 /\ forall j l, (j < k)%nat -> set !! j = Some l -> valid l = true)
    \/ (exists e, emptyIndex sc = Z.of_nat e /\ (e < k)%nat /\ first_invalid set e);
  si_old_le : forall j l, (j < k)%nat -> set !! j = Some l -> oldestTime sc <= lastUsed l;
  si_evict :
    (oldestTime sc = ULONG_MAX /\ evictIndex sc = 0)
    \/ (exists e v, evictIndex sc = Z.of_nat e /\ (e < k)%nat /\ set !! e = Some v
          /\ lastUsed v = oldestTime sc
          /\ forall j l, (j < e)%nat -> set !! j = Some l -> oldestTime sc < lastUsed l)
}.

Definition hit_scan (set : list CacheLine) (tg : Z) (sc : Scan) (i : nat) (l : CacheLine)
  : Prop :=
  hit sc = true /\ hitIndex sc = Z.of_nat i /\ first_match set tg i l.

(** The outcome of a completed search without a hit. *)
Definition miss_scan (set : list CacheLine) (tg : Z) (sc : Scan) : Prop :=
  hit sc = false /\ no_match set tg /\
  ((emptyIndex sc = -1 /\ all_valid set)
   \/ (exists e, emptyIndex sc = Z.of_nat e /\ first_invalid set e)) /\
  exists e v, evictIndex sc = Z.of_nat e /\ oldest set e v.

(** ** Shape of the state *)

(** Shape of a set: as many lines as the configuration says, time stamps
    within [unsigned long]. *)
Definition wf_set (cfg : Config) (set : list CacheLine) : Prop :=
  length set = Z.to_nat (blocksPerSet cfg) /\
  forall j l, set !! j = Some l -> 0 <= lastUsed l <= ULONG_MAX.

Definition wf (cfg : Config) (s : State) : Prop :=
  length (cache s) = Z.to_nat (numSets cfg) /\
  forall k set, cache s !! k = Some set -> wf_set cfg set.

Definition unique_tags (set : list CacheLine) : Prop :=
  forall i j li lj, set !! i = Some li -> set !! j = Some lj ->
    valid li = true -> valid lj = true -> tag li = tag lj -> i = j.

(** A set whose stamps were written while the counter ran up to [T]. *)
Record stamped (T : Z) (set : list CacheLine) : Prop := {
  st_valid : forall j l, set !! j = Some l -> valid l = true -> 1 <= lastUsed l <= T;
  st_invalid : forall j l, set !! j = Some l -> valid l = false -> lastUsed l = 0;
  st_distinct : forall i j li lj, set !! i = Some li -> set !! j = Some lj ->
      valid li = true -> valid lj = true -> lastUsed li = lastUsed lj -> i = j
}.

(** The counter has not wrapped: it equals the number of lines read. *)
Definition clocked (n : Z) (s : State) : Prop :=
  timeCounter s = n /\ forall k set, cache s !! k = Some set -> stamped n set.

(** Everything the proofs about eviction order need of a reachable state. *)
Definition sound (cfg : Config) (n : Z) (s : State) : Prop :=
  wf cfg s /\ clocked n s /\ forall k set, cache s !! k = Some set -> unique_tags set.

(** ** The result of one access *)

Definition is_write_through (cfg : Config) : bool :=
  String.eqb (writePolicy cfg) "write-through".

Definition refreshed (cfg : Config) (tc : Z) (l : CacheLine) : CacheLine :=
  if useLRU cfg then touch tc l else l.

Definition set_cycles (c : Z) (st : Stats) : Stats :=
  {| totalLoads := totalLoads st; totalStores := totalStores st;
     loadHits := loadHits st; loadMisses := loadMisses st;
     storeHits := storeHits st; storeMisses := storeMisses st; cycles := c |}.

(** The same charge with the [int] expression of the source. *)
Definition charge_int (cfg : Config) (set : list CacheLine) (v : CacheLine) : Z :=
  if forallb valid set && String.eqb (writePolicy cfg) "write-back" && dirty v
  then miss_penalty cfg else 0.

(** The set and the statistics after a hit on line [i], which holds [l]. *)
Definition hit_result (cfg : Config) (o : string) (tc : Z) (set : list CacheLine)
    (st : Stats) (i : nat) (l : CacheLine) : list CacheLine * Stats :=
  if String.eqb o "l" then
    (<[i := refreshed cfg tc l]> set, add_cycles 1 (count_load true st))
  else if String.eqb o "s" then
    (<[i := refreshed cfg tc (if is_write_through cfg then l else mark_dirty l)]> set,
     add_cycles (if is_write_through cfg then 1 + 100 else 1) (count_store true st))
  else (set, st).

(** The set and the statistics after a miss, when the insertion target
    is line [t] and the oldest line of the set is [v]. *)
Definition miss_result (cfg : Config) (o : string) (tg tc : Z) (set : list CacheLine)
    (st : Stats) (t : nat) (v : CacheLine) : list CacheLine * Stats :=
  if String.eqb o "l" then
    (<[t := mkLine true false tg tc]> set,
     set_cycles (wrap64 (cycles st + (wrap_int (miss_penalty cfg + 1)
                                      + charge_int cfg set v)))
       (count_load false st))
  else if String.eqb o "s" then
    if isWriteAlloc cfg then
      (<[t := mkLine true (negb (is_write_through cfg)) tg tc]> set,
       set_cycles (wrap64 (cycles st + (miss_penalty cfg + charge_int cfg set v
                             + (if is_write_through cfg then 1 + 100 else 1))))
         (count_store false st))
    else (set, add_cycles 100 (count_store false st))
  else (set, st).

Definition commit (s : State) (si : nat) (tc : Z) (r : list CacheLine * Stats) : State :=
  {| cache := <[si := r.1]> (cache s); stats := r.2; timeCounter := tc |}.

(** Nothing, or the hit line keeps valid bit and tag and keeps or renews
    its stamp, or a block is written to the insertion target. *)
Inductive set_change (tg tc : Z) (set set' : list CacheLine) : Prop :=
  | change_none : set' = set -> set_change tg tc set set'
  | change_hit i l l' :
      first_match set tg i l -> set' = <[i := l']> set ->
      valid l' = true -> tag l' = tag l ->
      lastUsed l' = lastUsed l \/ lastUsed l' = tc ->
      set_change tg tc set set'
  | change_install t lt d :
      no_match set tg -> insertion_target set t -> set !! t = Some lt ->
      set' = <[t := mkLine true d tg tc]> set ->
      set_change tg tc set set'.


(** ** Costs and effects as the specification states them *)

(** The cycles charged for writing a dirty block back before it is
    overwritten, for a set whose oldest line is [v]. *)
Definition evict_charge (cfg : Config) (set : list CacheLine) (v : CacheLine) : Z :=
  if forallb valid set && String.eqb (writePolicy cfg) "write-back" && dirty v
  then 100 * (blockSize cfg / 4) else 0.

(** The cost of fetching and using a block on a miss that allocates,
    before any write-back charge. *)
Definition alloc_cost (cfg : Config) (o : string) : Z :=
  if String.eqb o "l" then 100 * (blockSize cfg / 4) + 1
  else 100 * (blockSize cfg / 4) + (if is_write_through cfg then 1 + 100 else 1).

(** No access costs more than this. *)
Definition max_cost (cfg : Config) : Z := 2 * (100 * (blockSize cfg / 4)) + 101.

(** What a load hit on line [i] (holding [l]) of set [si] leaves behind. *)
Definition load_hit_effect (cfg : Config) (s s' : State) (si : nat)
    (set : list CacheLine) (i : nat) (l : CacheLine) : Prop :=
  stats s' =
    {| totalLoads := wrap64 (totalLoads (stats s) + 1);
       totalStores := totalStores (stats s);
       loadHits := wrap64 (loadHits (stats s) + 1);
       loadMisses := loadMisses (stats s);
       storeHits := storeHits (stats s);
       storeMisses := storeMisses (stats s);
       cycles := wrap64 (cycles (stats s) + 1) |}
  /\ cache s' =
     <[si := <[i := {| valid := valid l; dirty := dirty l; tag := tag l;
                       lastUsed := if useLRU cfg then timeCounter s' else lastUsed l |}]>
             set]> (cache s).

(** What a load miss leaves behind when the block goes to line [t] and
    the oldest line of the set is [v]. *)
Definition load_miss_effect (cfg : Config) (s s' : State) (si : nat)
    (set : list CacheLine) (tg : Z) (t : nat) (v : CacheLine) : Prop :=
  stats s' =
    {| totalLoads := wrap64 (totalLoads (stats s) + 1);
       totalStores := totalStores (stats s);
       loadHits := loadHits (stats s);
       loadMisses := wrap64 (loadMisses (stats s) + 1);
       storeHits := storeHits (stats s);
       storeMisses := storeMisses (stats s);
       cycles := wrap64 (cycles (stats s)
                         + (100 * (blockSize cfg / 4) + 1) + evict_charge cfg set v) |}
  /\ cache s' =
     <[si := <[t := {| valid := true; dirty := false; tag := tg;
                       lastUsed := timeCounter s' |}]> set]> (cache s).

(** What a store hit on line [i] (holding [l]) leaves behind.  The source
    tests [writePolicy == "write-through"] here, so [write-back] takes
    the other branch. *)
Definition store_hit_effect (cfg : Config) (s s' : State) (si : nat)
    (set : list CacheLine) (i : nat) (l : CacheLine) : Prop :=
  stats s' =
    {| totalLoads := totalLoads (stats s);
       totalStores := wrap64 (totalStores (stats s) + 1);
       loadHits := loadHits (stats s);
       loadMisses := loadMisses (stats s);
       storeHits := wrap64 (storeHits (stats s) + 1);
       storeMisses := storeMisses (stats s);
       cycles := wrap64 (cycles (stats s) + (if is_write_through cfg then 1 + 100 else 1)) |}
  /\ cache s' =
     <[si := <[i := {| valid := valid l;
                       dirty := if is_write_through cfg then dirty l else true;
                       tag := tag l;
                       lastUsed := if useLRU cfg then timeCounter s' else lastUsed l |}]>
             set]> (cache s).

(** What a store miss with write-allocate leaves behind. *)
Definition store_miss_effect (cfg : Config) (s s' : State) (si : nat)
    (set : list CacheLine) (tg : Z) (t : nat) (v : CacheLine) : Prop :=
  stats s' =
    {| totalLoads := totalLoads (stats s);
       totalStores := wrap64 (totalStores (stats s) + 1);
       loadHits := loadHits (stats s);
       loadMisses := loadMisses (stats s);
       storeHits := storeHits (stats s);
       storeMisses := wrap64 (storeMisses (stats s) + 1);
       cycles := wrap64 (cycles (stats s) + 100 * (blockSize cfg / 4)
                         + evict_charge cfg set v
                         + (if is_write_through cfg then 1 + 100 else 1)) |}
  /\ cache s' =
     <[si := <[t := {| valid := true; dirty := negb (is_write_through cfg); tag := tg;
                       lastUsed := timeCounter s' |}]> set]> (cache s).

(** The counters after [n] accesses, as long as none can have wrapped. *)
Record counted (cfg : Config) (n : Z) (st : Stats) : Prop := {
  ct_loads : totalLoads st = loadHits st + loadMisses st;
  ct_stores : totalStores st = storeHits st + storeMisses st;
  ct_nonneg : 0 <= loadHits st /\ 0 <= loadMisses st /\ 0 <= storeHits st
              /\ 0 <= storeMisses st;
  ct_total : totalLoads st + totalStores st <= n;
  ct_cycles : 0 <= cycles st <= n * max_cost cfg
}.

(** Both sums in [unsigned long] arithmetic. *)
Definition sums_mod (st : Stats) : Prop :=
  totalLoads st = wrap64 (loadHits st + loadMisses st)
  /\ totalStores st = wrap64 (storeHits st + storeMisses st).

(** ** Installs and accessed tags along a trace *)

(** The operations that install a block when they miss. *)
Definition allocates (cfg : Config) (o : string) : bool :=
  String.eqb o "l" || (String.eqb o "s" && isWriteAlloc cfg).

(** Access [a] misses in state [s] and a block is installed. *)
Definition installs_block (cfg : Config) (s : State) (a : Access) : bool :=
  match at_index (cache s) (setIndex cfg (addr a)) with
  | Some set =>
    match scan cfg set (tag_of cfg (addr a)) with
    | Some sc => negb (hit sc) && allocates cfg (op a)
    | None => false
    end
  | None => false
  end.







(** ** The two variants side by side *)

Definition forget (l : CacheLine) : Simplified.CacheLine :=
  {| Simplified.valid := valid l; Simplified.tag := tag l;
     Simplified.lastUsed := lastUsed l |}.

Definition forget_scan (sc : Scan) : Simplified.Scan :=
  {| Simplified.hit := hit sc; Simplified.emptyIndex := emptyIndex sc;
     Simplified.evictIndex := evictIndex sc; Simplified.oldestTime := oldestTime sc |}.

(** The six counters other than [cycles]. *)
Definition counts_eq (st st2 : Stats) : Prop :=
  totalLoads st = totalLoads st2 /\ totalStores st = totalStores st2 /\
  loadHits st = loadHits st2 /\ loadMisses st = loadMisses st2 /\
  storeHits st = storeHits st2 /\ storeMisses st = storeMisses st2.

Definition agree (s : State) (s2 : Simplified.State) : Prop :=
  Simplified.cache s2 = fmap (M := list) forget <$> cache s /\
  Simplified.timeCounter s2 = timeCounter s /\
  counts_eq (stats s) (Simplified.stats s2).

(** ** Configurations, lines and traces of the worked scenarios *)

Definition cfgA : Config :=
  {| numSets := 1; blocksPerSet := 1; blockSize := 4;
     writeAlloc := "write-allocate"; writePolicy := "write-back"; evictPolicy := "lru" |}.

Definition cfgD : Config :=
  {| numSets := 1; blocksPerSet := 1; blockSize := 4;
     writeAlloc := "no-write-allocate"; writePolicy := "write-through";
     evictPolicy := "lru" |}.

Definition cfg2way (policy : string) : Config :=
  {| numSets := 1; blocksPerSet := 2; blockSize := 4;
     writeAlloc := "write-allocate"; writePolicy := "write-through"; evictPolicy := policy |}.


(** One line of 2^27 bytes: the smallest accepted block size for which
    [100 * (blockSize / 4)] exceeds [INT_MAX]. *)
Definition cfg27 : Config :=
  {| numSets := 1; blocksPerSet := 1; blockSize := 134217728;
     writeAlloc := "write-allocate"; writePolicy := "write-back"; evictPolicy := "lru" |}.

(** A valid clean line. *)
Definition clean (tg lu : Z) : CacheLine :=
  {| valid := true; dirty := false; tag := tg; lastUsed := lu |}.

Definition loads_only (hits misses cyc : Z) : Stats :=
  {| totalLoads := hits + misses; totalStores := 0; loadHits := hits;
     loadMisses := misses; storeHits := 0; storeMisses := 0; cycles := cyc |}.

Definition scenarioA : Stats :=
  {| totalLoads := 2; totalStores := 0; loadHits := 1; loadMisses := 1;
     storeHits := 0; storeMisses := 0; cycles := 102 |}.

Definition trace9 : list Access := [Load 0; Load 4; Load 0; Load 8; Load 0].

(** ** Vocabulary of the further properties *)

(** Two trace lines with the same operation whose addresses lie in the
    same block. *)
Definition same_block (cfg : Config) (a b : Access) : Prop :=
  op a = op b /\ addr a / blockSize cfg = addr b / blockSize cfg.

(** Four sets of two lines, sixteen-byte blocks, write-back. *)
Definition cfg4x2 (policy : string) : Config :=
  {| numSets := 4; blocksPerSet := 2; blockSize := 16;
     writeAlloc := "write-allocate"; writePolicy := "write-back"; evictPolicy := policy |}.

(** Two sets whose lines agree on valid bit and tag. *)
Definition tags_kept (set set' : list CacheLine) : Prop :=
  Forall2 (fun l l' => valid l' = valid l /\ tag l' = tag l) set set'.

(** The number of lines of a trace whose operation is [o]. *)
Fixpoint count_op (o : string) (tr : list Access) : Z :=
  match tr with
  | [] => 0
  | a :: tr' => (if String.eqb (op a) o then 1 else 0) + count_op o tr'
  end.

(** No line of the cache is dirty. *)
Definition all_clean (c : list (list CacheLine)) : Prop :=
  forall k set j l, c !! k = Some set -> set !! j = Some l -> dirty l = false.

(** One-way write-through configuration with write-allocate. *)
Definition cfgWT : Config :=
  {| numSets := 1; blocksPerSet := 1; blockSize := 4;
     writeAlloc := "write-allocate"; writePolicy := "write-through"; evictPolicy := "lru" |}.

(** The same configuration with another sixth argument. *)
Definition with_evictPolicy (p : string) (cfg : Config) : Config :=
  {| numSets := numSets cfg; blocksPerSet := blocksPerSet cfg; blockSize := blockSize cfg;
     writeAlloc := writeAlloc cfg; writePolicy := writePolicy cfg; evictPolicy := p |}.

(** Two states with the same statistics and clock whose lines differ at
    most in their time stamps. *)
Definition same_but_stamps (s s' : State) : Prop :=
  stats s = stats s' /\ timeCounter s = timeCounter s' /\
  Forall2 (Forall2 (fun l l' => valid l = valid l' /\ dirty l = dirty l' /\ tag l = tag l'))
    (cache s) (cache s').

(** A line of the second variant read as a clean line of the first. *)
Definition remember (l : Simplified.CacheLine) : CacheLine :=
  {| valid := Simplified.valid l; dirty := false; tag := Simplified.tag l;
     lastUsed := Simplified.lastUsed l |}.

(** Shape of a set and of a state of the second variant. *)
Definition wf_set2 (cfg : Config) (set : list Simplified.CacheLine) : Prop :=
  length set = Z.to_nat (blocksPerSet cfg) /\
  forall j l, set !! j = Some l -> 0 <= Simplified.lastUsed l <= ULONG_MAX.

Definition wf2 (cfg : Config) (s : Simplified.State) : Prop :=
  length (Simplified.cache s) = Z.to_nat (numSets cfg) /\
  0 <= Simplified.timeCounter s <= ULONG_MAX /\
  forall k set, Simplified.cache s !! k = Some set -> wf_set2 cfg set.

(** The statistics of the second variant after a line whose search
    reported [h]. *)
Definition simplified_stats (cfg : Config) (o : string) (h : bool) (st : Stats) : Stats :=
  if String.eqb o "l" then
    add_cycles (if h then 1 else miss_penalty cfg) (count_load h st)
  else if String.eqb o "s" then
    add_cycles (if h then 1 else miss_penalty cfg) (count_store h st)
  else st.

(** One cycle per hit and one memory transfer per miss, in [unsigned long]. *)
Definition cycles_closed (cfg : Config) (st : Stats) : Prop :=
  cycles st = wrap64 (loadHits st + storeHits st
                      + miss_penalty cfg * (loadMisses st + storeMisses st)).

(** The valid lines of a set are its first lines, and the others are as
    the constructor left them. *)
Definition filled_prefix (set : list CacheLine) : Prop :=
  (forall i j li lj, (i < j)%nat -> set !! i = Some li -> set !! j = Some lj ->
     valid lj = true -> valid li = true)
  /\ (forall j l, set !! j = Some l -> valid l = false -> l = empty_line).

(** The cycles of a write-through run as a function of its four hit and
    miss counters. *)
Definition wt_cycles (cfg : Config) (st : Stats) : Z :=
  loadHits st + wrap_int (miss_penalty cfg + 1) * loadMisses st
  + 101 * storeHits st
  + (if isWriteAlloc cfg then miss_penalty cfg + 101 else 100) * storeMisses st.

(** * Properties *)

(** ** Arithmetic *)

Lemma wrap64_range z : 0 <= wrap64 z <= ULONG_MAX.
Proof.
  unfold wrap64, ULONG_MAX.
  pose proof (Z.mod_pos_bound z (2 ^ 64) ltac:(lia)). lia.
Qed.

Lemma wrap64_small z : 0 <= z <= ULONG_MAX -> wrap64 z = z.
Proof. unfold wrap64, ULONG_MAX. intros H. apply Z.mod_small. lia. Qed.

Lemma wrap64_add_l a b : wrap64 (wrap64 a + b) = wrap64 (a + b).
Proof. unfold wrap64. apply Zplus_mod_idemp_l. Qed.

Lemma wrap_int_small z : - 2 ^ 31 <= z <= INT_MAX -> wrap_int z = z.
Proof.
  unfold wrap_int, INT_MAX. intros H.
  rewrite Z.mod_small by lia. lia.
Qed.

Lemma isPowerOfTwo_spec n : isPowerOfTwo n = true <-> exists k, 0 <= k /\ n = 2 ^ k.
Proof.
  unfold isPowerOfTwo. rewrite andb_true_iff, Z.ltb_lt, Z.eqb_eq. split.
  - intros [Hpos Hland]. exists (Z.log2 n).
    pose proof (Z.log2_nonneg n) as Hk. split; [exact Hk|].
    destruct (Z.log2_spec n Hpos) as [Hlo Hhi].
    destruct (Z.eq_dec n (2 ^ Z.log2 n)) as [|Hne]; [assumption|exfalso].
    assert (Hl : Z.log2 (n - 1) = Z.log2 n).
    { apply Z.log2_unique; [exact Hk|]. split; [lia|].
      replace (Z.succ (Z.log2 n)) with (Z.log2 n + 1) in * by lia. lia. }
    assert (Hb1 : Z.testbit n (Z.log2 n) = true) by (apply Z.bit_log2; lia).
    assert (Hb2 : Z.testbit (n - 1) (Z.log2 n) = true).
    { rewrite <- Hl. apply Z.bit_log2. lia. }
    assert (Hb : Z.testbit (Z.land n (n - 1)) (Z.log2 n) = true).
    { rewrite Z.land_spec, Hb1, Hb2. reflexivity. }
    rewrite Hland, Z.bits_0 in Hb. discriminate.
  - intros (k & Hk & ->). split; [apply Z.pow_pos_nonneg; lia|].
    replace (2 ^ k - 1) with (Z.ones k) by (rewrite Z.ones_equiv; lia).
    rewrite Z.land_ones by exact Hk. apply Z.mod_same.
    pose proof (Z.pow_pos_nonneg 2 k). lia.
Qed.

(** ** Validation *)

Lemma validate_None cfg :
  validate cfg = None <->
  pow2 (numSets cfg) /\ pow2 (blocksPerSet cfg) /\ pow2 (blockSize cfg) /\
  4 <= blockSize cfg /\
  ~ (writeAlloc cfg = "no-write-allocate" /\ writePolicy cfg = "write-back").
Proof.
  unfold validate, pow2. rewrite <- !isPowerOfTwo_spec.
  destruct (isPowerOfTwo (numSets cfg)), (isPowerOfTwo (blocksPerSet cfg)),
    (isPowerOfTwo (blockSize cfg)); simpl;
    try (split; [discriminate | intros (? & ? & ? & _); discriminate]).
  destruct (Z.ltb_spec (blockSize cfg) 4).
  { split; [discriminate | intros (_ & _ & _ & ? & _); lia]. }
  destruct (String.eqb_spec (writeAlloc cfg) "no-write-allocate");
    destruct (String.eqb_spec (writePolicy cfg) "write-back"); simpl;
    (split; [try discriminate; intros _; repeat split; try lia; tauto
            | try reflexivity; tauto]).
Qed.

Lemma pow2_pos n : pow2 n -> 1 <= n.
Proof. intros (k & Hk & ->). pose proof (Z.pow_pos_nonneg 2 k). lia. Qed.

Lemma setIndex_range cfg a :
  pow2 (numSets cfg) -> 0 <= setIndex cfg a < numSets cfg.
Proof.
  intros (k & Hk & Hn). unfold setIndex, setBits. rewrite Hn.
  rewrite Z.log2_pow2 by exact Hk.
  change (Z.shiftl 1 k - 1) with (Z.pred (Z.shiftl 1 k)).
  fold (Z.ones k). rewrite Z.land_ones by exact Hk.
  apply Z.mod_pos_bound. apply Z.pow_pos_nonneg; lia.
Qed.

Lemma miss_penalty_exact cfg :
  0 <= blockSize cfg <= 2 ^ 26 ->
  miss_penalty cfg = 100 * (blockSize cfg / 4)
  /\ wrap_int (miss_penalty cfg + 1) = 100 * (blockSize cfg / 4) + 1.
Proof.
  intros H. unfold miss_penalty.
  rewrite Z.quot_div_nonneg by lia.
  assert (0 <= blockSize cfg / 4 <= 2 ^ 24).
  { split; [apply Z.div_pos; lia|]. apply Z.div_le_upper_bound; lia. }
  assert (Hp : wrap_int (100 * (blockSize cfg / 4)) = 100 * (blockSize cfg / 4))
    by (apply wrap_int_small; unfold INT_MAX; lia).
  rewrite Hp. split; [reflexivity|].
  apply wrap_int_small; unfold INT_MAX; lia.
Qed.

(** For a block size that passes the checks the [int] penalty stays
    in range exactly up to 2^26. *)
Lemma penalty_fits cfg :
  pow2 (blockSize cfg) -> 4 <= blockSize cfg ->
  (100 * (blockSize cfg / 4) + 1 <= INT_MAX <-> blockSize cfg <= 2 ^ 26).
Proof.
  intros (k & Hk & Hb) H4. unfold INT_MAX. split.
  - intros Hfit. destruct (Z.le_gt_cases k 26) as [Hle | Hgt].
    + rewrite Hb. apply Z.pow_le_mono_r; lia.
    + assert (2 ^ 27 <= blockSize cfg) by (rewrite Hb; apply Z.pow_le_mono_r; lia).
      assert (2 ^ 25 <= blockSize cfg / 4) by (apply Z.div_le_lower_bound; lia).
      lia.
  - intros Hle. assert (blockSize cfg / 4 <= 2 ^ 24) by (apply Z.div_le_upper_bound; lia).
    lia.
Qed.

(** ** Subscripts *)

Lemma at_index_Some {A} (v : list A) i x :
  at_index v i = Some x <-> 0 <= i /\ v !! Z.to_nat i = Some x.
Proof.
  unfold at_index. destruct (Z.ltb_spec i 0); split; try (intros [? ?]); try lia;
    try discriminate; auto.
Qed.

Lemma at_index_nat {A} (v : list A) (k : nat) : at_index v (Z.of_nat k) = v !! k.
Proof.
  unfold at_index. destruct (Z.ltb_spec (Z.of_nat k) 0); [lia|].
  by rewrite Nat2Z.id.
Qed.

Lemma assign_nat {A} (v : list A) (k : nat) f x :
  v !! k = Some x -> assign v (Z.of_nat k) f = Some (<[k := f x]> v).
Proof.
  intros H. unfold assign. rewrite at_index_nat, H. simpl. by rewrite Nat2Z.id.
Qed.

(** ** What the search loop computes *)

Lemma scan_inv_start set tg : scan_inv set tg 0 scan_start.
Proof.
  split; simpl.
  - reflexivity.
  - reflexivity.
  - intros; lia.
  - left. split; [reflexivity | intros; lia].
  - intros; lia.
  - left. split; reflexivity.
Qed.

Lemma scan_from_spec set tg n : forall k sc,
  (k + n = length set)%nat ->
  scan_inv set tg k sc ->
  exists sc', scan_from n set tg (Z.of_nat k) sc = Some sc' /\
    ((hit sc' = true /\ exists i l, hitIndex sc' = Z.of_nat i /\ first_match set tg i l)
     \/ scan_inv set tg (length set) sc').
Proof.
  induction n as [|n IH]; intros k sc Hlen Hinv.
  - exists sc. split; [reflexivity|]. right.
    replace (length set) with k by lia. exact Hinv.
  - simpl. rewrite at_index_nat.
    destruct (lookup_lt_is_Some_2 set k ltac:(lia)) as [l Hl]. rewrite Hl. simpl.
    fold (matches tg l). destruct (matches tg l) eqn:Hm.
    + eexists. split; [reflexivity|]. left. simpl. split; [reflexivity|].
      exists k, l. split; [reflexivity|]. split; [exact Hl|]. split; [exact Hm|].
      intros j l' Hj Hl'. eapply si_nomatch; eauto.
    + replace (Z.of_nat k + 1) with (Z.of_nat (S k)) by lia.
      apply IH; [lia|].
      destruct Hinv as [H1 H2 H3 H4 H5 H6].
      assert (Hlt : forall j, (j < S k)%nat -> (j < k)%nat \/ j = k) by (intros; lia).
      split.
      * destruct (lastUsed l <? oldestTime sc); simpl; exact H1.
      * destruct (lastUsed l <? oldestTime sc); simpl; exact H2.
      * intros j l' Hj Hl'. destruct (Hlt j Hj) as [ | -> ]; [eauto|]. congruence.
      * assert (He : (if negb (valid l) && (emptyIndex sc =? -1) then Z.of_nat k
                      else emptyIndex sc) = emptyIndex sc /\ (valid l = true \/ emptyIndex sc <> -1)
                     \/ (valid l = false /\ emptyIndex sc = -1)).
        { destruct (valid l); simpl; [left; auto|].
          destruct (Z.eqb_spec (emptyIndex sc) (-1)); [right; auto | left; auto]. }
        assert (Hgoal :
          (let e := (if negb (valid l) && (emptyIndex sc =? -1) then Z.of_nat k
                     else emptyIndex sc) in
           (e = -1 /\ forall j l0, (j < S k)%nat -> set !! j = Some l0 -> valid l0 = true)
           \/ (exists e0, e = Z.of_nat e0 /\ (e0 < S k)%nat /\ first_invalid set e0))).
        { destruct He as [[-> Hv] | [Hv He]].
          - simpl. destruct H4 as [[He Hall] | (e & He & Hek & Hfi)].
            + left. split; [exact He|]. intros j l0 Hj Hl0.
              destruct (Hlt j Hj) as [ | -> ]; [eauto|].
              destruct Hv as [Hv|Hv]; [congruence | contradiction].
            + right. exists e. split; [exact He|]. split; [lia | exact Hfi].
          - rewrite Hv, He. simpl. right. exists k. split; [reflexivity|].
            split; [lia|]. split; [eauto|].
            destruct H4 as [[_ Hall] | (e & He' & _)]; [exact Hall | lia]. }
        destruct (lastUsed l <? oldestTime sc); simpl; exact Hgoal.
      * intros j l' Hj Hl'.
        destruct (Z.ltb_spec (lastUsed l) (oldestTime sc)); simpl.
        -- destruct (Hlt j Hj) as [Hj' | -> ]; [specialize (H5 j l' Hj' Hl'); lia|].
           assert (l' = l) by congruence. subst. lia.
        -- destruct (Hlt j Hj) as [Hj' | -> ]; [eauto|].
           assert (l' = l) by congruence. subst. lia.
      * destruct (Z.ltb_spec (lastUsed l) (oldestTime sc)); simpl.
        -- right. exists k, l. split; [reflexivity|]. split; [lia|]. split; [exact Hl|].
           split; [reflexivity|]. intros j l' Hj Hl'. specialize (H5 j l' Hj Hl'). lia.
        -- destruct H6 as [[Ho He] | (e & v & He & Hek & Hv & Hvo & Hbefore)].
           ++ left. auto.
           ++ right. exists e, v. repeat split; auto; lia.
Qed.

Lemma scan_cases cfg set tg :
  1 <= blocksPerSet cfg -> wf_set cfg set ->
  exists sc, scan cfg set tg = Some sc /\
    ((exists i l, hit_scan set tg sc i l) \/ miss_scan set tg sc).
Proof.
  intros Hb [Hlen Hlu].
  destruct (scan_from_spec set tg (Z.to_nat (blocksPerSet cfg)) 0 scan_start)
    as (sc & Hsc & Hres); [lia | apply scan_inv_start |].
  exists sc. split; [exact Hsc|].
  destruct Hres as [(Hh & i & l & Hi & Hfm) | Hinv].
  - left. exists i, l. repeat split; auto; apply Hfm.
  - right. destruct Hinv as [H1 H2 H3 H4 H5 H6].
    split; [exact H1|]. split.
    { intros j l Hl. eapply H3; eauto. eapply lookup_lt_Some; eauto. }
    split.
    { destruct H4 as [[He Hall] | (e & He & _ & Hfi)].
      - left. split; [exact He|]. intros j l Hl. eapply Hall; eauto.
        eapply lookup_lt_Some; eauto.
      - right. eauto. }
    destruct H6 as [[Ho He] | (e & v & He & Hek & Hv & Hvo & Hbefore)].
    + destruct (lookup_lt_is_Some_2 set 0%nat ltac:(lia)) as [v Hv].
      exists 0%nat, v. split; [exact He|]. split; [exact Hv|].
      intros j l Hl. split; [|lia].
      pose proof (H5 j l (lookup_lt_Some _ _ _ Hl) Hl).
      pose proof (Hlu _ _ Hv). lia.
    + exists e, v. split; [exact He|]. split; [exact Hv|].
      intros j l Hl. split.
      * pose proof (H5 j l (lookup_lt_Some _ _ _ Hl) Hl). lia.
      * intros Hj. pose proof (Hbefore j l Hj Hl). lia.
Qed.

Lemma first_match_no_match set tg i l :
  first_match set tg i l -> no_match set tg -> False.
Proof. intros (Hl & Hm & _) Hn. rewrite (Hn _ _ Hl) in Hm. discriminate. Qed.


Lemma oldest_unique set e v e' v' :
  oldest set e v -> oldest set e' v' -> e = e' /\ v = v'.
Proof.
  intros (Hv & Hmin) (Hv' & Hmin').
  assert (e = e').
  { destruct (Nat.lt_trichotomy e e') as [H | [H | H]]; [|exact H|].
    - pose proof (Hmin _ _ Hv') as [? _]. pose proof (Hmin' _ _ Hv) as [_ ?]. lia.
    - pose proof (Hmin' _ _ Hv) as [? _]. pose proof (Hmin _ _ Hv') as [_ ?]. lia. }
  subst. split; congruence.
Qed.

Lemma forallb_valid set : forallb valid set = true <-> all_valid set.
Proof.
  unfold all_valid. rewrite forallb_forall. split.
  - intros H j l Hl. apply H. apply list_elem_of_In. eapply list_elem_of_lookup_2; eauto.
  - intros H l Hl. apply list_elem_of_In, list_elem_of_lookup_1 in Hl as [j Hj]. eauto.
Qed.

Lemma first_invalid_not_all set e : first_invalid set e -> ~ all_valid set.
Proof. intros [(l & Hl & Hv) _] Hall. rewrite (Hall _ _ Hl) in Hv. discriminate. Qed.

(** ** What one trace line does to its set *)

Lemma add_cycles_set n st : add_cycles n st = set_cycles (wrap64 (cycles st + n)) st.
Proof. reflexivity. Qed.

Lemma add_cycles_twice a b st :
  add_cycles b (add_cycles a st) = set_cycles (wrap64 (cycles st + (a + b))) st.
Proof.
  unfold add_cycles, set_cycles. simpl. f_equal.
  rewrite wrap64_add_l. f_equal. lia.
Qed.

Lemma handle_hit cfg o tg tc sc set st i l :
  hit_scan set tg sc i l ->
  handle cfg o tg tc sc set st =
  Some (if String.eqb o "l" then
          (<[i := refreshed cfg tc l]> set, add_cycles 1 (count_load true st))
        else if String.eqb o "s" then
          (<[i := refreshed cfg tc (if is_write_through cfg then l else mark_dirty l)]> set,
           add_cycles (if is_write_through cfg then 1 + 100 else 1) (count_store true st))
        else (set, st)).
Proof.
  intros (Hh & Hi & Hl & _). unfold handle, refreshed, is_write_through.
  rewrite Hh, Hi.
  assert (Hlen : (i < length set)%nat) by (eapply lookup_lt_Some; eauto).
  destruct (String.eqb o "l").
  - destruct (useLRU cfg).
    + rewrite (assign_nat _ _ _ _ Hl). reflexivity.
    + rewrite list_insert_id by exact Hl. reflexivity.
  - destruct (String.eqb o "s"); [|reflexivity].
    destruct (String.eqb (writePolicy cfg) "write-through"); simpl.
    + destruct (useLRU cfg).
      * rewrite (assign_nat _ _ _ _ Hl). reflexivity.
      * rewrite list_insert_id by exact Hl. reflexivity.
    + rewrite (assign_nat _ _ _ _ Hl). simpl. destruct (useLRU cfg).
      * rewrite (assign_nat _ i _ (mark_dirty l)) by (by apply list_lookup_insert_eq).
        simpl. rewrite list_insert_insert_eq. reflexivity.
      * reflexivity.
Qed.

Lemma miss_scan_target set tg sc :
  miss_scan set tg sc ->
  exists t lt, target sc = Z.of_nat t /\ set !! t = Some lt /\ insertion_target set t /\
    (emptyIndex sc =? -1) = forallb valid set.
Proof.
  intros (_ & _ & Hempty & e & v & He & Hold). unfold target.
  destruct Hempty as [[Hm Hall] | (e' & He' & Hfi)].
  - rewrite Hm. simpl. exists e, v. split; [exact He|]. split; [apply Hold|].
    split; [right; eauto|]. symmetry. by apply forallb_valid.
  - rewrite He'. destruct (Z.eqb_spec (Z.of_nat e') (-1)); [lia|]. simpl.
    destruct Hfi as [(l & Hl & Hv) Hb]. exists e', l.
    split; [reflexivity|]. split; [exact Hl|]. split; [left; split; eauto|].
    symmetry. apply not_true_is_false. rewrite forallb_valid.
    intros Hall. rewrite (Hall _ _ Hl) in Hv. discriminate.
Qed.

Lemma evict_writeback_spec cfg set tg sc e v b st :
  miss_scan set tg sc -> oldest set e v ->
  evict_writeback cfg sc set (add_cycles b st) =
  Some (set_cycles (wrap64 (cycles st + (b + charge_int cfg set v))) st).
Proof.
  intros Hms Hold.
  destruct (miss_scan_target _ _ _ Hms) as (_ & _ & _ & _ & _ & Hall).
  destruct Hms as (_ & _ & _ & e' & v' & He' & Hold').
  destruct (oldest_unique _ _ _ _ _ Hold Hold') as [<- <-].
  unfold evict_writeback, charge_int. rewrite Hall.
  destruct (forallb valid set && String.eqb (writePolicy cfg) "write-back"); simpl.
  - rewrite He', at_index_nat. destruct Hold as [-> _]. simpl.
    destruct (dirty v).
    + rewrite add_cycles_twice. reflexivity.
    + rewrite add_cycles_set. do 3 f_equal. lia.
  - rewrite add_cycles_set. do 3 f_equal. lia.
Qed.

Lemma handle_miss cfg o tg tc sc set st :
  miss_scan set tg sc ->
  exists t lt e v, insertion_target set t /\ set !! t = Some lt /\ oldest set e v /\
    handle cfg o tg tc sc set st =
    Some (if String.eqb o "l" then
            (<[t := mkLine true false tg tc]> set,
             set_cycles (wrap64 (cycles st + (wrap_int (miss_penalty cfg + 1)
                                              + charge_int cfg set v)))
               (count_load false st))
          else if String.eqb o "s" then
            if isWriteAlloc cfg then
              (<[t := mkLine true (negb (is_write_through cfg)) tg tc]> set,
               set_cycles (wrap64 (cycles st + (miss_penalty cfg + charge_int cfg set v
                                     + (if is_write_through cfg then 1 + 100 else 1))))
                 (count_store false st))
            else (set, add_cycles 100 (count_store false st))
          else (set, st)).
Proof.
  intros Hms.
  destruct (miss_scan_target _ _ _ Hms) as (t & lt & Ht & Hlt & Hit & _).
  pose proof Hms as (Hh & _ & _ & e & v & He & Hold).
  exists t, lt, e, v. split; [exact Hit|]. split; [exact Hlt|]. split; [exact Hold|].
  unfold handle, is_write_through. rewrite Hh.
  destruct (String.eqb o "l").
  - rewrite (evict_writeback_spec _ _ _ _ _ _ _ _ Hms Hold). simpl.
    rewrite Ht, (assign_nat _ _ _ _ Hlt). reflexivity.
  - destruct (String.eqb o "s"); [|reflexivity].
    destruct (isWriteAlloc cfg); [|reflexivity].
    rewrite (evict_writeback_spec _ _ _ _ _ _ _ _ Hms Hold). simpl.
    rewrite Ht. destruct (String.eqb (writePolicy cfg) "write-through"); simpl;
      rewrite (assign_nat _ _ _ _ Hlt); simpl; do 2 f_equal;
      unfold add_cycles, set_cycles; simpl; f_equal;
      rewrite wrap64_add_l; f_equal; lia.
Qed.

(** Every step of a well-shaped state succeeds, as a hit on the first
    matching line or as a miss. *)
Lemma step_cases cfg s a :
  pow2 (numSets cfg) -> 1 <= blocksPerSet cfg -> wf cfg s ->
  let si := Z.to_nat (setIndex cfg (addr a)) in
  let tg := tag_of cfg (addr a) in
  let tc := wrap64 (timeCounter s + 1) in
  exists set, cache s !! si = Some set /\ wf_set cfg set /\
    ((exists i l, first_match set tg i l /\
        step cfg s a = Some (commit s si tc (hit_result cfg (op a) tc set (stats s) i l)))
     \/ (no_match set tg /\ exists t lt e v,
          insertion_target set t /\ set !! t = Some lt /\ oldest set e v /\
          step cfg s a =
          Some (commit s si tc (miss_result cfg (op a) tg tc set (stats s) t v)))).
Proof.
  intros Hn Hb [Hlen Hsets] si tg tc.
  pose proof (setIndex_range cfg (addr a) Hn) as Hsi.
  destruct (lookup_lt_is_Some_2 (cache s) si ltac:(subst si; lia)) as [set Hset].
  exists set. split; [exact Hset|]. pose proof (Hsets _ _ Hset) as Hwf.
  split; [exact Hwf|].
  destruct (scan_cases cfg set tg Hb Hwf) as (sc & Hsc & Hcase).
  assert (Hat : at_index (cache s) (setIndex cfg (addr a)) = Some set).
  { apply at_index_Some. split; [lia | exact Hset]. }
  unfold step. rewrite Hat. simpl. fold tg. rewrite Hsc. simpl.
  destruct Hcase as [(i & l & Hhit) | Hmiss].
  - left. exists i, l. split; [apply Hhit|].
    rewrite (handle_hit cfg (op a) tg _ sc set (stats s) i l Hhit).
    fold (hit_result cfg (op a) (wrap64 (timeCounter s + 1)) set (stats s) i l).
    destruct (hit_result _ _ _ _ _ _ _). reflexivity.
  - right. split; [apply Hmiss|].
    destruct (handle_miss cfg (op a) tg (wrap64 (timeCounter s + 1)) sc set (stats s) Hmiss)
      as (t & lt & e & v & Hit & Hlt & Hold & Hh).
    exists t, lt, e, v. split; [exact Hit|]. split; [exact Hlt|]. split; [exact Hold|].
    rewrite Hh.
    fold (miss_result cfg (op a) tg (wrap64 (timeCounter s + 1)) set (stats s) t v).
    destruct (miss_result _ _ _ _ _ _ _ _). reflexivity.
Qed.

Lemma wf_init cfg : wf cfg (init cfg).
Proof.
  split; simpl.
  - apply length_replicate.
  - intros k set Hset. apply lookup_replicate_1 in Hset as [-> _]. split.
    + apply length_replicate.
    + intros j l Hl. apply lookup_replicate_1 in Hl as [-> _]. simpl.
      unfold ULONG_MAX. lia.
Qed.

Lemma wf_set_insert cfg set i l :
  wf_set cfg set -> 0 <= lastUsed l <= ULONG_MAX -> wf_set cfg (<[i := l]> set).
Proof.
  intros [Hlen Hlu] Hl. split; [by rewrite length_insert|].
  intros j l' Hj. destruct (decide (i = j)) as [->|Hne].
  - destruct (decide (j < length set)%nat).
    + rewrite list_lookup_insert_eq in Hj by assumption. by inversion Hj; subst.
    + rewrite list_insert_ge in Hj by lia. eauto.
  - rewrite list_lookup_insert_ne in Hj by assumption. eauto.
Qed.

Lemma wf_commit cfg s si tc r :
  wf cfg s -> wf_set cfg r.1 -> wf cfg (commit s si tc r).
Proof.
  intros [Hlen Hsets] Hr. split; simpl; [by rewrite length_insert|].
  intros k set Hk. destruct (decide (si = k)) as [->|Hne].
  - destruct (decide (k < length (cache s))%nat).
    + rewrite list_lookup_insert_eq in Hk by assumption. by inversion Hk; subst.
    + rewrite list_insert_ge in Hk by lia. eauto.
  - rewrite list_lookup_insert_ne in Hk by assumption. eauto.
Qed.

Lemma wf_hit_result cfg o tc set st i l :
  wf_set cfg set -> set !! i = Some l -> 0 <= tc <= ULONG_MAX ->
  wf_set cfg (hit_result cfg o tc set st i l).1.
Proof.
  intros Hwf Hl Htc. pose proof (proj2 Hwf _ _ Hl) as Hlu.
  unfold hit_result, refreshed.
  destruct (String.eqb o "l"); simpl.
  { apply wf_set_insert; [exact Hwf|]. destruct (useLRU cfg); simpl; assumption. }
  destruct (String.eqb o "s"); simpl; [|exact Hwf].
  apply wf_set_insert; [exact Hwf|].
  destruct (useLRU cfg), (is_write_through cfg); simpl; assumption.
Qed.

Lemma wf_miss_result cfg o tg tc set st t v :
  wf_set cfg set -> 0 <= tc <= ULONG_MAX ->
  wf_set cfg (miss_result cfg o tg tc set st t v).1.
Proof.
  intros Hwf Htc. unfold miss_result.
  destruct (String.eqb o "l"); simpl.
  { apply wf_set_insert; [exact Hwf | exact Htc]. }
  destruct (String.eqb o "s"); simpl; [|exact Hwf].
  destruct (isWriteAlloc cfg); simpl; [|exact Hwf].
  apply wf_set_insert; [exact Hwf | exact Htc].
Qed.

Lemma wf_step cfg s a s' :
  pow2 (numSets cfg) -> 1 <= blocksPerSet cfg -> wf cfg s ->
  step cfg s a = Some s' -> wf cfg s'.
Proof.
  intros Hn Hb Hwf Hstep.
  destruct (step_cases cfg s a Hn Hb Hwf) as (set & Hset & Hwfs & Hcase).
  pose proof (wrap64_range (timeCounter s + 1)) as Htc.
  destruct Hcase as [(i & l & Hfm & Heq) | (_ & t & lt & e & v & _ & _ & _ & Heq)];
    rewrite Heq in Hstep; inversion Hstep; subst; apply wf_commit; try assumption.
  - apply wf_hit_result; [assumption | apply Hfm | assumption].
  - apply wf_miss_result; assumption.
Qed.

Lemma step_total cfg s a :
  pow2 (numSets cfg) -> 1 <= blocksPerSet cfg -> wf cfg s ->
  exists s', step cfg s a = Some s'.
Proof.
  intros Hn Hb Hwf.
  destruct (step_cases cfg s a Hn Hb Hwf)
    as (set & _ & _ & [(i & l & _ & Heq) | (_ & t & lt & e & v & _ & _ & _ & Heq)]);
    eauto.
Qed.

Lemma run_total cfg tr : forall s,
  pow2 (numSets cfg) -> 1 <= blocksPerSet cfg -> wf cfg s ->
  exists s', run cfg s tr = Some s' /\ wf cfg s'.
Proof.
  induction tr as [|a tr IH]; intros s Hn Hb Hwf; simpl.
  - eauto.
  - destruct (step_total cfg s a Hn Hb Hwf) as [s1 Hs1]. rewrite Hs1. simpl.
    apply IH; try assumption. eapply wf_step; eauto.
Qed.

Lemma run_app cfg tr1 tr2 s :
  run cfg s (tr1 ++ tr2) = s1 ← run cfg s tr1; run cfg s1 tr2.
Proof.
  revert s. induction tr1 as [|a tr1 IH]; intros s; simpl; [reflexivity|].
  destruct (step cfg s a); simpl; [apply IH | reflexivity].
Qed.

Lemma simulate_wf cfg tr s :
  validate cfg = None -> simulate cfg tr = Some s -> wf cfg s.
Proof.
  intros Hv Hs. apply validate_None in Hv as (Hn & Hb & _).
  destruct (run_total cfg tr (init cfg) Hn (pow2_pos _ Hb) (wf_init cfg)) as (s' & Hs' & Hwf).
  unfold simulate in Hs. congruence.
Qed.

(** ** Reachable states *)

Lemma simulate_snoc cfg pre a s :
  simulate cfg pre = Some s -> simulate cfg (pre ++ [a]) = step cfg s a.
Proof.
  unfold simulate. intros H. rewrite run_app, H. simpl.
  destruct (step cfg s a); reflexivity.
Qed.

Lemma valid_geometry cfg :
  validate cfg = None -> pow2 (numSets cfg) /\ 1 <= blocksPerSet cfg /\ 4 <= blockSize cfg.
Proof.
  intros Hv. apply validate_None in Hv as (Hn & Hb & _ & H4 & _).
  split; [exact Hn|]. split; [apply pow2_pos; exact Hb | exact H4].
Qed.

(** ** Rejected configurations and complete runs *)

(** C6. The run is rejected with a configuration error, whatever the
    trace, exactly when one of [numSets], [blocksPerSet], [blockSize] is
    not a positive power of two, or [blockSize < 4], or
    [no-write-allocate] comes with [write-back]; a configuration that
    passes the checks runs every trace to its end, with no subscript
    out of range, and prints the statistics. *)
Theorem construction_and_completion cfg tr :
  ((exists e, main cfg tr = Rejected e) <->
   (~ pow2 (numSets cfg) \/ ~ pow2 (blocksPerSet cfg) \/ ~ pow2 (blockSize cfg))
   \/ blockSize cfg < 4
   \/ (writeAlloc cfg = "no-write-allocate" /\ writePolicy cfg = "write-back"))
  /\ (validate cfg = None ->
      exists s, simulate cfg tr = Some s /\ main cfg tr = Finished (stats s)).
Proof.
  split.
  - assert (Hrej : (exists e, main cfg tr = Rejected e) <-> validate cfg <> None).
    { unfold main. destruct (validate cfg) as [e|].
      - split; [discriminate | eauto].
      - split; [|congruence]. intros [e He]. destruct (simulate cfg tr); discriminate. }
    rewrite Hrej, validate_None.
    assert (Hdec : forall n, pow2 n \/ ~ pow2 n).
    { intros n. unfold pow2. rewrite <- isPowerOfTwo_spec.
      destruct (isPowerOfTwo n); [left | right]; congruence. }
    split.
    + intros Hne.
      destruct (Hdec (numSets cfg)) as [H1|]; [|tauto].
      destruct (Hdec (blocksPerSet cfg)) as [H2|]; [|tauto].
      destruct (Hdec (blockSize cfg)) as [H3|]; [|tauto].
      destruct (Z.lt_ge_cases (blockSize cfg) 4) as [|H4]; [tauto|].
      destruct (String.eqb_spec (writeAlloc cfg) "no-write-allocate") as [Ha|Ha];
        destruct (String.eqb_spec (writePolicy cfg) "write-back") as [Hp|Hp];
        try (right; right; split; assumption);
        exfalso; apply Hne; repeat split; try assumption; intros [? ?]; contradiction.
    + intros Hd (A & B & C & D & E).
      destruct Hd as [[?|[?|?]]|[?|?]]; try contradiction; lia.
  - intros Hv. pose proof (valid_geometry cfg Hv) as (Hn & Hb & _).
    destruct (run_total cfg tr (init cfg) Hn Hb (wf_init cfg)) as (s & Hs & _).
    exists s. split; [exact Hs|]. unfold main. rewrite Hv.
    unfold simulate. rewrite Hs. reflexivity.
Qed.

Lemma construction_and_completion_witness :
  exists s, simulate cfgA [Load 0; Store 4] = Some s
            /\ main cfgA [Load 0; Store 4] = Finished (stats s).
Proof.
  apply (proj2 (construction_and_completion cfgA [Load 0; Store 4])).
  reflexivity.
Defined.

(** ** Loads and stores, one access at a time *)

Lemma charge_int_exact cfg set v :
  0 <= blockSize cfg <= 2 ^ 26 -> charge_int cfg set v = evict_charge cfg set v.
Proof.
  intros H. unfold charge_int, evict_charge.
  rewrite (proj1 (miss_penalty_exact cfg H)). reflexivity.
Qed.

(** A reachable state takes its next step as [step_cases] says. *)
Lemma reachable_step cfg pre s a :
  validate cfg = None -> simulate cfg pre = Some s ->
  let si := Z.to_nat (setIndex cfg (addr a)) in
  let tg := tag_of cfg (addr a) in
  let tc := wrap64 (timeCounter s + 1) in
  exists set, cache s !! si = Some set /\ wf_set cfg set /\
    ((exists i l, first_match set tg i l /\
        simulate cfg (pre ++ [a])
        = Some (commit s si tc (hit_result cfg (op a) tc set (stats s) i l)))
     \/ (no_match set tg /\ exists t lt e v,
          insertion_target set t /\ set !! t = Some lt /\ oldest set e v /\
          simulate cfg (pre ++ [a])
          = Some (commit s si tc (miss_result cfg (op a) tg tc set (stats s) t v)))).
Proof.
  intros Hv Hs. pose proof (valid_geometry cfg Hv) as (Hn & Hb & _).
  rewrite (simulate_snoc cfg pre a s Hs).
  apply step_cases; try assumption. eapply simulate_wf; eauto.
Qed.

(** Loads.  After any trace, a load is a hit exactly when a valid line of
    its set holds its tag.  A hit counts in [loadHits], costs one cycle
    and, under LRU, stamps the hit line with the incremented counter.
    A miss counts in [loadMisses], costs [100 * (blockSize / 4) + 1]
    cycles (plus the write-back charge of a dirty victim) and writes
    [valid = true], the tag, the incremented counter and [dirty = false]
    to the insertion target.  The penalty is the source's [int]
    product, so the block size is taken where that product fits (up to
    2^26).  Scenario A ends with one miss, one hit and 102 cycles. *)
Theorem load_access :
  (forall cfg pre s a,
     validate cfg = None -> blockSize cfg <= 2 ^ 26 ->
     simulate cfg pre = Some s -> op a = "l" ->
     let si := Z.to_nat (setIndex cfg (addr a)) in
     let tg := tag_of cfg (addr a) in
     exists set s',
       cache s !! si = Some set /\ simulate cfg (pre ++ [a]) = Some s' /\
       timeCounter s' = wrap64 (timeCounter s + 1) /\
       ((exists i l, first_match set tg i l /\ load_hit_effect cfg s s' si set i l)
        \/ (no_match set tg /\ exists t e v,
              insertion_target set t /\ oldest set e v /\
              load_miss_effect cfg s s' si set tg t v)))
  /\ main cfgA [Load 0; Load 0] = Finished scenarioA.
Proof.
  split; [|reflexivity].
  intros cfg pre s a Hv Hbs Hs Hop si tg.
  pose proof (valid_geometry cfg Hv) as (_ & _ & H4).
  destruct (reachable_step cfg pre s a Hv Hs) as (set & Hset & _ & Hcase).
  exists set.
  destruct Hcase as [(i & l & Hfm & Heq) | (Hnm & t & lt & e & v & Hit & _ & Hold & Heq)];
    eexists; (split; [exact Hset|]); (split; [exact Heq|]); (split; [reflexivity|]).
  - left. exists i, l. split; [exact Hfm|].
    unfold load_hit_effect, commit, hit_result, refreshed. rewrite Hop. simpl.
    split; [reflexivity|]. destruct (useLRU cfg); destruct l; reflexivity.
  - right. split; [exact Hnm|]. exists t, e, v. split; [exact Hit|]. split; [exact Hold|].
    unfold load_miss_effect, commit, miss_result. rewrite Hop. simpl.
    split; [|reflexivity].
    rewrite charge_int_exact by lia.
    rewrite (proj2 (miss_penalty_exact cfg ltac:(lia))).
    unfold set_cycles, count_load. simpl. do 2 f_equal. lia.
Qed.

Lemma load_access_witness :
  exists set s',
    cache (init cfgA) !! Z.to_nat (setIndex cfgA 0) = Some set
    /\ simulate cfgA ([] ++ [Load 0]) = Some s'
    /\ timeCounter s' = wrap64 (timeCounter (init cfgA) + 1)
    /\ ((exists i l, first_match set (tag_of cfgA 0) i l
                     /\ load_hit_effect cfgA (init cfgA) s' (Z.to_nat (setIndex cfgA 0)) set i l)
        \/ (no_match set (tag_of cfgA 0) /\ exists t e v,
              insertion_target set t /\ oldest set e v /\
              load_miss_effect cfgA (init cfgA) s' (Z.to_nat (setIndex cfgA 0)) set
                (tag_of cfgA 0) t v)).
Proof.
  apply (proj1 load_access cfgA [] (init cfgA) (Load 0)).
  - reflexivity.
  - vm_compute. discriminate.
  - reflexivity.
  - reflexivity.
Defined.

Lemma write_back_not_through cfg :
  writePolicy cfg = "write-back" -> is_write_through cfg = false.
Proof. unfold is_write_through. intros ->. reflexivity. Qed.

(** Stores.  After any trace, a store that finds its tag counts in
    [storeHits]; under write-through it costs [1 + 100] cycles and leaves
    the dirty bit alone, under write-back it costs one cycle and sets
    the dirty bit; under LRU the hit line is stamped.  A store that
    misses under write-allocate counts in [storeMisses], costs
    [100 * (blockSize / 4)] (plus the write-back charge of a dirty
    victim), writes valid, tag and stamp to the insertion target, and
    then costs [1 + 100] with [dirty = false] under write-through, or one
    cycle with [dirty = true] under write-back.  Block sizes are taken
    where the [int] product fits.  Scenario B: a miss at 101 cycles, a hit
    at one more, and a dirty line. *)
Theorem store_access :
  (forall cfg pre s a,
     validate cfg = None -> blockSize cfg <= 2 ^ 26 ->
     simulate cfg pre = Some s -> op a = "s" ->
     let si := Z.to_nat (setIndex cfg (addr a)) in
     let tg := tag_of cfg (addr a) in
     exists set s',
       cache s !! si = Some set /\ simulate cfg (pre ++ [a]) = Some s' /\
       timeCounter s' = wrap64 (timeCounter s + 1) /\
       ((exists i l, first_match set tg i l /\ store_hit_effect cfg s s' si set i l)
        \/ (no_match set tg /\
            (isWriteAlloc cfg = true ->
             exists t e v, insertion_target set t /\ oldest set e v /\
                           store_miss_effect cfg s s' si set tg t v))))
  /\ (forall cfg, writePolicy cfg = "write-back" -> is_write_through cfg = false)
  /\ simulate cfgA [Store 0]
     = Some {| cache := [[ {| valid := true; dirty := true; tag := 0; lastUsed := 1 |} ]];
               stats := {| totalLoads := 0; totalStores := 1; loadHits := 0;
                           loadMisses := 0; storeHits := 0; storeMisses := 1;
                           cycles := 101 |};
               timeCounter := 1 |}
  /\ simulate cfgA [Store 0; Store 0]
     = Some {| cache := [[ {| valid := true; dirty := true; tag := 0; lastUsed := 2 |} ]];
               stats := {| totalLoads := 0; totalStores := 2; loadHits := 0;
                           loadMisses := 0; storeHits := 1; storeMisses := 1;
                           cycles := 102 |};
               timeCounter := 2 |}.
Proof.
  split; [|split; [exact write_back_not_through | split; reflexivity]].
  intros cfg pre s a Hv Hbs Hs Hop si tg.
  pose proof (valid_geometry cfg Hv) as (_ & _ & H4).
  destruct (reachable_step cfg pre s a Hv Hs) as (set & Hset & _ & Hcase).
  exists set.
  destruct Hcase as [(i & l & Hfm & Heq) | (Hnm & t & lt & e & v & Hit & _ & Hold & Heq)];
    eexists; (split; [exact Hset|]); (split; [exact Heq|]); (split; [reflexivity|]).
  - left. exists i, l. split; [exact Hfm|].
    unfold store_hit_effect, commit, hit_result, refreshed. rewrite Hop. simpl.
    split; [reflexivity|].
    destruct (useLRU cfg), (is_write_through cfg); destruct l; reflexivity.
  - right. split; [exact Hnm|]. intros Hwa.
    exists t, e, v. split; [exact Hit|]. split; [exact Hold|].
    unfold store_miss_effect, commit, miss_result. rewrite Hop, Hwa. simpl.
    split; [|reflexivity].
    rewrite charge_int_exact by lia.
    rewrite (proj1 (miss_penalty_exact cfg ltac:(lia))).
    unfold set_cycles, count_store. simpl. do 2 f_equal. lia.
Qed.

Lemma store_access_witness :
  exists set s',
    cache (init cfgA) !! Z.to_nat (setIndex cfgA 0) = Some set
    /\ simulate cfgA ([] ++ [Store 0]) = Some s'
    /\ timeCounter s' = wrap64 (timeCounter (init cfgA) + 1)
    /\ ((exists i l, first_match set (tag_of cfgA 0) i l
                     /\ store_hit_effect cfgA (init cfgA) s' (Z.to_nat (setIndex cfgA 0)) set i l)
        \/ (no_match set (tag_of cfgA 0) /\
            (isWriteAlloc cfgA = true ->
             exists t e v, insertion_target set t /\ oldest set e v /\
               store_miss_effect cfgA (init cfgA) s' (Z.to_nat (setIndex cfgA 0)) set
                 (tag_of cfgA 0) t v))).
Proof.
  apply (proj1 store_access cfgA [] (init cfgA) (Store 0)).
  - reflexivity.
  - vm_compute. discriminate.
  - reflexivity.
  - reflexivity.
Defined.

Lemma evict_charge_cases cfg set v :
  ((all_valid set /\ writePolicy cfg = "write-back" /\ dirty v = true)
   /\ evict_charge cfg set v = 100 * (blockSize cfg / 4))
  \/ (~ (all_valid set /\ writePolicy cfg = "write-back" /\ dirty v = true)
      /\ evict_charge cfg set v = 0).
Proof.
  unfold evict_charge. rewrite <- forallb_valid.
  destruct (forallb valid set); simpl; [|right; split; [intros (? & _); discriminate | reflexivity]].
  destruct (String.eqb_spec (writePolicy cfg) "write-back"); simpl;
    [|right; split; [intros (_ & ? & _); contradiction | reflexivity]].
  destruct (dirty v); [left; auto | right; split; [intros (_ & _ & ?); discriminate | reflexivity]].
Qed.

(** The write-back charge.  On a miss that allocates (a load, or a store under
    write-allocate) the cycles grow by the fetch-and-use cost plus an
    extra [100 * (blockSize / 4)] exactly when the set has no invalid
    line, the policy is write-back and the oldest line, the victim, is
    dirty; otherwise nothing extra is charged, and a store miss without
    write-allocate costs 100.  Block sizes are taken where the [int]
    product fits. *)
Theorem eviction_penalty cfg pre s a set :
  validate cfg = None -> blockSize cfg <= 2 ^ 26 ->
  simulate cfg pre = Some s ->
  cache s !! Z.to_nat (setIndex cfg (addr a)) = Some set ->
  no_match set (tag_of cfg (addr a)) ->
  exists s' e v,
    simulate cfg (pre ++ [a]) = Some s' /\ oldest set e v /\
    (op a = "l" \/ (op a = "s" /\ isWriteAlloc cfg = true) ->
     exists extra,
       cycles (stats s') = wrap64 (cycles (stats s) + alloc_cost cfg (op a) + extra) /\
       ((all_valid set /\ writePolicy cfg = "write-back" /\ dirty v = true)
        /\ extra = 100 * (blockSize cfg / 4)
        \/ ~ (all_valid set /\ writePolicy cfg = "write-back" /\ dirty v = true)
           /\ extra = 0)) /\
    (op a = "s" -> isWriteAlloc cfg = false ->
     cycles (stats s') = wrap64 (cycles (stats s) + 100)).
Proof.
  intros Hv Hbs Hs Hset Hnm.
  pose proof (valid_geometry cfg Hv) as (_ & _ & H4).
  destruct (reachable_step cfg pre s a Hv Hs) as (set' & Hset' & _ & Hcase).
  simpl in Hset'. rewrite Hset in Hset'. inversion Hset'; subst set'. clear Hset'.
  destruct Hcase as [(i & l & Hfm & _) | (_ & t & lt & e & v & Hit & _ & Hold & Heq)].
  { exfalso. eapply first_match_no_match; eauto. }
  eexists. exists e, v. split; [exact Heq|]. split; [exact Hold|].
  unfold commit, miss_result, alloc_cost. simpl. split.
  - intros Hop. exists (evict_charge cfg set v). split; [|apply evict_charge_cases].
    rewrite charge_int_exact by lia.
    destruct (miss_penalty_exact cfg ltac:(lia)) as [Hp Hp1].
    destruct Hop as [Hop | [Hop Hwa]]; rewrite Hop; simpl.
    + rewrite Hp1. f_equal. lia.
    + rewrite Hwa, Hp. simpl. f_equal. lia.
  - intros Hop Hwa. rewrite Hop, Hwa. reflexivity.
Qed.

Lemma eviction_penalty_witness :
  exists s' e v,
    simulate cfgA ([Store 0] ++ [Load 4]) = Some s'
    /\ oldest [ {| valid := true; dirty := true; tag := 0; lastUsed := 1 |} ] e v
    /\ cycles (stats s') = 302.
Proof.
  destruct (eviction_penalty cfgA [Store 0]
              {| cache := [[ {| valid := true; dirty := true; tag := 0; lastUsed := 1 |} ]];
                 stats := {| totalLoads := 0; totalStores := 1; loadHits := 0;
                             loadMisses := 0; storeHits := 0; storeMisses := 1;
                             cycles := 101 |};
                 timeCounter := 1 |}
              (Load 4)
              [ {| valid := true; dirty := true; tag := 0; lastUsed := 1 |} ])
    as (s' & e & v & Hs' & Hold & Hc & _).
  - reflexivity.
  - vm_compute. discriminate.
  - reflexivity.
  - reflexivity.
  - intros [|j] l Hl; [|discriminate]. inversion Hl; subst. reflexivity.
  - exists s', e, v. split; [exact Hs'|]. split; [exact Hold|].
    vm_compute in Hs'. inversion Hs'; subst. reflexivity.
Defined.

Lemma init_set cfg k set :
  cache (init cfg) !! k = Some set ->
  set = replicate (Z.to_nat (blocksPerSet cfg)) empty_line.
Proof. simpl. intros H. by apply lookup_replicate_1 in H as [-> _]. Qed.

Lemma no_match_empty n tg : no_match (replicate n empty_line) tg.
Proof. intros j l Hl. apply lookup_replicate_1 in Hl as [-> _]. reflexivity. Qed.

(** C4. Without write-allocate a store that misses counts in
    [storeMisses], costs exactly 100 cycles and leaves the whole cache
    as it was: every line of every set keeps valid, dirty, tag and
    stamp.  So on the empty cache [Store 0] is a miss at 100 cycles with
    nothing installed, and the [Load 0] after it still misses. *)
Theorem no_write_allocate_store_miss :
  (forall cfg pre s a set,
     validate cfg = None -> isWriteAlloc cfg = false ->
     simulate cfg pre = Some s -> op a = "s" ->
     cache s !! Z.to_nat (setIndex cfg (addr a)) = Some set ->
     no_match set (tag_of cfg (addr a)) ->
     exists s',
       simulate cfg (pre ++ [a]) = Some s' /\ cache s' = cache s /\
       stats s' =
         {| totalLoads := totalLoads (stats s);
            totalStores := wrap64 (totalStores (stats s) + 1);
            loadHits := loadHits (stats s);
            loadMisses := loadMisses (stats s);
            storeHits := storeHits (stats s);
            storeMisses := wrap64 (storeMisses (stats s) + 1);
            cycles := wrap64 (cycles (stats s) + 100) |})
  /\ (forall cfg,
        validate cfg = None -> isWriteAlloc cfg = false ->
        exists s1 s2,
          simulate cfg [Store 0] = Some s1 /\ cache s1 = cache (init cfg) /\
          stats s1 = {| totalLoads := 0; totalStores := 1; loadHits := 0; loadMisses := 0;
                        storeHits := 0; storeMisses := 1; cycles := 100 |} /\
          simulate cfg [Store 0; Load 0] = Some s2 /\
          loadHits (stats s2) = 0 /\ loadMisses (stats s2) = 1).
Proof.
  assert (Hgen : forall cfg pre s a set,
     validate cfg = None -> isWriteAlloc cfg = false ->
     simulate cfg pre = Some s -> op a = "s" ->
     cache s !! Z.to_nat (setIndex cfg (addr a)) = Some set ->
     no_match set (tag_of cfg (addr a)) ->
     exists s',
       simulate cfg (pre ++ [a]) = Some s' /\ cache s' = cache s /\
       stats s' =
         {| totalLoads := totalLoads (stats s);
            totalStores := wrap64 (totalStores (stats s) + 1);
            loadHits := loadHits (stats s);
            loadMisses := loadMisses (stats s);
            storeHits := storeHits (stats s);
            storeMisses := wrap64 (storeMisses (stats s) + 1);
            cycles := wrap64 (cycles (stats s) + 100) |}).
  { intros cfg pre s a set Hv Hwa Hs Hop Hset Hnm.
    destruct (reachable_step cfg pre s a Hv Hs) as (set' & Hset' & _ & Hcase).
    simpl in Hset'. rewrite Hset in Hset'. inversion Hset'; subst set'. clear Hset'.
    destruct Hcase as [(i & l & Hfm & _) | (_ & t & lt & e & v & _ & _ & _ & Heq)].
    { exfalso. eapply first_match_no_match; eauto. }
    eexists. split; [exact Heq|].
    unfold commit, miss_result. rewrite Hop, Hwa. simpl.
    split; [|reflexivity]. apply list_insert_id. exact Hset. }
  split; [exact Hgen|].
  intros cfg Hv Hwa.
  pose proof (valid_geometry cfg Hv) as (Hn & Hb & _).
  assert (H0 : simulate cfg [] = Some (init cfg)) by reflexivity.
  pose proof (setIndex_range cfg 0 Hn) as Hsi.
  destruct (lookup_lt_is_Some_2 (cache (init cfg)) (Z.to_nat (setIndex cfg 0)))
    as [set Hset].
  { simpl. rewrite length_replicate. lia. }
  pose proof (init_set _ _ _ Hset) as Hrep.
  destruct (Hgen cfg [] (init cfg) (Store 0) set Hv Hwa H0 eq_refl Hset)
    as (s1 & Hs1 & Hc1 & Hst1).
  { rewrite Hrep. apply no_match_empty. }
  simpl in Hs1.
  destruct (reachable_step cfg [Store 0] s1 (Load 0) Hv Hs1) as (set' & Hset' & _ & Hcase).
  simpl in Hset'. rewrite Hc1, Hset in Hset'. inversion Hset'; subst set'. clear Hset'.
  destruct Hcase as [(i & l & Hfm & _) | (_ & t & lt & e & v & _ & _ & _ & Heq)].
  { exfalso. eapply first_match_no_match; [exact Hfm|].
    rewrite Hrep. apply no_match_empty. }
  exists s1. eexists. split; [exact Hs1|]. split; [exact Hc1|].
  split; [rewrite Hst1; reflexivity|].
  split; [exact Heq|].
  unfold commit, miss_result. simpl. rewrite Hst1. simpl. split; reflexivity.
Qed.

Lemma no_write_allocate_store_miss_witness :
  exists s1 s2,
    simulate cfgD [Store 0] = Some s1 /\ cache s1 = cache (init cfgD) /\
    stats s1 = {| totalLoads := 0; totalStores := 1; loadHits := 0; loadMisses := 0;
                  storeHits := 0; storeMisses := 1; cycles := 100 |} /\
    simulate cfgD [Store 0; Load 0] = Some s2 /\
    loadHits (stats s2) = 0 /\ loadMisses (stats s2) = 1.
Proof.
  apply (proj2 no_write_allocate_store_miss cfgD); reflexivity.
Defined.

(** ** Statistics along a trace *)

Lemma evict_charge_bound cfg set v :
  0 <= blockSize cfg ->
  0 <= evict_charge cfg set v <= 100 * (blockSize cfg / 4).
Proof.
  intros H. pose proof (Z.div_pos (blockSize cfg) 4 H ltac:(lia)).
  unfold evict_charge.
  destruct (forallb valid set && String.eqb (writePolicy cfg) "write-back" && dirty v); lia.
Qed.

(** The statistics after one step: one more load or store, as a hit or
    as a miss, and between 1 and [max_cost] more cycles. *)
Lemma step_stats cfg s a s' :
  validate cfg = None -> blockSize cfg <= 2 ^ 26 -> wf cfg s ->
  step cfg s a = Some s' ->
  timeCounter s' = wrap64 (timeCounter s + 1) /\
  ((op a = "l" /\ exists h c, 1 <= c <= max_cost cfg /\
       stats s' = set_cycles (wrap64 (cycles (stats s) + c)) (count_load h (stats s)))
   \/ (op a = "s" /\ exists h c, 1 <= c <= max_cost cfg /\
       stats s' = set_cycles (wrap64 (cycles (stats s) + c)) (count_store h (stats s)))
   \/ (op a <> "l" /\ op a <> "s" /\ stats s' = stats s)).
Proof.
  intros Hv Hbs Hwf Hstep.
  pose proof (valid_geometry cfg Hv) as (Hn & Hb & H4).
  assert (HP : 1 <= blockSize cfg / 4) by (apply Z.div_le_lower_bound; lia).
  destruct (miss_penalty_exact cfg ltac:(lia)) as [Hp Hp1].
  destruct (step_cases cfg s a Hn Hb Hwf) as (set & Hset & _ & Hcase).
  destruct Hcase as [(i & l & Hfm & Heq) | (Hnm & t & lt & e & v & Hit & _ & Hold & Heq)];
    rewrite Heq in Hstep; inversion Hstep; subst s'; clear Hstep Heq;
    (split; [reflexivity|]); unfold commit; simpl.
  - unfold hit_result.
    destruct (String.eqb_spec (op a) "l") as [Hl|Hl]; simpl.
    { left. split; [exact Hl|]. exists true, 1. split; [unfold max_cost; lia | reflexivity]. }
    destruct (String.eqb_spec (op a) "s") as [Hs|Hs]; simpl.
    { right; left. split; [exact Hs|].
      exists true, (if is_write_through cfg then 1 + 100 else 1).
      split; [unfold max_cost; destruct (is_write_through cfg); lia | reflexivity]. }
    right; right. auto.
  - unfold miss_result. rewrite !charge_int_exact by lia. rewrite Hp1, Hp.
    pose proof (evict_charge_bound cfg set v ltac:(lia)) as Hc.
    destruct (String.eqb_spec (op a) "l") as [Hl|Hl]; simpl.
    { left. split; [exact Hl|]. eexists false, _. split; [|reflexivity].
      unfold max_cost. lia. }
    destruct (String.eqb_spec (op a) "s") as [Hs|Hs]; simpl.
    { right; left. split; [exact Hs|]. destruct (isWriteAlloc cfg); simpl.
      - eexists false, _. split; [|reflexivity].
        unfold max_cost. destruct (is_write_through cfg); lia.
      - exists false, 100. split; [unfold max_cost; lia | reflexivity]. }
    right; right. auto.
Qed.

Lemma counted_step cfg n s a s' :
  validate cfg = None -> blockSize cfg <= 2 ^ 26 -> wf cfg s ->
  0 <= n -> (n + 1) * max_cost cfg <= ULONG_MAX ->
  counted cfg n (stats s) -> step cfg s a = Some s' ->
  counted cfg (n + 1) (stats s') /\
  (op a = "l" \/ op a = "s" ->
   exists c, 1 <= c <= max_cost cfg /\ cycles (stats s') = cycles (stats s) + c).
Proof.
  intros Hv Hbs Hwf Hn Hmax [H1 H2 (H3 & H4 & H5 & H6) H7 H8] Hstep.
  pose proof (valid_geometry cfg Hv) as (_ & _ & Hb4).
  assert (HM : 101 <= max_cost cfg).
  { unfold max_cost. pose proof (Z.div_pos (blockSize cfg) 4 ltac:(lia) ltac:(lia)). lia. }
  assert (Hsmall : forall z, 0 <= z <= n + 1 -> wrap64 z = z).
  { intros z Hz. apply wrap64_small. nia. }
  destruct (step_stats cfg s a s' Hv Hbs Hwf Hstep) as
    (_ & [(Hop & h & c & Hc & Hst) | [(Hop & h & c & Hc & Hst) | (Hl & Hs & Hst)]]).
  - assert (Hcy : wrap64 (cycles (stats s) + c) = cycles (stats s) + c)
      by (apply wrap64_small; nia).
    rewrite Hst. unfold set_cycles, count_load. simpl. rewrite Hcy.
    rewrite !Hsmall by lia. split.
    + split; simpl; destruct h; rewrite ?Hsmall by lia; try lia; nia.
    + intros _. exists c. auto.
  - assert (Hcy : wrap64 (cycles (stats s) + c) = cycles (stats s) + c)
      by (apply wrap64_small; nia).
    rewrite Hst. unfold set_cycles, count_store. simpl. rewrite Hcy.
    rewrite !Hsmall by lia. split.
    + split; simpl; destruct h; rewrite ?Hsmall by lia; try lia; nia.
    + intros _. exists c. auto.
  - rewrite Hst. split; [|intros [?|?]; contradiction].
    split; try assumption; try lia; auto; nia.
Qed.

Lemma counted_run cfg tr : forall s n,
  validate cfg = None -> blockSize cfg <= 2 ^ 26 -> wf cfg s ->
  0 <= n -> (n + Z.of_nat (length tr)) * max_cost cfg <= ULONG_MAX ->
  counted cfg n (stats s) ->
  forall s', run cfg s tr = Some s' ->
  counted cfg (n + Z.of_nat (length tr)) (stats s').
Proof.
  induction tr as [|a tr IH]; intros s n Hv Hbs Hwf Hn Hmax Hc s' Hrun.
  - simpl in *. inversion Hrun; subst. by rewrite Z.add_0_r.
  - simpl in Hrun. destruct (step cfg s a) as [s1|] eqn:Hstep; [|discriminate].
    simpl in Hrun.
    pose proof (valid_geometry cfg Hv) as (Hns & Hb & Hb4).
    assert (HM : 0 <= max_cost cfg).
    { unfold max_cost. pose proof (Z.div_pos (blockSize cfg) 4 ltac:(lia) ltac:(lia)). lia. }
    replace (n + Z.of_nat (length (a :: tr))) with ((n + 1) + Z.of_nat (length tr)) in *
      by (simpl length; lia).
    destruct (counted_step cfg n s a s1 Hv Hbs Hwf Hn ltac:(nia) Hc Hstep) as [Hc1 _].
    eapply (IH s1 (n + 1)); eauto; try lia.
    eapply wf_step; eauto.
Qed.

Lemma counted_init cfg : 4 <= blockSize cfg -> counted cfg 0 (stats (init cfg)).
Proof. intros H. split; simpl; lia. Qed.

Lemma wrap64_add_r a b : wrap64 (a + wrap64 b) = wrap64 (a + b).
Proof. unfold wrap64. apply Zplus_mod_idemp_r. Qed.

Lemma sums_mod_load h st : sums_mod st -> sums_mod (count_load h st).
Proof.
  intros [H1 H2]. split; simpl; [|exact H2]. rewrite H1, wrap64_add_l.
  destruct h; [rewrite wrap64_add_l | rewrite wrap64_add_r]; f_equal; lia.
Qed.

Lemma sums_mod_store h st : sums_mod st -> sums_mod (count_store h st).
Proof.
  intros [H1 H2]. split; simpl; [exact H1|]. rewrite H2, wrap64_add_l.
  destruct h; [rewrite wrap64_add_l | rewrite wrap64_add_r]; f_equal; lia.
Qed.

(** One step counts one load or one store, as a hit or as a miss, or
    leaves the statistics alone. *)
Lemma step_counts cfg s a s' :
  pow2 (numSets cfg) -> 1 <= blocksPerSet cfg -> wf cfg s ->
  step cfg s a = Some s' ->
  exists c h,
    stats s' = set_cycles c (count_load h (stats s))
    \/ stats s' = set_cycles c (count_store h (stats s))
    \/ stats s' = stats s.
Proof.
  intros Hn Hb Hwf Hstep.
  destruct (step_cases cfg s a Hn Hb Hwf) as (set & _ & _ & Hcase).
  destruct Hcase as [(i & l & _ & Heq) | (_ & t & lt & e & v & _ & _ & _ & Heq)];
    rewrite Heq in Hstep; inversion Hstep; subst s'; clear Hstep Heq;
    unfold commit; simpl.
  - unfold hit_result.
    destruct (String.eqb (op a) "l"); simpl; [eexists _, true; left; reflexivity|].
    destruct (String.eqb (op a) "s"); simpl; [eexists _, true; right; left; reflexivity|].
    exists 0, true. right; right. reflexivity.
  - unfold miss_result.
    destruct (String.eqb (op a) "l"); simpl; [eexists _, false; left; reflexivity|].
    destruct (String.eqb (op a) "s"); simpl; [|exists 0, true; right; right; reflexivity].
    destruct (isWriteAlloc cfg); simpl; eexists _, false; right; left; reflexivity.
Qed.

Lemma sums_mod_run cfg tr : forall s s',
  pow2 (numSets cfg) -> 1 <= blocksPerSet cfg -> wf cfg s ->
  sums_mod (stats s) -> run cfg s tr = Some s' -> sums_mod (stats s').
Proof.
  induction tr as [|a tr IH]; intros s s' Hn Hb Hwf Hsum Hrun; simpl in Hrun.
  - inversion Hrun; subst. exact Hsum.
  - destruct (step cfg s a) as [s1|] eqn:Hstep; [|discriminate]. simpl in Hrun.
    apply (IH s1 s'); auto; [eapply wf_step; eauto|].
    destruct (step_counts cfg s a s1 Hn Hb Hwf Hstep) as (c & h & [-> | [-> | ->]]).
    + apply (sums_mod_load h), Hsum.
    + apply (sums_mod_store h), Hsum.
    + exact Hsum.
Qed.

(** Sums and cycles.  After every prefix of a trace the loads split into hits and
    misses, and so do the stores; from one access to the next the cycle
    total never decreases, and each load or store adds at least one
    cycle.  The counters are [unsigned long] and the penalty an [int]
    product.  In that arithmetic the two sums hold after every trace;
    for block sizes up to 2^26 and traces short enough that [max_cost]
    cycles per access stay below 2^64 no counter has wrapped, the sums
    hold as written and the cycles grow. *)
Theorem stats_invariants :
  (forall cfg tr s,
     validate cfg = None -> simulate cfg tr = Some s ->
     totalLoads (stats s) = wrap64 (loadHits (stats s) + loadMisses (stats s))
     /\ totalStores (stats s) = wrap64 (storeHits (stats s) + storeMisses (stats s)))
  /\ (forall cfg pre a s s',
        validate cfg = None -> blockSize cfg <= 2 ^ 26 ->
        (Z.of_nat (length pre) + 1) * max_cost cfg <= ULONG_MAX ->
        simulate cfg pre = Some s -> simulate cfg (pre ++ [a]) = Some s' ->
        (totalLoads (stats s) = loadHits (stats s) + loadMisses (stats s)
         /\ totalStores (stats s) = storeHits (stats s) + storeMisses (stats s))
        /\ (totalLoads (stats s') = loadHits (stats s') + loadMisses (stats s')
            /\ totalStores (stats s') = storeHits (stats s') + storeMisses (stats s'))
        /\ cycles (stats s) <= cycles (stats s')
        /\ (op a = "l" \/ op a = "s" ->
            exists c, 1 <= c /\ cycles (stats s') = cycles (stats s) + c)).
Proof.
  split.
  { intros cfg tr s Hv Hs. pose proof (valid_geometry cfg Hv) as (Hn & Hb & _).
    apply (sums_mod_run cfg tr (init cfg) s Hn Hb (wf_init cfg)); [|exact Hs].
    split; reflexivity. }
  intros cfg pre a s s' Hv Hbs Hmax Hs Hs'.
  pose proof (valid_geometry cfg Hv) as (Hn & Hb & Hb4).
  assert (HM : 0 <= max_cost cfg).
  { unfold max_cost. pose proof (Z.div_pos (blockSize cfg) 4 ltac:(lia) ltac:(lia)). lia. }
  pose proof (simulate_wf cfg pre s Hv Hs) as Hwf.
  assert (Hc : counted cfg (Z.of_nat (length pre)) (stats s)).
  { pose proof (counted_run cfg pre (init cfg) 0 Hv Hbs (wf_init cfg) ltac:(lia)
                  ltac:(nia) (counted_init cfg Hb4) s Hs) as H.
    exact H. }
  rewrite (simulate_snoc cfg pre a s Hs) in Hs'.
  destruct (counted_step cfg (Z.of_nat (length pre)) s a s' Hv Hbs Hwf ltac:(lia) Hmax Hc Hs')
    as [Hc' Hpos].
  split; [split; apply Hc|]. split; [split; apply Hc'|].
  split; [|intros Hop; destruct (Hpos Hop) as (c & Hc1 & Hc2); exists c; split; lia].
  destruct (step_stats cfg s a s' Hv Hbs Hwf Hs') as
    (_ & [(Hop & _) | [(Hop & _) | (_ & _ & Hst)]]).
  - destruct (Hpos (or_introl Hop)) as (c & Hc1 & Hc2). lia.
  - destruct (Hpos (or_intror Hop)) as (c & Hc1 & Hc2). lia.
  - rewrite Hst. lia.
Qed.

Lemma stats_invariants_witness :
  exists s s',
    simulate cfgA [Load 0] = Some s /\ simulate cfgA ([Load 0] ++ [Store 0]) = Some s'
    /\ sums_mod (stats s')
    /\ cycles (stats s) <= cycles (stats s').
Proof.
  eexists _, _. split; [reflexivity|]. split; [reflexivity|]. split.
  - apply (proj1 stats_invariants cfgA ([Load 0] ++ [Store 0])%list); reflexivity.
  - refine (proj1 (proj2 (proj2
      (proj2 stats_invariants cfgA [Load 0] (Store 0) _ _ _ _ _ eq_refl eq_refl)))).
    + reflexivity.
    + vm_compute. discriminate.
    + vm_compute. discriminate.
Defined.

(** ** How a step changes its set *)

Lemma matches_true tg l : matches tg l = true <-> valid l = true /\ tag l = tg.
Proof. unfold matches. rewrite andb_true_iff, Z.eqb_eq. reflexivity. Qed.

Lemma hit_result_change cfg o tg tc set st i l :
  first_match set tg i l ->
  set_change tg tc set (hit_result cfg o tc set st i l).1.
Proof.
  intros Hfm. pose proof Hfm as (Hl & Hm & _). apply matches_true in Hm as [Hv Ht].
  unfold hit_result, refreshed.
  destruct (String.eqb o "l"); simpl.
  { eapply change_hit; [exact Hfm | reflexivity | | |];
      destruct (useLRU cfg); simpl; auto. }
  destruct (String.eqb o "s"); simpl; [|by apply change_none].
  eapply change_hit; [exact Hfm | reflexivity | | |];
    destruct (useLRU cfg), (is_write_through cfg); simpl; auto.
Qed.

Lemma miss_result_change cfg o tg tc set st t lt v :
  no_match set tg -> insertion_target set t -> set !! t = Some lt ->
  set_change tg tc set (miss_result cfg o tg tc set st t v).1.
Proof.
  intros Hnm Hit Hlt. unfold miss_result.
  destruct (String.eqb o "l"); simpl.
  { eapply change_install; eauto. }
  destruct (String.eqb o "s"); simpl; [|by apply change_none].
  destruct (isWriteAlloc cfg); simpl; [|by apply change_none].
  eapply change_install; eauto.
Qed.

Lemma step_set_change cfg s a s' :
  pow2 (numSets cfg) -> 1 <= blocksPerSet cfg -> wf cfg s ->
  step cfg s a = Some s' ->
  exists set set',
    cache s !! Z.to_nat (setIndex cfg (addr a)) = Some set /\
    cache s' = <[Z.to_nat (setIndex cfg (addr a)) := set']> (cache s) /\
    timeCounter s' = wrap64 (timeCounter s + 1) /\
    set_change (tag_of cfg (addr a)) (timeCounter s') set set'.
Proof.
  intros Hn Hb Hwf Hstep.
  destruct (step_cases cfg s a Hn Hb Hwf) as (set & Hset & _ & Hcase).
  exists set.
  destruct Hcase as [(i & l & Hfm & Heq) | (Hnm & t & lt & e & v & Hit & Hlt & _ & Heq)];
    rewrite Heq in Hstep; inversion Hstep; subst s'; clear Hstep Heq;
    eexists; (split; [exact Hset|]); (split; [reflexivity|]); (split; [reflexivity|]);
    simpl.
  - by apply hit_result_change.
  - eapply miss_result_change; eauto.
Qed.

Lemma sets_insert (P : list CacheLine -> Prop) (c : list (list CacheLine)) si set' :
  (forall k set, c !! k = Some set -> P set) -> P set' ->
  forall k set, <[si := set']> c !! k = Some set -> P set.
Proof.
  intros Hall Hnew k set Hk. destruct (decide (si = k)) as [->|Hne].
  - destruct (decide (k < length c)%nat).
    + rewrite list_lookup_insert_eq in Hk by assumption. by inversion Hk; subst.
    + rewrite list_insert_ge in Hk by lia. eauto.
  - rewrite list_lookup_insert_ne in Hk by assumption. eauto.
Qed.

Lemma lookup_insert_cases {A} (l : list A) i j x y :
  <[i := x]> l !! j = Some y -> (j = i /\ y = x) \/ (j <> i /\ l !! j = Some y).
Proof.
  intros H. destruct (decide (i = j)) as [->|Hne].
  - destruct (decide (j < length l)%nat).
    + rewrite list_lookup_insert_eq in H by assumption. left. split; congruence.
    + rewrite list_insert_ge in H by lia. apply lookup_lt_Some in H. lia.
  - rewrite list_lookup_insert_ne in H by assumption. right. auto.
Qed.

(** ** One tag, one line *)



Lemma unique_tags_init cfg k set : cache (init cfg) !! k = Some set -> unique_tags set.
Proof.
  intros Hset. rewrite (init_set _ _ _ Hset).
  intros i j li lj Hi _ Hv _ _. apply lookup_replicate_1 in Hi as [-> _]. discriminate.
Qed.

Lemma scan_miss cfg set tg sc :
  1 <= blocksPerSet cfg -> wf_set cfg set ->
  scan cfg set tg = Some sc -> hit sc = false -> miss_scan set tg sc.
Proof.
  intros Hb Hwf Hsc Hh.
  destruct (scan_cases cfg set tg Hb Hwf) as (sc' & Hsc' & Hcase).
  assert (sc' = sc) by congruence. subst sc'.
  destruct Hcase as [(i & l & Hhit & _) | Hm]; [congruence | exact Hm].
Qed.

Lemma scan_hit cfg set tg sc :
  1 <= blocksPerSet cfg -> wf_set cfg set ->
  scan cfg set tg = Some sc -> hit sc = true -> exists i l, hit_scan set tg sc i l.
Proof.
  intros Hb Hwf Hsc Hh.
  destruct (scan_cases cfg set tg Hb Hwf) as (sc' & Hsc' & Hcase).
  assert (sc' = sc) by congruence. subst sc'.
  destruct Hcase as [Hhit | (Hf & _)]; [exact Hhit | congruence].
Qed.



(** ** Time stamps *)

Lemma stamped_mono T T' set : T <= T' -> stamped T set -> stamped T' set.
Proof.
  intros HT [H1 H2 H3]. split; auto.
  intros j l Hl Hv. specialize (H1 j l Hl Hv). lia.
Qed.

Lemma stamped_change tg T set set' :
  0 <= T -> stamped T set -> set_change tg (T + 1) set set' -> stamped (T + 1) set'.
Proof.
  intros HT Hst Hch. pose proof Hst as [H1 H2 H3].
  destruct Hch as [-> | i l l' Hfm -> Hv Ht Hlu | t lt d Hnm _ _ ->].
  - eapply stamped_mono; [|exact Hst]. lia.
  - destruct Hfm as (Hl & Hm & _). apply matches_true in Hm as [Hvl _].
    pose proof (H1 _ _ Hl Hvl) as Hrl.
    split.
    + intros j x Hx Hvx. apply lookup_insert_cases in Hx as [[-> ->] | [_ Hx]].
      * destruct Hlu as [-> | ->]; lia.
      * specialize (H1 _ _ Hx Hvx). lia.
    + intros j x Hx Hvx. apply lookup_insert_cases in Hx as [[-> ->] | [_ Hx]].
      * congruence.
      * eauto.
    + intros a b la lb Ha Hb Hva Hvb Hab.
      apply lookup_insert_cases in Ha as [[-> ->] | [Hai Ha]];
        apply lookup_insert_cases in Hb as [[-> ->] | [Hbi Hb]]; try reflexivity.
      * destruct Hlu as [Hlu | Hlu].
        -- exfalso. apply Hbi. symmetry. eapply (H3 i b); eauto. congruence.
        -- specialize (H1 _ _ Hb Hvb). lia.
      * destruct Hlu as [Hlu | Hlu].
        -- exfalso. apply Hai. eapply (H3 a i); eauto. congruence.
        -- specialize (H1 _ _ Ha Hva). lia.
      * eapply H3; eauto.
  - split.
    + intros j x Hx Hvx. apply lookup_insert_cases in Hx as [[-> ->] | [_ Hx]].
      * simpl. lia.
      * specialize (H1 _ _ Hx Hvx). lia.
    + intros j x Hx Hvx. apply lookup_insert_cases in Hx as [[-> ->] | [_ Hx]].
      * discriminate.
      * eauto.
    + intros a b la lb Ha Hb Hva Hvb Hab.
      apply lookup_insert_cases in Ha as [[-> ->] | [Hai Ha]];
        apply lookup_insert_cases in Hb as [[-> ->] | [Hbi Hb]]; try reflexivity.
      * specialize (H1 _ _ Hb Hvb). simpl in Hab. lia.
      * specialize (H1 _ _ Ha Hva). simpl in Hab. lia.
      * eapply H3; eauto.
Qed.

Lemma clocked_init cfg : clocked 0 (init cfg).
Proof.
  split; [reflexivity|]. intros k set Hset. rewrite (init_set _ _ _ Hset).
  split.
  - intros j l Hl Hv. apply lookup_replicate_1 in Hl as [-> _]. discriminate.
  - intros j l Hl _. apply lookup_replicate_1 in Hl as [-> _]. reflexivity.
  - intros i j li lj Hi _ Hv _ _. apply lookup_replicate_1 in Hi as [-> _]. discriminate.
Qed.

Lemma clocked_step cfg n s a s' :
  pow2 (numSets cfg) -> 1 <= blocksPerSet cfg -> wf cfg s ->
  0 <= n -> n + 1 <= ULONG_MAX -> clocked n s ->
  step cfg s a = Some s' -> clocked (n + 1) s'.
Proof.
  intros Hn Hb Hwf Hn0 Hmax [Htc Hsets] Hstep.
  destruct (step_set_change cfg s a s' Hn Hb Hwf Hstep)
    as (set & set' & Hset & Hc & Ht & Hch).
  rewrite Htc, wrap64_small in Ht by lia.
  split; [exact Ht|]. rewrite Hc. apply sets_insert.
  - intros k x Hx. eapply stamped_mono; [|eauto]. lia.
  - rewrite Ht in Hch. eapply stamped_change; eauto.
Qed.

Lemma clocked_run cfg tr : forall n s s',
  pow2 (numSets cfg) -> 1 <= blocksPerSet cfg -> wf cfg s ->
  0 <= n -> n + Z.of_nat (length tr) <= ULONG_MAX -> clocked n s ->
  run cfg s tr = Some s' -> clocked (n + Z.of_nat (length tr)) s'.
Proof.
  induction tr as [|a tr IH]; intros n s s' Hn Hb Hwf Hn0 Hmax Hcl Hrun.
  - simpl in *. inversion Hrun; subst. by rewrite Z.add_0_r.
  - simpl in Hrun. destruct (step cfg s a) as [s1|] eqn:Hstep; [|discriminate].
    simpl in Hrun.
    replace (n + Z.of_nat (length (a :: tr))) with ((n + 1) + Z.of_nat (length tr)) in *
      by (simpl length; lia).
    eapply (IH (n + 1) s1); eauto; try lia.
    + eapply wf_step; eauto.
    + eapply clocked_step; eauto. lia.
Qed.

Lemma simulate_clocked cfg tr s :
  validate cfg = None -> Z.of_nat (length tr) <= ULONG_MAX ->
  simulate cfg tr = Some s -> clocked (Z.of_nat (length tr)) s.
Proof.
  intros Hv Hlen Hs. pose proof (valid_geometry cfg Hv) as (Hn & Hb & _).
  apply (clocked_run cfg tr 0 (init cfg) s Hn Hb (wf_init cfg)); auto using clocked_init.
  lia.
Qed.

Lemma oldest_strict T set e v :
  stamped T set -> all_valid set -> oldest set e v ->
  forall j l, set !! j = Some l -> j <> e -> lastUsed v < lastUsed l.
Proof.
  intros [_ _ Hd] Hall (Hv & Hmin) j l Hl Hne.
  destruct (Hmin j l Hl) as [Hle _].
  destruct (Z.eq_dec (lastUsed v) (lastUsed l)) as [Heq|]; [|lia].
  exfalso. apply Hne. eapply (Hd j e); eauto.
Qed.

(** C10. In the first variant, in every reachable state, two different
    valid lines of a set never carry the same [lastUsed]; so in a full
    set the line the search picks for eviction is strictly older than
    every other line, and which of two equal stamps comes first never
    matters.  The counter is 64-bit: the statement is for traces of fewer
    than 2^64 lines. *)
Theorem distinct_stamps cfg tr s k set :
  validate cfg = None -> Z.of_nat (length tr) <= ULONG_MAX ->
  simulate cfg tr = Some s -> cache s !! k = Some set ->
  (forall i j li lj, set !! i = Some li -> set !! j = Some lj ->
     valid li = true -> valid lj = true -> i <> j -> lastUsed li <> lastUsed lj)
  /\ (forall tg sc, scan cfg set tg = Some sc -> hit sc = false -> all_valid set ->
        exists e v, evictIndex sc = Z.of_nat e /\ set !! e = Some v /\
          forall j l, set !! j = Some l -> j <> e -> lastUsed v < lastUsed l).
Proof.
  intros Hv Hlen Hs Hset.
  pose proof (valid_geometry cfg Hv) as (Hn & Hb & _).
  pose proof (simulate_wf cfg tr s Hv Hs) as Hwf.
  destruct (simulate_clocked cfg tr s Hv Hlen Hs) as [_ Hst].
  specialize (Hst _ _ Hset). split.
  - intros i j li lj Hi Hj Hvi Hvj Hne Heq. apply Hne.
    eapply (st_distinct _ _ Hst); eauto.
  - intros tg sc Hsc Hh Hall.
    destruct (scan_miss cfg set tg sc Hb (proj2 Hwf _ _ Hset) Hsc Hh)
      as (_ & _ & _ & e & v & He & Hold).
    exists e, v. split; [exact He|]. split; [apply Hold|].
    eapply oldest_strict; eauto.
Qed.

Lemma distinct_stamps_witness :
  exists s set,
    simulate (cfg2way "lru") [Load 0; Load 4; Load 0] = Some s /\
    cache s !! 0%nat = Some set /\
    forall i j li lj, set !! i = Some li -> set !! j = Some lj ->
      valid li = true -> valid lj = true -> i <> j -> lastUsed li <> lastUsed lj.
Proof.
  eexists _, _. split; [reflexivity|]. split; [reflexivity|].
  refine (proj1 (distinct_stamps (cfg2way "lru") [Load 0; Load 4; Load 0] _ 0%nat _
                   eq_refl _ eq_refl eq_refl)).
  vm_compute. discriminate.
Defined.

(** ** Residency under LRU and FIFO *)

Lemma sound_init cfg : sound cfg 0 (init cfg).
Proof.
  split; [apply wf_init|]. split; [apply clocked_init|].
  intros k set. apply unique_tags_init.
Qed.















Lemma installs_block_cases cfg s a set :
  1 <= blocksPerSet cfg -> 0 <= setIndex cfg (addr a) -> wf_set cfg set ->
  cache s !! Z.to_nat (setIndex cfg (addr a)) = Some set ->
  ((exists i l, first_match set (tag_of cfg (addr a)) i l) -> installs_block cfg s a = false)
  /\ (no_match set (tag_of cfg (addr a)) -> installs_block cfg s a = allocates cfg (op a)).
Proof.
  intros Hb Hsi Hwf Hset. unfold installs_block.
  assert (Hat : at_index (cache s) (setIndex cfg (addr a)) = Some set)
    by (apply at_index_Some; auto).
  rewrite Hat.
  destruct (scan_cases cfg set (tag_of cfg (addr a)) Hb Hwf) as (sc & -> & Hcase).
  destruct Hcase as [(i & l & Hh & _ & Hfm) | (Hh & Hnm & _)]; rewrite Hh; simpl; split.
  - reflexivity.
  - intros Hnm. exfalso. eapply first_match_no_match; eauto.
  - intros (i & l & Hfm). exfalso. eapply first_match_no_match; eauto.
  - reflexivity.
Qed.






(** ** The two variants side by side *)

(** C9.  With two lines per set under LRU the variants count different
    hits for the trace 0, 4, 0, 8, 0.  The first variant stamps the
    second access to block 0 with the incremented counter (3), so block
    4 is evicted and the last access hits.  The second variant stamps it
    inside the search loop with the counter before the increment (2),
    the stamp block 4 already has; the tie goes to the lower index,
    block 0 is evicted, and the last access misses. *)
Theorem variants_disagree_under_lru :
  main (cfg2way "lru") trace9 = Finished (loads_only 2 3 305)
  /\ Simplified.main (cfg2way "lru") trace9 = Finished (loads_only 1 4 401).
Proof. split; vm_compute; reflexivity. Qed.

(** *** Agreement under FIFO

    Without the LRU refresh the two variants keep the same lines up to
    the dirty bit, so they count the same hits and misses. *)

Lemma at_index_fmap {A B} (f : A -> B) (v : list A) i :
  at_index (f <$> v) i = f <$> at_index v i.
Proof. unfold at_index. destruct (i <? 0); [reflexivity | apply list_lookup_fmap]. Qed.

Lemma assign_fmap {A B} (f : A -> B) (v : list A) i (g : A -> A) (g2 : B -> B) :
  (forall x, g2 (f x) = f (g x)) ->
  assign (f <$> v) i g2 = fmap (M := list) f <$> assign v i g.
Proof.
  intros Hg. unfold assign. rewrite at_index_fmap.
  destruct (at_index v i) as [x|]; simpl; [|reflexivity].
  rewrite list_fmap_insert, Hg. reflexivity.
Qed.

Lemma scan_from_forget tc n set tg : forall i sc,
  Simplified.scan_from false tc n (forget <$> set) tg i (forget_scan sc)
  = (fun r => (forget <$> set, forget_scan r)) <$> scan_from n set tg i sc.
Proof.
  induction n as [|n IH]; intros i sc; simpl; [reflexivity|].
  rewrite at_index_fmap. destruct (at_index set i) as [l|]; simpl; [|reflexivity].
  destruct (valid l && (tag l =? tg)); simpl; [reflexivity|].
  rewrite <- IH. f_equal.
  destruct (lastUsed l <? oldestTime sc); reflexivity.
Qed.

Lemma counts_eq_cycles c c2 st st2 :
  counts_eq st st2 -> counts_eq (set_cycles c st) (set_cycles c2 st2).
Proof. intros H. exact H. Qed.

Lemma counts_eq_load h st st2 :
  counts_eq st st2 -> counts_eq (count_load h st) (count_load h st2).
Proof.
  intros (H1 & H2 & H3 & H4 & H5 & H6). unfold counts_eq, count_load. simpl.
  rewrite H1, H3, H4. repeat split; assumption.
Qed.

Lemma counts_eq_store h st st2 :
  counts_eq st st2 -> counts_eq (count_store h st) (count_store h st2).
Proof.
  intros (H1 & H2 & H3 & H4 & H5 & H6). unfold counts_eq, count_store. simpl.
  rewrite H2, H5, H6. repeat split; assumption.
Qed.

Lemma forget_insert_same (set : list CacheLine) (i : nat) l l' :
  set !! i = Some l -> forget l' = forget l ->
  forget <$> <[i := l']> set = forget <$> set.
Proof.
  intros Hl Hf. rewrite list_fmap_insert, Hf. apply list_insert_id.
  rewrite list_lookup_fmap, Hl. reflexivity.
Qed.

Lemma agree_cache (c : list (list CacheLine)) (k : nat) set2 (set' : list CacheLine) :
  set2 = forget <$> set' ->
  <[k := set2]> (fmap (M := list) forget <$> c) = fmap (M := list) forget <$> <[k := set']> c.
Proof. intros ->. by rewrite list_fmap_insert. Qed.

Lemma step_agree cfg s s2 a :
  pow2 (numSets cfg) -> 1 <= blocksPerSet cfg -> wf cfg s -> useLRU cfg = false ->
  agree s s2 ->
  exists s' s2', step cfg s a = Some s' /\ Simplified.step cfg s2 a = Some s2'
                 /\ agree s' s2'.
Proof.
  intros Hn Hb Hwf Hfifo (Hc & Ht & Hcnt).
  pose proof (setIndex_range cfg (addr a) Hn) as Hsi.
  destruct (lookup_lt_is_Some_2 (cache s) (Z.to_nat (setIndex cfg (addr a))))
    as [set Hset]; [rewrite (proj1 Hwf); lia|].
  pose proof (proj2 Hwf _ _ Hset) as Hwfs.
  assert (Hat : at_index (cache s) (setIndex cfg (addr a)) = Some set)
    by (apply at_index_Some; split; [lia | exact Hset]).
  destruct (scan_cases cfg set (tag_of cfg (addr a)) Hb Hwfs) as (sc & Hsc & Hcase).
  unfold step, Simplified.step. rewrite Hat, Hc, at_index_fmap, Hat. simpl.
  rewrite Hsc. unfold Simplified.scan. rewrite Hfifo.
  change Simplified.scan_start with (forget_scan scan_start).
  rewrite scan_from_forget. fold (scan cfg set (tag_of cfg (addr a))). rewrite Hsc. simpl.
  rewrite Ht.
  set (tg := tag_of cfg (addr a)). set (tc := wrap64 (timeCounter s + 1)).
  destruct Hcase as [(i & l & Hhit) | Hmiss].
  - rewrite (handle_hit cfg (op a) tg tc sc set (stats s) i l Hhit).
    destruct Hhit as (Hh & _ & Hl & _).
    unfold Simplified.handle, refreshed, forget_scan. simpl. rewrite Hh, Hfifo.
    destruct (String.eqb (op a) "l"); simpl.
    { eexists _, _. split; [reflexivity|]. split; [reflexivity|].
      split; simpl; [|split; [reflexivity|]].
      - apply agree_cache. rewrite list_insert_id by exact Hl. reflexivity.
      - apply counts_eq_cycles, counts_eq_load, Hcnt. }
    destruct (String.eqb (op a) "s"); simpl.
    { eexists _, _. split; [reflexivity|]. split; [reflexivity|].
      split; simpl; [|split; [reflexivity|]].
      - apply agree_cache. symmetry.
        apply (forget_insert_same set i l); [exact Hl|].
        destruct (is_write_through cfg); reflexivity.
      - apply counts_eq_cycles, counts_eq_store, Hcnt. }
    eexists _, _. split; [reflexivity|]. split; [reflexivity|].
    split; simpl; [by apply agree_cache|]. split; [reflexivity | exact Hcnt].
  - destruct (handle_miss cfg (op a) tg tc sc set (stats s) Hmiss)
      as (t & lt & e & v & Hit & Hlt & Hold & Hh).
    rewrite Hh. clear Hh.
    destruct (miss_scan_target _ _ _ Hmiss) as (t' & lt' & Htg & Hlt' & _ & _).
    assert (Htt : t' = t).
    { destruct Hmiss as (_ & _ & Hempty & e' & v' & He' & Hold').
      destruct Hit as [Hfi | [Hall (v0 & Hold0)]];
        destruct Hempty as [[Hm Hall'] | (e0 & He0 & Hfi0)]; unfold target in Htg.
      - exfalso. eapply first_invalid_not_all; eauto.
      - rewrite He0 in Htg. destruct (Z.eqb_spec (Z.of_nat e0) (-1)); [lia|].
        simpl in Htg. assert (e0 = t') by lia. subst e0.
        destruct Hfi as [(x & Hx & Hvx) Hbx]. destruct Hfi0 as [(y & Hy & Hvy) Hby].
        destruct (Nat.lt_trichotomy t' t) as [Hlt0 | [Heq0 | Hgt0]]; [|exact Heq0|].
        + rewrite (Hbx _ _ Hlt0 Hy) in Hvy. discriminate.
        + rewrite (Hby _ _ Hgt0 Hx) in Hvx. discriminate.
      - rewrite Hm in Htg. simpl in Htg. rewrite He' in Htg.
        destruct (oldest_unique _ _ _ _ _ Hold0 Hold') as [-> _]. lia.
      - exfalso. eapply first_invalid_not_all; eauto. }
    subst t'. destruct Hmiss as (Hh & _).
    assert (Has : forall d, assign (forget <$> set) (Simplified.target (forget_scan sc))
                     (Simplified.install tg tc)
                   = Some (forget <$> <[t := mkLine true d tg tc]> set)).
    { intros d. change (Simplified.target (forget_scan sc)) with (target sc).
      rewrite Htg, (assign_nat _ t _ (forget lt)).
      - rewrite list_fmap_insert. reflexivity.
      - rewrite list_lookup_fmap, Hlt. reflexivity. }
    unfold Simplified.handle. simpl Simplified.hit. rewrite Hh.
    destruct (String.eqb (op a) "l"); simpl.
    { rewrite (Has false). simpl.
      eexists _, _. split; [reflexivity|]. split; [reflexivity|].
      split; simpl; [|split; [reflexivity|]].
      - by apply agree_cache.
      - apply counts_eq_cycles, counts_eq_load, Hcnt. }
    destruct (String.eqb (op a) "s"); simpl.
    { destruct (isWriteAlloc cfg); simpl.
      - rewrite (Has (negb (is_write_through cfg))). simpl.
        eexists _, _. split; [reflexivity|]. split; [reflexivity|].
        split; simpl; [|split; [reflexivity|]].
        + by apply agree_cache.
        + apply counts_eq_cycles, counts_eq_store, Hcnt.
      - eexists _, _. split; [reflexivity|]. split; [reflexivity|].
        split; simpl; [|split; [reflexivity|]].
        + by apply agree_cache.
        + apply counts_eq_cycles, counts_eq_store, Hcnt. }
    eexists _, _. split; [reflexivity|]. split; [reflexivity|].
    split; simpl; [by apply agree_cache|]. split; [reflexivity | exact Hcnt].
Qed.

Lemma run_agree cfg tr : forall s s2,
  pow2 (numSets cfg) -> 1 <= blocksPerSet cfg -> wf cfg s -> useLRU cfg = false ->
  agree s s2 ->
  exists s' s2', run cfg s tr = Some s' /\ Simplified.run cfg s2 tr = Some s2'
                 /\ agree s' s2'.
Proof.
  induction tr as [|a tr IH]; intros s s2 Hn Hb Hwf Hfifo Hag; simpl.
  - eauto.
  - destruct (step_agree cfg s s2 a Hn Hb Hwf Hfifo Hag) as (s1 & s21 & Hs1 & Hs21 & Hag1).
    rewrite Hs1, Hs21. simpl. apply IH; auto. eapply wf_step; eauto.
Qed.

Lemma agree_init cfg : agree (init cfg) (Simplified.init cfg).
Proof.
  split; simpl; [|split; [reflexivity | repeat split]].
  rewrite !fmap_replicate. reflexivity.
Qed.

(** Under FIFO the two variants print the same six counters for every
    configuration that passes the checks and every trace. *)
Lemma variants_agree_under_fifo cfg tr :
  validate cfg = None -> useLRU cfg = false ->
  exists st st2, main cfg tr = Finished st /\ Simplified.main cfg tr = Finished st2
                 /\ counts_eq st st2.
Proof.
  intros Hv Hfifo. pose proof (valid_geometry cfg Hv) as (Hn & Hb & _).
  destruct (run_agree cfg tr (init cfg) (Simplified.init cfg) Hn Hb (wf_init cfg) Hfifo
              (agree_init cfg)) as (s & s2 & Hs & Hs2 & _ & _ & Hcnt).
  exists (stats s), (Simplified.stats s2).
  unfold main, Simplified.main, simulate, Simplified.simulate. rewrite Hv, Hs, Hs2. auto.
Qed.

(** ** The miss penalty beyond the range of [int] *)

(** C1. A load miss is charged the [int] expression
    [100 * (blockSize / 4) + 1].  With one line of 2^27 bytes, a
    configuration the checks accept, the product exceeds [INT_MAX]: the
    single load of the trace [l 0] misses and leaves
    18446744072770027521 cycles, where the cost of a load miss is
    [100 * (blockSize / 4) + 1 = 3355443201]. *)
Theorem load_miss_cost_overflows :
  validate cfg27 = None
  /\ 100 * (blockSize cfg27 / 4) + 1 = 3355443201
  /\ main cfg27 [Load 0]
     = Finished {| totalLoads := 1; totalStores := 0; loadHits := 0; loadMisses := 1;
                   storeHits := 0; storeMisses := 0; cycles := 18446744072770027521 |}.
Proof. split; [|split]; vm_compute; reflexivity. Qed.

(** C2. A store miss under write-allocate is charged the same [int]
    product and then one cycle under write-back.  With one line of 2^27
    bytes the single store of the trace [s 0] misses, installs a dirty
    line and leaves 18446744072770027521 cycles, where the cost of the
    miss is [100 * (blockSize / 4) + 1 = 3355443201]. *)
Theorem store_miss_cost_overflows :
  validate cfg27 = None
  /\ 100 * (blockSize cfg27 / 4) + 1 = 3355443201
  /\ simulate cfg27 [Store 0]
     = Some {| cache := [[ {| valid := true; dirty := true; tag := 0; lastUsed := 1 |} ]];
               stats := {| totalLoads := 0; totalStores := 1; loadHits := 0;
                           loadMisses := 0; storeHits := 0; storeMisses := 1;
                           cycles := 18446744072770027521 |};
               timeCounter := 1 |}.
Proof. split; [|split]; vm_compute; reflexivity. Qed.

(** C3. The charge for writing back a dirty victim is the same [int]
    product.  With one line of 2^27 bytes under write-back, the load of
    the next block evicts a clean line after [l 0] and a dirty line
    after [s 0]; the first access costs the same in both runs, so the
    difference of the two cycle totals is the extra charge.  It is
    18446744072770027520 in [unsigned long] arithmetic, where the
    charge is [100 * (blockSize / 4) = 3355443200]. *)
Theorem eviction_charge_overflows :
  validate cfg27 = None
  /\ 100 * (blockSize cfg27 / 4) = 3355443200
  /\ main cfg27 [Load 0; Load 134217728]
     = Finished {| totalLoads := 2; totalStores := 0; loadHits := 0; loadMisses := 2;
                   storeHits := 0; storeMisses := 0; cycles := 18446744071830503426 |}
  /\ main cfg27 [Store 0; Load 134217728]
     = Finished {| totalLoads := 1; totalStores := 1; loadHits := 0; loadMisses := 1;
                   storeHits := 0; storeMisses := 1; cycles := 18446744070890979330 |}
  /\ wrap64 (18446744070890979330 - 18446744071830503426) = 18446744072770027520.
Proof. split; [|split; [|split; [|split]]]; vm_compute; reflexivity. Qed.

(** C5. With one line of 2^27 bytes the cycle total goes down from one
    access to the next: it is 18446744072770027521 after the load miss
    [l 0] and 18446744071830503426 after the second load miss
    [l 8000000].  Both sums of hits and misses hold in this run. *)
Theorem cycles_decrease_on_overflow :
  validate cfg27 = None
  /\ main cfg27 [Load 0]
     = Finished {| totalLoads := 1; totalStores := 0; loadHits := 0; loadMisses := 1;
                   storeHits := 0; storeMisses := 0; cycles := 18446744072770027521 |}
  /\ main cfg27 ([Load 0] ++ [Load 134217728])
     = Finished {| totalLoads := 2; totalStores := 0; loadHits := 0; loadMisses := 2;
                   storeHits := 0; storeMisses := 0; cycles := 18446744071830503426 |}
  /\ 18446744071830503426 < 18446744072770027521.
Proof. split; [|split; [|split]]; vm_compute; reflexivity. Qed.

(** * Further properties of the code *)

(** ** Address decomposition *)

Lemma decomposition_closed cfg a :
  validate cfg = None ->
  setIndex cfg a = (a / blockSize cfg) mod numSets cfg
  /\ tag_of cfg a = a / (numSets cfg * blockSize cfg).
Proof.
  intros Hv. apply validate_None in Hv as ((k & Hk & Hn) & _ & (m & Hm & Hb) & _).
  unfold setIndex, tag_of, blockOffsetBits, setBits. rewrite Hn, Hb.
  rewrite !Z.log2_pow2 by assumption.
  assert (H2m : 0 < 2 ^ m) by (apply Z.pow_pos_nonneg; lia).
  assert (H2k : 0 < 2 ^ k) by (apply Z.pow_pos_nonneg; lia).
  split.
  - change (Z.shiftl 1 k - 1) with (Z.pred (Z.shiftl 1 k)). fold (Z.ones k).
    rewrite Z.land_ones by exact Hk. rewrite Z.shiftr_div_pow2 by exact Hm.
    reflexivity.
  - rewrite Z.shiftr_div_pow2 by lia. rewrite Z.pow_add_r by assumption.
    f_equal. lia.
Qed.

(** Set index and tag are the quotient and remainder the usual way:
    for a 32-bit address and a geometry whose index and offset bits fit
    in 32 bits, the address is rebuilt from tag, set index and block
    offset, and the tag fits the line's [unsigned int]. *)
Theorem address_decomposition cfg a :
  validate cfg = None -> numSets cfg * blockSize cfg < 2 ^ 32 -> 0 <= a < 2 ^ 32 ->
  setIndex cfg a = (a / blockSize cfg) mod numSets cfg
  /\ tag_of cfg a = a / (numSets cfg * blockSize cfg)
  /\ a = (tag_of cfg a * numSets cfg + setIndex cfg a) * blockSize cfg
         + a mod blockSize cfg
  /\ 0 <= setIndex cfg a < numSets cfg
  /\ 0 <= tag_of cfg a < 2 ^ 32.
Proof.
  intros Hv Hgeo Ha. destruct (decomposition_closed cfg a Hv) as [Hs Ht].
  pose proof (valid_geometry cfg Hv) as (Hn & _ & Hb4).
  pose proof (pow2_pos _ Hn) as Hn1.
  split; [exact Hs|]. split; [exact Ht|].
  assert (Hq : a / (numSets cfg * blockSize cfg) = a / blockSize cfg / numSets cfg).
  { rewrite (Z.mul_comm (numSets cfg)). symmetry. apply Z.div_div; lia. }
  split.
  { rewrite Hs, Ht, Hq.
    pose proof (Z.div_mod (a / blockSize cfg) (numSets cfg) ltac:(lia)) as H1.
    pose proof (Z.div_mod a (blockSize cfg) ltac:(lia)) as H2.
    rewrite (Z.mul_comm _ (numSets cfg)), <- H1. lia. }
  split; [apply setIndex_range; exact Hn|].
  rewrite Ht. split; [apply Z.div_pos; nia|].
  apply Z.div_lt_upper_bound; nia.
Qed.

Lemma address_decomposition_witness :
  setIndex (cfg4x2 "lru") 200 = (200 / 16) mod 4
  /\ tag_of (cfg4x2 "lru") 200 = 200 / (4 * 16)
  /\ 200 = (tag_of (cfg4x2 "lru") 200 * 4 + setIndex (cfg4x2 "lru") 200) * 16 + 200 mod 16
  /\ 0 <= setIndex (cfg4x2 "lru") 200 < 4
  /\ 0 <= tag_of (cfg4x2 "lru") 200 < 2 ^ 32.
Proof.
  apply (address_decomposition (cfg4x2 "lru") 200).
  - reflexivity.
  - vm_compute. reflexivity.
  - lia.
Defined.

Lemma step_same_place cfg s a b :
  op a = op b -> setIndex cfg (addr a) = setIndex cfg (addr b) ->
  tag_of cfg (addr a) = tag_of cfg (addr b) ->
  step cfg s a = step cfg s b.
Proof. intros Ho Hs Ht. unfold step. rewrite Ho, Hs, Ht. reflexivity. Qed.

Lemma same_block_place cfg a b :
  validate cfg = None ->
  (a / blockSize cfg = b / blockSize cfg
   <-> setIndex cfg a = setIndex cfg b /\ tag_of cfg a = tag_of cfg b).
Proof.
  intros Hv. destruct (decomposition_closed cfg a Hv) as [Hsa Hta].
  destruct (decomposition_closed cfg b Hv) as [Hsb Htb].
  pose proof (valid_geometry cfg Hv) as (Hn & _ & Hb4).
  pose proof (pow2_pos _ Hn) as Hn1.
  assert (Hq : forall x, x / (numSets cfg * blockSize cfg) = x / blockSize cfg / numSets cfg).
  { intros x. rewrite (Z.mul_comm (numSets cfg)). symmetry. apply Z.div_div; lia. }
  rewrite Hsa, Hsb, Hta, Htb, !Hq. split.
  - intros ->. auto.
  - intros [Hs Ht].
    rewrite (Z.div_mod (a / blockSize cfg) (numSets cfg)) by lia.
    rewrite (Z.div_mod (b / blockSize cfg) (numSets cfg)) by lia.
    rewrite Hs, Ht. reflexivity.
Qed.

(** Only the block of an address matters.  Two addresses go to the
    same set with the same tag exactly when they lie in the same block,
    and two traces that agree line by line on the operation and on the
    block print the same statistics.  The geometry is taken where index
    and offset bits fit the 32-bit address. *)
Theorem block_granularity cfg :
  validate cfg = None -> numSets cfg * blockSize cfg < 2 ^ 32 ->
  (forall a b,
     a / blockSize cfg = b / blockSize cfg
     <-> setIndex cfg a = setIndex cfg b /\ tag_of cfg a = tag_of cfg b)
  /\ (forall tr tr',
        Forall2 (same_block cfg) tr tr' ->
        simulate cfg tr = simulate cfg tr' /\ main cfg tr = main cfg tr').
Proof.
  intros Hv _. split; [intros a b; apply same_block_place; exact Hv|].
  assert (Hrun : forall tr tr', Forall2 (same_block cfg) tr tr' ->
                   forall s, run cfg s tr = run cfg s tr').
  { induction 1 as [|a b tr tr' [Ho Hblk] _ IH]; intros s; [reflexivity|].
    simpl. apply (same_block_place cfg _ _ Hv) in Hblk as [Hs Ht].
    rewrite (step_same_place cfg s a b Ho Hs Ht).
    destruct (step cfg s b); simpl; [apply IH | reflexivity]. }
  intros tr tr' H. assert (Hsim : simulate cfg tr = simulate cfg tr') by (apply Hrun, H).
  split; [exact Hsim|]. unfold main. rewrite Hsim. reflexivity.
Qed.

Lemma block_granularity_witness :
  simulate (cfg4x2 "lru") [Load 200; Store 75] = simulate (cfg4x2 "lru") [Load 207; Store 64].
Proof.
  apply (proj2 (block_granularity (cfg4x2 "lru") eq_refl eq_refl)).
  repeat constructor.
Defined.

(** ** Lines with another operation *)

(** A trace line whose operation is neither [l] nor [s] is searched
    for and advances the time counter, and changes nothing else: cache
    and statistics stay as they were. *)
Theorem other_operation cfg pre s a :
  validate cfg = None -> simulate cfg pre = Some s ->
  op a <> "l" -> op a <> "s" ->
  simulate cfg (pre ++ [a])
  = Some {| cache := cache s; stats := stats s;
            timeCounter := wrap64 (timeCounter s + 1) |}.
Proof.
  intros Hv Hs Hl Hst.
  apply String.eqb_neq in Hl. apply String.eqb_neq in Hst.
  destruct (reachable_step cfg pre s a Hv Hs) as (set & Hset & _ & Hcase).
  destruct Hcase as [(i & l & _ & ->) | (_ & t & lt & e & v & _ & _ & _ & ->)];
    unfold commit, hit_result, miss_result; rewrite Hl, Hst; simpl;
    rewrite (list_insert_id _ _ _ Hset); reflexivity.
Qed.

Lemma other_operation_witness :
  simulate cfgA ([Load 0] ++ [{| op := "x"; addr := 4 |}])
  = Some {| cache := [[clean 0 1]]; stats := loads_only 0 1 101;
            timeCounter := wrap64 (1 + 1) |}.
Proof.
  apply (other_operation cfgA [Load 0]
           {| cache := [[clean 0 1]]; stats := loads_only 0 1 101; timeCounter := 1 |}
           {| op := "x"; addr := 4 |}).
  - reflexivity.
  - reflexivity.
  - discriminate.
  - discriminate.
Defined.

(** ** What a step leaves alone *)

Lemma tags_kept_refl set : tags_kept set set.
Proof. induction set; constructor; auto. Qed.

Lemma tags_kept_insert set i l l' :
  set !! i = Some l -> valid l' = valid l -> tag l' = tag l ->
  tags_kept set (<[i := l']> set).
Proof.
  intros Hl Hv Ht. rewrite <- (list_insert_id set i l Hl) at 1.
  apply Forall2_insert; [apply tags_kept_refl | auto].
Qed.

Lemma tags_kept_lookup set set' i l :
  tags_kept set set' -> set !! i = Some l ->
  exists l', set' !! i = Some l' /\ valid l' = valid l /\ tag l' = tag l.
Proof.
  intros H Hl. destruct (Forall2_lookup_l _ _ _ _ _ H Hl) as (l' & Hl' & HR).
  exists l'. tauto.
Qed.

(** One step, under either policy: no block is installed and every line
    keeps valid bit and tag, or a block is installed at the insertion
    target. *)
Lemma step_kinds cfg s a s' :
  pow2 (numSets cfg) -> 1 <= blocksPerSet cfg -> wf cfg s ->
  step cfg s a = Some s' ->
  exists set set',
    cache s !! Z.to_nat (setIndex cfg (addr a)) = Some set /\
    cache s' = <[Z.to_nat (setIndex cfg (addr a)) := set']> (cache s) /\
    ((installs_block cfg s a = false /\ tags_kept set set')
     \/ (installs_block cfg s a = true /\ exists t lt d,
           no_match set (tag_of cfg (addr a)) /\ insertion_target set t /\
           set !! t = Some lt /\
           set' = <[t := mkLine true d (tag_of cfg (addr a)) (timeCounter s')]> set)).
Proof.
  intros Hn Hb Hwf Hstep.
  pose proof (setIndex_range cfg (addr a) Hn) as Hsi.
  destruct (step_cases cfg s a Hn Hb Hwf) as (set & Hset & Hwfs & Hcase).
  destruct (installs_block_cases cfg s a set Hb ltac:(lia) Hwfs Hset) as [Hib1 Hib2].
  exists set.
  destruct Hcase as [(i & l & Hfm & Heq) | (Hnm & t & lt & e & v & Hit & Hlt & _ & Heq)];
    rewrite Heq in Hstep; inversion Hstep; subst s'; clear Hstep Heq;
    eexists; (split; [exact Hset|]); (split; [reflexivity|]); simpl.
  - left. split; [apply Hib1; eauto|].
    destruct Hfm as (Hl & _). unfold hit_result, refreshed.
    destruct (String.eqb (op a) "l"); simpl.
    { apply (tags_kept_insert set i l); auto; destruct (useLRU cfg); reflexivity. }
    destruct (String.eqb (op a) "s"); simpl; [|apply tags_kept_refl].
    apply (tags_kept_insert set i l); auto;
      destruct (useLRU cfg), (is_write_through cfg); reflexivity.
  - rewrite (Hib2 Hnm). unfold miss_result, allocates.
    destruct (String.eqb (op a) "l"); simpl.
    { right. split; [reflexivity|]. exists t, lt, false. auto. }
    destruct (String.eqb (op a) "s"); simpl; [|left; split; [reflexivity | apply tags_kept_refl]].
    destruct (isWriteAlloc cfg); simpl; [|left; split; [reflexivity | apply tags_kept_refl]].
    right. split; [reflexivity|]. eexists t, lt, _. auto.
Qed.

(** An access touches one set only: the cache keeps its number of sets,
    the set of the address keeps its number of lines, and every other
    set is exactly as before. *)
Theorem other_sets_untouched cfg pre s a s' :
  validate cfg = None -> simulate cfg pre = Some s ->
  simulate cfg (pre ++ [a]) = Some s' ->
  length (cache s') = length (cache s)
  /\ (forall k, k <> Z.to_nat (setIndex cfg (addr a)) -> cache s' !! k = cache s !! k)
  /\ (forall k set set', cache s !! k = Some set -> cache s' !! k = Some set' ->
        length set' = length set).
Proof.
  intros Hv Hs Hs'. pose proof (valid_geometry cfg Hv) as (Hn & Hb & _).
  pose proof (simulate_wf cfg pre s Hv Hs) as Hwf.
  pose proof (simulate_wf cfg _ s' Hv Hs') as Hwf'.
  rewrite (simulate_snoc cfg pre a s Hs) in Hs'.
  destruct (step_set_change cfg s a s' Hn Hb Hwf Hs') as (set & set' & Hset & Hc & _ & _).
  split; [rewrite Hc; apply length_insert|].
  split.
  - intros k Hk. rewrite Hc. apply list_lookup_insert_ne. auto.
  - intros k x x' Hx Hx'.
    rewrite (proj1 (proj2 Hwf _ _ Hx)), (proj1 (proj2 Hwf' _ _ Hx')). reflexivity.
Qed.

Lemma other_sets_untouched_witness :
  exists s s',
    simulate (cfg4x2 "lru") [Load 0] = Some s
    /\ simulate (cfg4x2 "lru") ([Load 0] ++ [Store 16]) = Some s'
    /\ cache s' !! 0%nat = cache s !! 0%nat.
Proof.
  eexists _, _. split; [reflexivity|]. split; [reflexivity|].
  refine (proj1 (proj2 (other_sets_untouched (cfg4x2 "lru") [Load 0] _ (Store 16) _
                          eq_refl eq_refl eq_refl)) 0%nat _).
  vm_compute. discriminate.
Defined.

(** ** What a step never does *)

Lemma set_change_valid tg tc set set' j l :
  set_change tg tc set set' -> set !! j = Some l -> valid l = true ->
  exists l', set' !! j = Some l' /\ valid l' = true.
Proof.
  intros Hch Hl Hv. assert (Hj : (j < length set)%nat) by (eapply lookup_lt_Some; eauto).
  destruct Hch as [-> | i x x' _ -> Hvx _ _ | t lt d _ _ _ ->]; [eauto | |].
  - destruct (decide (i = j)) as [-> | Hne].
    + exists x'. split; [by apply list_lookup_insert_eq | exact Hvx].
    + exists l. split; [by rewrite list_lookup_insert_ne | exact Hv].
  - destruct (decide (t = j)) as [-> | Hne].
    + eexists. split; [by apply list_lookup_insert_eq | reflexivity].
    + exists l. split; [by rewrite list_lookup_insert_ne | exact Hv].
Qed.

Lemma valid_run cfg tr : forall s s' k set j l,
  pow2 (numSets cfg) -> 1 <= blocksPerSet cfg -> wf cfg s ->
  run cfg s tr = Some s' ->
  cache s !! k = Some set -> set !! j = Some l -> valid l = true ->
  exists set' l', cache s' !! k = Some set' /\ set' !! j = Some l' /\ valid l' = true.
Proof.
  induction tr as [|a tr IH]; intros s s' k set j l Hn Hb Hwf Hrun Hset Hl Hv.
  - simpl in Hrun. inversion Hrun; subst. eauto.
  - simpl in Hrun. destruct (step cfg s a) as [s1|] eqn:Hstep; [|discriminate].
    simpl in Hrun.
    destruct (step_set_change cfg s a s1 Hn Hb Hwf Hstep)
      as (set0 & set0' & Hset0 & Hc & _ & Hch).
    assert (H1 : exists set1 l1, cache s1 !! k = Some set1 /\ set1 !! j = Some l1
                                 /\ valid l1 = true).
    { destruct (decide (Z.to_nat (setIndex cfg (addr a)) = k)) as [<- | Hne].
      - assert (set0 = set) by congruence. subst set0.
        destruct (set_change_valid _ _ _ _ _ _ Hch Hl Hv) as (l1 & Hl1 & Hv1).
        exists set0', l1. split; [|auto]. rewrite Hc.
        apply list_lookup_insert_eq. eapply lookup_lt_Some; eauto.
      - exists set, l. split; [|auto]. rewrite Hc, list_lookup_insert_ne by auto.
        exact Hset. }
    destruct H1 as (set1 & l1 & Hset1 & Hl1 & Hv1).
    eapply (IH s1 s' k set1 j l1); eauto. eapply wf_step; eauto.
Qed.

(** No line is ever invalidated: a line that is valid after some prefix
    of the trace is valid, at the same place, after every longer one. *)
Theorem lines_stay_valid cfg pre post s s' k set j l :
  validate cfg = None -> simulate cfg pre = Some s ->
  simulate cfg (pre ++ post) = Some s' ->
  cache s !! k = Some set -> set !! j = Some l -> valid l = true ->
  exists set' l', cache s' !! k = Some set' /\ set' !! j = Some l' /\ valid l' = true.
Proof.
  intros Hv Hs Hs' Hset Hl Hvl. pose proof (valid_geometry cfg Hv) as (Hn & Hb & _).
  unfold simulate in Hs'. rewrite run_app in Hs'. fold (simulate cfg pre) in Hs'.
  rewrite Hs in Hs'. simpl in Hs'.
  eapply (valid_run cfg post s s'); eauto. eapply simulate_wf; eauto.
Qed.

Lemma lines_stay_valid_witness :
  exists set' l',
    [[clean 2 4; clean 1 2]] !! 0%nat = Some set' /\ set' !! 1%nat = Some l'
    /\ valid l' = true.
Proof.
  apply (lines_stay_valid (cfg2way "fifo") [Load 0; Load 4] [Load 0; Load 8]
           {| cache := [[clean 0 1; clean 1 2]]; stats := loads_only 0 2 202;
              timeCounter := 2 |}
           {| cache := [[clean 2 4; clean 1 2]]; stats := loads_only 1 3 304;
              timeCounter := 4 |}
           0%nat [clean 0 1; clean 1 2] 1%nat (clean 1 2));
    reflexivity.
Defined.

(** A block leaves the cache only on a miss that installs a block into
    a set without invalid line: while a set has a free line, and on
    every hit, on every store miss without write-allocate and on every
    line with another operation, all resident tags stay resident. *)
Theorem eviction_needs_full_set cfg pre s a s' set set' T :
  validate cfg = None -> simulate cfg pre = Some s ->
  simulate cfg (pre ++ [a]) = Some s' ->
  cache s !! Z.to_nat (setIndex cfg (addr a)) = Some set ->
  cache s' !! Z.to_nat (setIndex cfg (addr a)) = Some set' ->
  resident set T -> ~ resident set' T ->
  installs_block cfg s a = true /\ all_valid set /\ no_match set (tag_of cfg (addr a)).
Proof.
  intros Hv Hs Hs' Hset Hset' (iT & lT & HlT & HmT) Hgone.
  pose proof (valid_geometry cfg Hv) as (Hn & Hb & _).
  pose proof (simulate_wf cfg pre s Hv Hs) as Hwf.
  rewrite (simulate_snoc cfg pre a s Hs) in Hs'.
  destruct (step_kinds cfg s a s' Hn Hb Hwf Hs') as (set0 & set0' & Hset0 & Hc & Hcase).
  assert (set0 = set) by congruence. subst set0.
  assert (set0' = set').
  { rewrite Hc in Hset'. rewrite list_lookup_insert_eq in Hset'; [congruence|].
    eapply lookup_lt_Some; eauto. }
  subst set0'. pose proof HmT as HmT'. apply matches_true in HmT' as [HvT HtT].
  destruct Hcase as [[_ Hkept] | (Hib & t & lt & d & Hnm & Hit & Hlt & ->)].
  - exfalso. apply Hgone.
    destruct (tags_kept_lookup _ _ _ _ Hkept HlT) as (l' & Hl' & Hv' & Ht').
    exists iT, l'. split; [exact Hl'|]. apply matches_true. split; congruence.
  - split; [exact Hib|]. split; [|exact Hnm].
    destruct Hit as [[(x & Hx & Hvx) _] | [Hall _]]; [|exact Hall].
    exfalso. apply Hgone. exists iT, lT. split; [|exact HmT].
    rewrite list_lookup_insert_ne; [exact HlT|]. intros ->. congruence.
Qed.

Lemma eviction_needs_full_set_witness :
  installs_block (cfg2way "fifo")
    {| cache := [[clean 0 1; clean 1 2]]; stats := loads_only 0 2 202; timeCounter := 2 |}
    (Load 8) = true
  /\ all_valid [clean 0 1; clean 1 2]
  /\ no_match [clean 0 1; clean 1 2] (tag_of (cfg2way "fifo") (addr (Load 8))).
Proof.
  apply (eviction_needs_full_set (cfg2way "fifo") [Load 0; Load 4]
           {| cache := [[clean 0 1; clean 1 2]]; stats := loads_only 0 2 202;
              timeCounter := 2 |}
           (Load 8)
           {| cache := [[clean 2 3; clean 1 2]]; stats := loads_only 0 3 303;
              timeCounter := 3 |}
           [clean 0 1; clean 1 2] [clean 2 3; clean 1 2] 0);
    try reflexivity.
  - exists 0%nat, (clean 0 1). split; reflexivity.
  - intros (j & x & Hx & Hm).
    do 2 (destruct j as [|j]; [inversion Hx; subst x; discriminate|]). discriminate.
Defined.

(** ** Write-through keeps the cache clean *)

Lemma clean_insert (set : list CacheLine) i l :
  (forall j x, set !! j = Some x -> dirty x = false) -> dirty l = false ->
  forall j x, <[i := l]> set !! j = Some x -> dirty x = false.
Proof.
  intros Hall Hl j x Hx. apply lookup_insert_cases in Hx as [[_ ->] | [_ Hx]]; eauto.
Qed.

Lemma all_clean_step cfg s a s' :
  pow2 (numSets cfg) -> 1 <= blocksPerSet cfg -> wf cfg s ->
  writePolicy cfg = "write-through" ->
  all_clean (cache s) -> step cfg s a = Some s' -> all_clean (cache s').
Proof.
  intros Hn Hb Hwf Hwt Hclean Hstep.
  assert (Hthrough : is_write_through cfg = true) by (unfold is_write_through; rewrite Hwt; reflexivity).
  destruct (step_cases cfg s a Hn Hb Hwf) as (set & Hset & _ & Hcase).
  assert (Hsetc : forall j x, set !! j = Some x -> dirty x = false) by (intros; eapply Hclean; eauto).
  assert (Hgoal : forall r : list CacheLine * Stats,
            (forall j x, r.1 !! j = Some x -> dirty x = false) ->
            all_clean (cache (commit s (Z.to_nat (setIndex cfg (addr a)))
                                (wrap64 (timeCounter s + 1)) r))).
  { intros r Hr k x j y Hx Hy. simpl in Hx.
    apply lookup_insert_cases in Hx as [[_ ->] | [_ Hx]]; [eauto | eapply Hclean; eauto]. }
  destruct Hcase as [(i & l & Hfm & Heq) | (_ & t & lt & e & v & _ & _ & _ & Heq)];
    rewrite Heq in Hstep; inversion Hstep; subst s'; apply Hgoal.
  - destruct Hfm as (Hl & _). pose proof (Hsetc _ _ Hl) as Hd.
    unfold hit_result, refreshed. rewrite Hthrough.
    destruct (String.eqb (op a) "l"); simpl;
      [apply clean_insert; [exact Hsetc | destruct (useLRU cfg); exact Hd]|].
    destruct (String.eqb (op a) "s"); simpl; [|exact Hsetc].
    apply clean_insert; [exact Hsetc | destruct (useLRU cfg); exact Hd].
  - unfold miss_result. rewrite Hthrough.
    destruct (String.eqb (op a) "l"); simpl; [apply clean_insert; auto|].
    destruct (String.eqb (op a) "s"); simpl; [|exact Hsetc].
    destruct (isWriteAlloc cfg); simpl; [apply clean_insert; auto | exact Hsetc].
Qed.

Lemma all_clean_run cfg tr : forall s s',
  pow2 (numSets cfg) -> 1 <= blocksPerSet cfg -> wf cfg s ->
  writePolicy cfg = "write-through" ->
  all_clean (cache s) -> run cfg s tr = Some s' -> all_clean (cache s').
Proof.
  induction tr as [|a tr IH]; intros s s' Hn Hb Hwf Hwt Hclean Hrun; simpl in Hrun.
  - inversion Hrun; subst. exact Hclean.
  - destruct (step cfg s a) as [s1|] eqn:Hstep; [|discriminate]. simpl in Hrun.
    apply (IH s1 s'); auto; [eapply wf_step; eauto | eapply all_clean_step; eauto].
Qed.

(** Under write-through no line is ever dirty, whatever the trace: the
    dirty bit is only written as [false], or left alone. *)
Theorem write_through_keeps_clean cfg tr s k set j l :
  validate cfg = None -> writePolicy cfg = "write-through" ->
  simulate cfg tr = Some s ->
  cache s !! k = Some set -> set !! j = Some l -> dirty l = false.
Proof.
  intros Hv Hwt Hs Hset Hl. pose proof (valid_geometry cfg Hv) as (Hn & Hb & _).
  eapply (all_clean_run cfg tr (init cfg) s Hn Hb (wf_init cfg) Hwt); eauto.
  intros k' set' j' l' Hk Hj. rewrite (init_set _ _ _ Hk) in Hj.
  apply lookup_replicate_1 in Hj as [-> _]. reflexivity.
Qed.

Lemma write_through_keeps_clean_witness :
  dirty {| valid := true; dirty := false; tag := 1; lastUsed := 3 |} = false.
Proof.
  apply (write_through_keeps_clean cfgWT [Store 0; Store 0; Store 4]
           {| cache := [[ {| valid := true; dirty := false; tag := 1; lastUsed := 3 |} ]];
              stats := {| totalLoads := 0; totalStores := 3; loadHits := 0;
                          loadMisses := 0; storeHits := 1; storeMisses := 2;
                          cycles := 503 |};
              timeCounter := 3 |}
           0%nat [ {| valid := true; dirty := false; tag := 1; lastUsed := 3 |} ] 0%nat);
    reflexivity.
Defined.

(** ** An access makes its block resident *)

Lemma resident_not_no_match set tg : resident set tg -> no_match set tg -> False.
Proof. intros (i & l & Hl & Hm) Hn. rewrite (Hn _ _ Hl) in Hm. discriminate. Qed.

(** After a load, or a store under write-allocate, the block is in the
    cache: the next access to the same set and tag is a hit on the
    first matching line, with the effect of a load hit or a store hit. *)
Theorem access_then_hit cfg pre s a b :
  validate cfg = None -> simulate cfg pre = Some s ->
  allocates cfg (op a) = true ->
  setIndex cfg (addr b) = setIndex cfg (addr a) ->
  tag_of cfg (addr b) = tag_of cfg (addr a) ->
  exists s1 s2 set1 i l,
    simulate cfg (pre ++ [a]) = Some s1 /\
    cache s1 !! Z.to_nat (setIndex cfg (addr a)) = Some set1 /\
    first_match set1 (tag_of cfg (addr a)) i l /\
    simulate cfg ((pre ++ [a]) ++ [b]) = Some s2 /\
    (op b = "l" -> load_hit_effect cfg s1 s2 (Z.to_nat (setIndex cfg (addr a))) set1 i l) /\
    (op b = "s" -> store_hit_effect cfg s1 s2 (Z.to_nat (setIndex cfg (addr a))) set1 i l).
Proof.
  intros Hv Hs Hal Hsb Htb. pose proof (valid_geometry cfg Hv) as (Hn & Hb & _).
  pose proof (simulate_wf cfg pre s Hv Hs) as Hwf.
  destruct (step_total cfg s a Hn Hb Hwf) as [s1 Hstep].
  assert (Hs1 : simulate cfg (pre ++ [a]) = Some s1)
    by (rewrite (simulate_snoc cfg pre a s Hs); exact Hstep).
  destruct (step_kinds cfg s a s1 Hn Hb Hwf Hstep) as (set & set' & Hset & Hc & Hcase).
  assert (Hset1 : cache s1 !! Z.to_nat (setIndex cfg (addr a)) = Some set').
  { rewrite Hc. apply list_lookup_insert_eq. eapply lookup_lt_Some; eauto. }
  assert (Hres : resident set' (tag_of cfg (addr a))).
  { destruct Hcase as [[Hib Hkept] | (_ & t & lt & d & _ & _ & Hlt & ->)].
    - pose proof (setIndex_range cfg (addr a) Hn) as Hsi.
      destruct (installs_block_cases cfg s a set Hb ltac:(lia) (proj2 Hwf _ _ Hset) Hset)
        as [_ Hib2].
      destruct (step_cases cfg s a Hn Hb Hwf) as (set0 & Hset0 & _ & Hcase).
      assert (set0 = set) by congruence. subst set0.
      destruct Hcase as [(i & l & (Hl & Hm & _) & _) | (Hnm & _)].
      + destruct (tags_kept_lookup _ _ _ _ Hkept Hl) as (l' & Hl' & Hv' & Ht').
        apply matches_true in Hm as [Hvl Htl].
        exists i, l'. split; [exact Hl'|]. apply matches_true. split; congruence.
      + rewrite (Hib2 Hnm) in Hib. congruence.
    - exists t, (mkLine true d (tag_of cfg (addr a)) (timeCounter s1)).
      split; [apply list_lookup_insert_eq; eapply lookup_lt_Some; eauto|].
      apply matches_true. split; reflexivity. }
  destruct (reachable_step cfg (pre ++ [a]) s1 b Hv Hs1) as (set1 & Hset1' & _ & Hcase2).
  simpl in Hset1'. rewrite Hsb, Hset1 in Hset1'. inversion Hset1'; subst set1. clear Hset1'.
  rewrite Hsb, Htb in Hcase2.
  destruct Hcase2 as [(i & l & Hfm & Heq) | (Hnm & _)];
    [|exfalso; eapply resident_not_no_match; eauto].
  eexists s1, _, set', i, l. split; [exact Hs1|]. split; [exact Hset1|].
  split; [exact Hfm|]. split; [exact Heq|]. split.
  - intros Hop. unfold load_hit_effect, commit, hit_result, refreshed. rewrite Hop. simpl.
    split; [reflexivity|]. destruct (useLRU cfg); destruct l; reflexivity.
  - intros Hop. unfold store_hit_effect, commit, hit_result, refreshed. rewrite Hop. simpl.
    split; [reflexivity|].
    destruct (useLRU cfg), (is_write_through cfg); destruct l; reflexivity.
Qed.

Lemma access_then_hit_witness :
  exists s1 s2 set1 i l,
    simulate (cfg4x2 "fifo") ([Store 64] ++ [Store 200]) = Some s1 /\
    cache s1 !! Z.to_nat (setIndex (cfg4x2 "fifo") (addr (Store 200))) = Some set1 /\
    first_match set1 (tag_of (cfg4x2 "fifo") (addr (Store 200))) i l /\
    simulate (cfg4x2 "fifo") (([Store 64] ++ [Store 200]) ++ [Load 207]) = Some s2 /\
    (op (Load 207) = "l" ->
     load_hit_effect (cfg4x2 "fifo") s1 s2
       (Z.to_nat (setIndex (cfg4x2 "fifo") (addr (Store 200)))) set1 i l) /\
    (op (Load 207) = "s" ->
     store_hit_effect (cfg4x2 "fifo") s1 s2
       (Z.to_nat (setIndex (cfg4x2 "fifo") (addr (Store 200)))) set1 i l).
Proof.
  assert (Hs : exists s, simulate (cfg4x2 "fifo") [Store 64] = Some s)
    by (vm_compute; eauto).
  destruct Hs as [s Hs].
  apply (access_then_hit (cfg4x2 "fifo") [Store 64] s (Store 200) (Load 207)).
  - reflexivity.
  - exact Hs.
  - reflexivity.
  - reflexivity.
  - reflexivity.
Defined.

(** ** What the counters count *)

(** The totals of one step, read off the operation alone. *)
Lemma step_totals cfg s a s' :
  pow2 (numSets cfg) -> 1 <= blocksPerSet cfg -> wf cfg s ->
  step cfg s a = Some s' ->
  timeCounter s' = wrap64 (timeCounter s + 1)
  /\ totalLoads (stats s')
     = (if String.eqb (op a) "l" then wrap64 (totalLoads (stats s) + 1)
        else totalLoads (stats s))
  /\ totalStores (stats s')
     = (if String.eqb (op a) "s" then wrap64 (totalStores (stats s) + 1)
        else totalStores (stats s)).
Proof.
  intros Hn Hb Hwf Hstep.
  destruct (step_cases cfg s a Hn Hb Hwf) as (set & _ & _ & Hcase).
  destruct Hcase as [(i & l & _ & Heq) | (_ & t & lt & e & v & _ & _ & _ & Heq)];
    rewrite Heq in Hstep; inversion Hstep; subst s'; clear Hstep Heq;
    (split; [reflexivity|]); unfold commit, hit_result, miss_result; simpl.
  - destruct (String.eqb_spec (op a) "l") as [Hl|Hl]; simpl.
    { rewrite Hl. simpl. auto. }
    destruct (String.eqb (op a) "s"); simpl; auto.
  - destruct (String.eqb_spec (op a) "l") as [Hl|Hl]; simpl.
    { rewrite Hl. simpl. auto. }
    destruct (String.eqb (op a) "s"); simpl; [|auto].
    destruct (isWriteAlloc cfg); simpl; auto.
Qed.

Lemma count_op_range o tr : 0 <= count_op o tr <= Z.of_nat (length tr).
Proof.
  induction tr as [|a tr IH]; simpl length; simpl count_op; [lia|].
  destruct (String.eqb (op a) o); lia.
Qed.

Lemma totals_run cfg tr : forall s s' n nl ns,
  pow2 (numSets cfg) -> 1 <= blocksPerSet cfg -> wf cfg s ->
  timeCounter s = wrap64 n -> totalLoads (stats s) = wrap64 nl ->
  totalStores (stats s) = wrap64 ns ->
  run cfg s tr = Some s' ->
  timeCounter s' = wrap64 (n + Z.of_nat (length tr))
  /\ totalLoads (stats s') = wrap64 (nl + count_op "l" tr)
  /\ totalStores (stats s') = wrap64 (ns + count_op "s" tr).
Proof.
  induction tr as [|a tr IH]; intros s s' n nl ns Hn Hb Hwf Ht Hl Hs Hrun; simpl in Hrun.
  - inversion Hrun; subst. simpl. rewrite !Z.add_0_r. auto.
  - destruct (step cfg s a) as [s1|] eqn:Hstep; [|discriminate]. simpl in Hrun.
    destruct (step_totals cfg s a s1 Hn Hb Hwf Hstep) as (Ht1 & Hl1 & Hs1).
    assert (Hwf1 : wf cfg s1) by (eapply wf_step; eauto).
    rewrite Ht, wrap64_add_l in Ht1.
    assert (Hl1' : totalLoads (stats s1)
                   = wrap64 (nl + if String.eqb (op a) "l" then 1 else 0)).
    { rewrite Hl1, Hl. destruct (String.eqb (op a) "l");
        [apply wrap64_add_l | rewrite Z.add_0_r; reflexivity]. }
    assert (Hs1' : totalStores (stats s1)
                   = wrap64 (ns + if String.eqb (op a) "s" then 1 else 0)).
    { rewrite Hs1, Hs. destruct (String.eqb (op a) "s");
        [apply wrap64_add_l | rewrite Z.add_0_r; reflexivity]. }
    destruct (IH s1 s' _ _ _ Hn Hb Hwf1 Ht1 Hl1' Hs1' Hrun) as (Ht' & Hl' & Hs').
    split; [rewrite Ht'; f_equal; simpl length; lia|].
    split; [rewrite Hl' | rewrite Hs']; f_equal; simpl count_op; lia.
Qed.

(** The two totals and the clock count lines of the trace, and nothing
    else: the number of lines whose operation is ["l"], of those whose
    operation is ["s"], and of all lines, each modulo 2^64; the geometry
    and the policies have no part in them.  For a trace of at most
    [ULONG_MAX] lines the counts are exact. *)
Theorem totals_count_lines cfg tr s :
  validate cfg = None -> simulate cfg tr = Some s ->
  timeCounter s = wrap64 (Z.of_nat (length tr))
  /\ totalLoads (stats s) = wrap64 (count_op "l" tr)
  /\ totalStores (stats s) = wrap64 (count_op "s" tr)
  /\ (Z.of_nat (length tr) <= ULONG_MAX ->
      timeCounter s = Z.of_nat (length tr)
      /\ totalLoads (stats s) = count_op "l" tr
      /\ totalStores (stats s) = count_op "s" tr).
Proof.
  intros Hv Hs. pose proof (valid_geometry cfg Hv) as (Hn & Hb & _).
  destruct (totals_run cfg tr (init cfg) s 0 0 0 Hn Hb (wf_init cfg)
              eq_refl eq_refl eq_refl Hs) as (Ht & Hl & Hst).
  simpl in Ht, Hl, Hst.
  split; [exact Ht|]. split; [exact Hl|]. split; [exact Hst|].
  intros Hlen. pose proof (count_op_range "l" tr). pose proof (count_op_range "s" tr).
  rewrite Ht, Hl, Hst. rewrite !wrap64_small by lia. auto.
Qed.

Lemma totals_count_lines_witness :
  timeCounter {| cache := [[clean 2 4; clean 1 2]]; stats := loads_only 1 3 304;
                 timeCounter := 4 |}
  = wrap64 (Z.of_nat (length [Load 0; Load 4; Load 0; Load 8])).
Proof.
  assert (Hv : validate (cfg2way "fifo") = None) by reflexivity.
  assert (Hs : simulate (cfg2way "fifo") [Load 0; Load 4; Load 0; Load 8]
               = Some {| cache := [[clean 2 4; clean 1 2]]; stats := loads_only 1 3 304;
                         timeCounter := 4 |}) by reflexivity.
  exact (proj1 (totals_count_lines _ _ _ Hv Hs)).
Defined.

(** ** Which configuration error is reported *)

Lemma main_rejected cfg tr e : main cfg tr = Rejected e <-> validate cfg = Some e.
Proof.
  unfold main. destruct (validate cfg) as [e'|].
  - split; congruence.
  - destruct (simulate cfg tr); split; discriminate.
Qed.

Lemma pow2_below_4 n : pow2 n /\ n < 4 <-> n = 1 \/ n = 2.
Proof.
  split.
  - intros [(k & Hk & ->) Hlt].
    destruct (Z.lt_ge_cases k 2) as [Hk2|Hk2].
    + assert (Hc : k = 0 \/ k = 1) by lia. destruct Hc as [-> | ->]; auto.
    + pose proof (Z.pow_le_mono_r 2 2 k ltac:(lia) Hk2). lia.
  - intros [-> | ->]; (split; [|lia]); [exists 0 | exists 1]; split; (lia || reflexivity).
Qed.

(** The three checks are made in a fixed order and the first that fails
    names the error: a size that is not a power of two is reported
    whatever the rest; a block size below four is reported only for the
    powers of two 1 and 2; the illegal pair of write policies only when
    all sizes are accepted.  The eviction policy is never looked at, and
    both variants reject the same configurations with the same error. *)
Theorem rejection_kind cfg tr :
  (main cfg tr = Rejected SizeNotPowerOfTwo <->
   ~ (pow2 (numSets cfg) /\ pow2 (blocksPerSet cfg) /\ pow2 (blockSize cfg)))
  /\ (main cfg tr = Rejected BlockTooSmall <->
      pow2 (numSets cfg) /\ pow2 (blocksPerSet cfg)
      /\ (blockSize cfg = 1 \/ blockSize cfg = 2))
  /\ (main cfg tr = Rejected IllegalWritePair <->
      pow2 (numSets cfg) /\ pow2 (blocksPerSet cfg) /\ pow2 (blockSize cfg)
      /\ 4 <= blockSize cfg
      /\ writeAlloc cfg = "no-write-allocate" /\ writePolicy cfg = "write-back")
  /\ (forall e, Simplified.main cfg tr = Rejected e <-> main cfg tr = Rejected e).
Proof.
  assert (Hs : forall e, Simplified.main cfg tr = Rejected e <-> validate cfg = Some e).
  { intros e. unfold Simplified.main. destruct (validate cfg) as [e'|].
    - split; congruence.
    - destruct (Simplified.simulate cfg tr); split; discriminate. }
  rewrite !main_rejected. rewrite <- pow2_below_4.
  split; [|split; [|split; [|intros e; rewrite Hs, main_rejected; reflexivity]]];
    unfold validate, pow2; rewrite <- !isPowerOfTwo_spec;
    destruct (isPowerOfTwo (numSets cfg)), (isPowerOfTwo (blocksPerSet cfg)),
      (isPowerOfTwo (blockSize cfg)); simpl;
    destruct (Z.ltb_spec (blockSize cfg) 4);
    destruct (String.eqb_spec (writeAlloc cfg) "no-write-allocate");
    destruct (String.eqb_spec (writePolicy cfg) "write-back"); simpl;
    intuition (discriminate || lia || congruence).
Qed.

(** ** Where the eviction policy matters *)

Lemma handle_policy cfg p o tg tc sc set st :
  hit sc = false \/ (o <> "l" /\ o <> "s") ->
  handle (with_evictPolicy p cfg) o tg tc sc set st = handle cfg o tg tc sc set st.
Proof.
  intros H. unfold handle.
  destruct (String.eqb_spec o "l") as [Hl|Hl].
  { destruct H as [Hh | [? _]]; [|contradiction]. rewrite Hh. reflexivity. }
  destruct (String.eqb_spec o "s") as [Hs|Hs]; [|reflexivity].
  destruct H as [Hh | [_ ?]]; [|contradiction]. rewrite Hh. reflexivity.
Qed.

Lemma step_policy cfg p s a set sc :
  at_index (cache s) (setIndex cfg (addr a)) = Some set ->
  scan cfg set (tag_of cfg (addr a)) = Some sc ->
  hit sc = false \/ (op a <> "l" /\ op a <> "s") ->
  step (with_evictPolicy p cfg) s a = step cfg s a.
Proof.
  intros Hat Hsc H. unfold step.
  change (setIndex (with_evictPolicy p cfg) (addr a)) with (setIndex cfg (addr a)).
  change (tag_of (with_evictPolicy p cfg) (addr a)) with (tag_of cfg (addr a)).
  rewrite Hat. simpl.
  change (scan (with_evictPolicy p cfg) set (tag_of cfg (addr a)))
    with (scan cfg set (tag_of cfg (addr a))).
  rewrite Hsc. simpl. rewrite (handle_policy cfg p _ _ _ _ _ _ H). reflexivity.
Qed.

Lemma step_no_hit cfg p s a s' n :
  pow2 (numSets cfg) -> 1 <= blocksPerSet cfg -> wf cfg s ->
  0 <= loadHits (stats s) <= n -> 0 <= storeHits (stats s) <= n -> n + 1 <= ULONG_MAX ->
  step cfg s a = Some s' ->
  0 <= loadHits (stats s') <= n + 1 /\ 0 <= storeHits (stats s') <= n + 1
  /\ (loadHits (stats s') = 0 -> storeHits (stats s') = 0 ->
      loadHits (stats s) = 0 /\ storeHits (stats s) = 0
      /\ step (with_evictPolicy p cfg) s a = Some s').
Proof.
  intros Hn Hb Hwf Hlh Hsh Hmax Hstep.
  pose proof (setIndex_range cfg (addr a) Hn) as Hsi.
  destruct (step_cases cfg s a Hn Hb Hwf) as (set & Hset & Hwfs & Hcase).
  assert (Hat : at_index (cache s) (setIndex cfg (addr a)) = Some set)
    by (apply at_index_Some; split; [lia | exact Hset]).
  destruct (scan_cases cfg set (tag_of cfg (addr a)) Hb Hwfs) as (sc & Hsc & Hsccase).
  assert (Hw1 : forall z, 0 <= z <= n -> wrap64 (z + 1) = z + 1)
    by (intros z Hz; apply wrap64_small; lia).
  destruct Hcase as [(i & l & Hfm & Heq) | (Hnm & t & lt & e & v & _ & _ & _ & Heq)];
    rewrite Heq in Hstep; inversion Hstep as [Hs']; clear Hstep.
  - unfold commit, hit_result. simpl.
    destruct (String.eqb_spec (op a) "l") as [Hl|Hl]; simpl.
    { rewrite Hw1 by lia. split; [lia|]. split; [lia|]. intros; lia. }
    destruct (String.eqb_spec (op a) "s") as [Hs|Hs]; simpl.
    { rewrite Hw1 by lia. split; [lia|]. split; [lia|]. intros; lia. }
    split; [lia|]. split; [lia|]. intros H1 H2. split; [exact H1|]. split; [exact H2|].
    rewrite (step_policy cfg p s a set sc Hat Hsc) by (right; auto).
    rewrite Heq. unfold commit, hit_result.
    rewrite (proj2 (String.eqb_neq _ _) Hl), (proj2 (String.eqb_neq _ _) Hs). reflexivity.
  - assert (Hh : hit sc = false).
    { destruct Hsccase as [(i & l & _ & _ & Hfm) | (Hh & _)]; [|exact Hh].
      exfalso. eapply first_match_no_match; eauto. }
    assert (Hkeep : loadHits (miss_result cfg (op a) (tag_of cfg (addr a))
                                (wrap64 (timeCounter s + 1)) set (stats s) t v).2
                    = loadHits (stats s)
                    /\ storeHits (miss_result cfg (op a) (tag_of cfg (addr a))
                                   (wrap64 (timeCounter s + 1)) set (stats s) t v).2
                       = storeHits (stats s)).
    { unfold miss_result. destruct (String.eqb (op a) "l"); simpl; [auto|].
      destruct (String.eqb (op a) "s"); simpl; [|auto].
      destruct (isWriteAlloc cfg); simpl; auto. }
    destruct Hkeep as [Hk1 Hk2]. unfold commit. simpl. rewrite Hk1, Hk2.
    split; [lia|]. split; [lia|]. intros H1 H2. split; [exact H1|]. split; [exact H2|].
    rewrite (step_policy cfg p s a set sc Hat Hsc) by (left; exact Hh). exact Heq.
Qed.

Lemma run_no_hit cfg p tr : forall s s' n,
  pow2 (numSets cfg) -> 1 <= blocksPerSet cfg -> wf cfg s ->
  0 <= loadHits (stats s) <= n -> 0 <= storeHits (stats s) <= n ->
  n + Z.of_nat (length tr) <= ULONG_MAX ->
  run cfg s tr = Some s' ->
  loadHits (stats s') = 0 -> storeHits (stats s') = 0 ->
  loadHits (stats s) = 0 /\ storeHits (stats s) = 0
  /\ run (with_evictPolicy p cfg) s tr = Some s'.
Proof.
  induction tr as [|a tr IH]; intros s s' n Hn Hb Hwf Hlh Hsh Hmax Hrun H1 H2;
    simpl in Hrun.
  - inversion Hrun; subst. auto.
  - destruct (step cfg s a) as [s1|] eqn:Hstep; [|discriminate]. simpl in Hrun.
    simpl length in Hmax.
    destruct (step_no_hit cfg p s a s1 n Hn Hb Hwf Hlh Hsh ltac:(lia) Hstep)
      as (Hlh1 & Hsh1 & Hback).
    assert (Hwf1 : wf cfg s1) by (eapply wf_step; eauto).
    destruct (IH s1 s' (n + 1) Hn Hb Hwf1 Hlh1 Hsh1 ltac:(lia) Hrun H1 H2)
      as (Hz1 & Hz2 & Hrun').
    destruct (Hback Hz1 Hz2) as (Hz1' & Hz2' & Hstep').
    split; [exact Hz1'|]. split; [exact Hz2'|]. simpl. rewrite Hstep'. exact Hrun'.
Qed.

(** The eviction policy is consulted on hits only.  A run of at most
    [ULONG_MAX] lines that reports no load hit and no store hit ends in
    the same state, cache and statistics, whatever the sixth argument
    is: LRU and FIFO cannot be told apart by a trace that never hits. *)
Theorem no_hit_policy_free cfg p tr s :
  validate cfg = None -> Z.of_nat (length tr) <= ULONG_MAX ->
  simulate cfg tr = Some s ->
  loadHits (stats s) = 0 -> storeHits (stats s) = 0 ->
  simulate (with_evictPolicy p cfg) tr = Some s
  /\ main (with_evictPolicy p cfg) tr = main cfg tr.
Proof.
  intros Hv Hlen Hs H1 H2. pose proof (valid_geometry cfg Hv) as (Hn & Hb & _).
  destruct (run_no_hit cfg p tr (init cfg) s 0 Hn Hb (wf_init cfg)
              ltac:(simpl; lia) ltac:(simpl; lia) ltac:(lia) Hs H1 H2) as (_ & _ & Hrun).
  assert (Hs' : simulate (with_evictPolicy p cfg) tr = Some s) by exact Hrun.
  split; [exact Hs'|]. unfold main.
  change (validate (with_evictPolicy p cfg)) with (validate cfg).
  rewrite Hv, Hs, Hs'. reflexivity.
Qed.

Lemma no_hit_policy_free_witness :
  simulate (with_evictPolicy "fifo" (cfg2way "lru")) [Load 0; Load 4; Load 8]
  = Some {| cache := [[clean 2 3; clean 1 2]]; stats := loads_only 0 3 303;
            timeCounter := 3 |}
  /\ main (with_evictPolicy "fifo" (cfg2way "lru")) [Load 0; Load 4; Load 8]
     = main (cfg2way "lru") [Load 0; Load 4; Load 8].
Proof.
  apply (no_hit_policy_free (cfg2way "lru") "fifo" [Load 0; Load 4; Load 8]).
  - reflexivity.
  - vm_compute. discriminate.
  - reflexivity.
  - reflexivity.
  - reflexivity.
Defined.

(** In a one-line set the search can only choose line 0. *)
Lemma singleton_set cfg (set : list CacheLine) :
  blocksPerSet cfg = 1 -> wf_set cfg set -> exists l, set = [l].
Proof.
  intros Hb [Hlen _]. rewrite Hb in Hlen.
  destruct set as [|l [|l' rest]]; try discriminate. eauto.
Qed.

Lemma step_direct_mapped cfg p s s' a :
  pow2 (numSets cfg) -> blocksPerSet cfg = 1 -> wf cfg s -> wf cfg s' ->
  same_but_stamps s s' ->
  exists s1 s1', step cfg s a = Some s1 /\ step (with_evictPolicy p cfg) s' a = Some s1'
                 /\ same_but_stamps s1 s1'.
Proof.
  intros Hn Hb1 Hwf Hwf' (Hst & Htc & Hc).
  assert (Hb : 1 <= blocksPerSet cfg) by lia.
  assert (Hwf2 : wf (with_evictPolicy p cfg) s') by exact Hwf'.
  destruct (step_cases cfg s a Hn Hb Hwf) as (set & Hset & Hwfs & Hcase).
  destruct (step_cases (with_evictPolicy p cfg) s' a Hn Hb Hwf2)
    as (set' & Hset' & Hwfs' & Hcase').
  change (setIndex (with_evictPolicy p cfg) (addr a)) with (setIndex cfg (addr a))
    in Hset', Hcase'.
  change (tag_of (with_evictPolicy p cfg) (addr a)) with (tag_of cfg (addr a)) in Hcase'.
  set (si := Z.to_nat (setIndex cfg (addr a))) in *.
  set (tg := tag_of cfg (addr a)) in *.
  destruct (singleton_set cfg set Hb1 Hwfs) as [l ->].
  destruct (singleton_set cfg set' Hb1 Hwfs') as [l' ->].
  assert (Hll : valid l = valid l' /\ dirty l = dirty l' /\ tag l = tag l').
  { destruct (Forall2_lookup_l _ _ _ _ _ Hc Hset) as (x & Hx & Hf).
    assert (x = [l']) by congruence. subst x.
    inversion Hf; subst. assumption. }
  destruct Hll as (Hv & Hd & Ht).
  assert (Hm : matches tg l' = matches tg l) by (unfold matches; rewrite Hv, Ht; reflexivity).
  assert (Hrel : forall r r' : list CacheLine * Stats,
            r.2 = r'.2 ->
            Forall2 (fun l l' => valid l = valid l' /\ dirty l = dirty l' /\ tag l = tag l')
              r.1 r'.1 ->
            same_but_stamps (commit s si (wrap64 (timeCounter s + 1)) r)
              (commit s' si (wrap64 (timeCounter s' + 1)) r')).
  { intros r r' H2 H1. split; [exact H2|]. split; [simpl; rewrite Htc; reflexivity|].
    simpl. apply Forall2_insert; assumption. }
  assert (H0 : forall (i : nat) (x y : CacheLine), [x] !! i = Some y -> i = 0%nat /\ y = x).
  { intros [|i] x y H; simpl in H; [split; congruence | discriminate]. }
  destruct Hcase as [(i & x & Hfm & Heq) | (Hnm & t & lt & e & v & _ & Hlt & Hold & Heq)];
    destruct Hcase' as [(i' & x' & Hfm' & Heq')
                       | (Hnm' & t' & lt' & e' & v' & _ & Hlt' & Hold' & Heq')].
  - destruct Hfm as (Hx & _). destruct Hfm' as (Hx' & _).
    destruct (H0 _ _ _ Hx) as [-> ->]. destruct (H0 _ _ _ Hx') as [-> ->].
    eexists _, _. split; [exact Heq|]. split; [exact Heq'|]. apply Hrel.
    + unfold hit_result. rewrite Hst.
      destruct (String.eqb (op a) "l"); [reflexivity|].
      destruct (String.eqb (op a) "s"); reflexivity.
    + unfold hit_result, refreshed.
      change (is_write_through (with_evictPolicy p cfg)) with (is_write_through cfg).
      destruct (String.eqb (op a) "l"); simpl.
      { constructor; [|constructor].
        destruct (useLRU cfg), (useLRU (with_evictPolicy p cfg)); simpl; auto. }
      destruct (String.eqb (op a) "s"); simpl.
      { constructor; [|constructor].
        destruct (useLRU cfg), (useLRU (with_evictPolicy p cfg)), (is_write_through cfg);
          simpl; auto. }
      constructor; [auto | constructor].
  - exfalso. destruct Hfm as (Hx & Hmx & _). destruct (H0 _ _ _ Hx) as [-> ->].
    rewrite <- Hm, (Hnm' 0%nat l' eq_refl) in Hmx. discriminate.
  - exfalso. destruct Hfm' as (Hx & Hmx & _). destruct (H0 _ _ _ Hx) as [-> ->].
    rewrite Hm, (Hnm 0%nat l eq_refl) in Hmx. discriminate.
  - destruct (H0 _ _ _ Hlt) as [-> _]. destruct (H0 _ _ _ Hlt') as [-> _].
    destruct Hold as (He & _). destruct Hold' as (He' & _).
    destruct (H0 _ _ _ He) as [_ ->]. destruct (H0 _ _ _ He') as [_ ->].
    eexists _, _. split; [exact Heq|]. split; [exact Heq'|]. apply Hrel.
    + unfold miss_result, charge_int.
      change (is_write_through (with_evictPolicy p cfg)) with (is_write_through cfg).
      change (isWriteAlloc (with_evictPolicy p cfg)) with (isWriteAlloc cfg).
      change (miss_penalty (with_evictPolicy p cfg)) with (miss_penalty cfg).
      change (writePolicy (with_evictPolicy p cfg)) with (writePolicy cfg).
      simpl forallb. rewrite Hst, Htc, Hv, Hd.
      destruct (String.eqb (op a) "l"); [reflexivity|].
      destruct (String.eqb (op a) "s"); [|reflexivity].
      destruct (isWriteAlloc cfg); reflexivity.
    + unfold miss_result.
      change (is_write_through (with_evictPolicy p cfg)) with (is_write_through cfg).
      change (isWriteAlloc (with_evictPolicy p cfg)) with (isWriteAlloc cfg).
      rewrite Htc.
      destruct (String.eqb (op a) "l"); simpl; [constructor; [auto | constructor]|].
      destruct (String.eqb (op a) "s"); simpl; [|constructor; [auto | constructor]].
      destruct (isWriteAlloc cfg); simpl; constructor; auto; constructor.
Qed.

Lemma run_direct_mapped cfg p tr : forall s s',
  pow2 (numSets cfg) -> blocksPerSet cfg = 1 -> wf cfg s -> wf cfg s' ->
  same_but_stamps s s' ->
  exists s1 s1', run cfg s tr = Some s1 /\ run (with_evictPolicy p cfg) s' tr = Some s1'
                 /\ same_but_stamps s1 s1'.
Proof.
  induction tr as [|a tr IH]; intros s s' Hn Hb Hwf Hwf' Hrel; simpl.
  - eauto.
  - destruct (step_direct_mapped cfg p s s' a Hn Hb Hwf Hwf' Hrel)
      as (s1 & s1' & Hs1 & Hs1' & Hrel1).
    rewrite Hs1, Hs1'. simpl. apply IH; auto.
    + exact (wf_step cfg s a s1 Hn ltac:(lia) Hwf Hs1).
    + assert (Hwf2 : wf (with_evictPolicy p cfg) s') by exact Hwf'.
      assert (Hb2 : 1 <= blocksPerSet (with_evictPolicy p cfg)) by (simpl; lia).
      exact (wf_step (with_evictPolicy p cfg) s' a s1' Hn Hb2 Hwf2 Hs1').
Qed.

(** In a direct-mapped cache (one line per set) there is never a choice
    of victim: the seven statistics are the same whatever the sixth
    argument is, for every trace; only the time stamps of the lines can
    differ. *)
Theorem direct_mapped_policy_free cfg p tr :
  validate cfg = None -> blocksPerSet cfg = 1 ->
  main (with_evictPolicy p cfg) tr = main cfg tr
  /\ exists s s', simulate cfg tr = Some s
                  /\ simulate (with_evictPolicy p cfg) tr = Some s'
                  /\ same_but_stamps s s'.
Proof.
  intros Hv Hb1. pose proof (valid_geometry cfg Hv) as (Hn & Hb & _).
  assert (Hinit : same_but_stamps (init cfg) (init cfg)).
  { split; [reflexivity|]. split; [reflexivity|].
    apply Forall2_same_length_lookup. split; [reflexivity|].
    intros i x y Hx Hy. assert (x = y) by congruence. subst y.
    apply Forall2_same_length_lookup. split; [reflexivity|].
    intros j u w Hu Hw. assert (u = w) by congruence. subst w. auto. }
  destruct (run_direct_mapped cfg p tr (init cfg) (init cfg) Hn Hb1 (wf_init cfg)
              (wf_init cfg) Hinit) as (s & s' & Hs & Hs' & Hrel).
  split; [|exists s, s'; auto].
  unfold main. change (validate (with_evictPolicy p cfg)) with (validate cfg).
  rewrite Hv. unfold simulate.
  change (init (with_evictPolicy p cfg)) with (init cfg).
  rewrite Hs, Hs'. destruct Hrel as (Hst & _). rewrite Hst. reflexivity.
Qed.

Lemma direct_mapped_policy_free_witness :
  main (with_evictPolicy "fifo" cfgA) [Load 0; Store 0; Load 4]
  = main cfgA [Load 0; Store 0; Load 4].
Proof.
  apply (proj1 (direct_mapped_policy_free cfgA "fifo" [Load 0; Store 0; Load 4]
                  eq_refl eq_refl)).
Defined.

(** ** The second variant *)

Lemma fmap_forget_remember (set : list Simplified.CacheLine) :
  forget <$> (remember <$> set) = set.
Proof.
  induction set as [|[v t u] set IH]; [reflexivity|].
  rewrite !fmap_cons, IH. reflexivity.
Qed.

(** The search of the second variant finds what the search of the first
    finds, and under LRU stamps the hit line on the way. *)
Lemma simplified_scan_from lru tc n set tg : forall i sc,
  hit sc = false ->
  Simplified.scan_from lru tc n (forget <$> set) tg i (forget_scan sc)
  = r ← scan_from n set tg i sc;
    set' ← (if lru && hit r
            then assign (forget <$> set) (hitIndex r) (Simplified.touch tc)
            else Some (forget <$> set));
    Some (set', forget_scan r).
Proof.
  induction n as [|n IH]; intros i sc Hh; simpl.
  - rewrite Hh, andb_false_r. reflexivity.
  - rewrite at_index_fmap. destruct (at_index set i) as [l|]; simpl; [|reflexivity].
    destruct (valid l && (tag l =? tg)); simpl; [destruct lru; reflexivity|].
    rewrite <- IH by (destruct (lastUsed l <? oldestTime sc); exact Hh).
    f_equal. destruct (lastUsed l <? oldestTime sc); reflexivity.
Qed.

Lemma wf_set2_insert cfg (set : list Simplified.CacheLine) i l :
  wf_set2 cfg set -> 0 <= Simplified.lastUsed l <= ULONG_MAX ->
  wf_set2 cfg (<[i := l]> set).
Proof.
  intros [Hlen Hr] Hl. split; [rewrite length_insert; exact Hlen|].
  intros j x Hx. apply lookup_insert_cases in Hx as [[_ ->] | [_ Hx]]; eauto.
Qed.

Lemma simplified_handle cfg o tg tc sc (set : list Simplified.CacheLine) st :
  wf_set2 cfg set -> 0 <= tc <= ULONG_MAX ->
  (Simplified.hit sc = false ->
   exists t lt, Simplified.target sc = Z.of_nat t /\ set !! t = Some lt) ->
  exists set',
    Simplified.handle cfg o tg tc sc set st
    = Some (set', simplified_stats cfg o (Simplified.hit sc) st)
    /\ wf_set2 cfg set'.
Proof.
  intros Hwf Htc Htarget. unfold Simplified.handle, simplified_stats.
  destruct (Simplified.hit sc) eqn:Hh.
  - destruct (String.eqb o "l"); [eauto|]. destruct (String.eqb o "s"); eauto.
  - destruct (Htarget eq_refl) as (t & lt & Ht & Hlt).
    rewrite Ht, (assign_nat set t _ lt Hlt). simpl.
    assert (Hwf' : wf_set2 cfg (<[t := Simplified.install tg tc lt]> set))
      by (apply wf_set2_insert; [exact Hwf | exact Htc]).
    destruct (String.eqb o "l"); [eauto|].
    destruct (String.eqb o "s"); [|eauto].
    destruct (isWriteAlloc cfg); simpl; eauto.
Qed.

Lemma simplified_step cfg s a :
  pow2 (numSets cfg) -> 1 <= blocksPerSet cfg -> wf2 cfg s ->
  exists s' h, Simplified.step cfg s a = Some s' /\ wf2 cfg s' /\
    Simplified.stats s' = simplified_stats cfg (op a) h (Simplified.stats s).
Proof.
  intros Hn Hb (Hlen & Htc & Hsets).
  pose proof (setIndex_range cfg (addr a) Hn) as Hsi.
  destruct (lookup_lt_is_Some_2 (Simplified.cache s) (Z.to_nat (setIndex cfg (addr a))))
    as [set2 Hset2]; [rewrite Hlen; lia|].
  pose proof (Hsets _ _ Hset2) as Hwf2.
  assert (Hat : at_index (Simplified.cache s) (setIndex cfg (addr a)) = Some set2)
    by (apply at_index_Some; split; [lia | exact Hset2]).
  assert (Hwfs : wf_set cfg (remember <$> set2)).
  { destruct Hwf2 as [Hl2 Hr2]. split; [rewrite length_fmap; exact Hl2|].
    intros j l Hl. rewrite list_lookup_fmap in Hl.
    destruct (set2 !! j) as [x|] eqn:Hx; [|discriminate].
    simpl in Hl. inversion Hl; subst. simpl. eapply Hr2; eauto. }
  destruct (scan_cases cfg (remember <$> set2) (tag_of cfg (addr a)) Hb Hwfs)
    as (sc & Hsc & Hcase).
  unfold scan in Hsc.
  assert (Hscan : exists set3,
            Simplified.scan cfg (Simplified.timeCounter s) set2 (tag_of cfg (addr a))
            = Some (set3, forget_scan sc)
            /\ wf_set2 cfg set3
            /\ (hit sc = false -> exists t lt,
                  target sc = Z.of_nat t /\ set3 !! t = Some lt)).
  { unfold Simplified.scan.
    pose proof (fmap_forget_remember set2) as Hfr.
    remember (remember <$> set2) as set eqn:Eset. rewrite <- Hfr.
    change Simplified.scan_start with (forget_scan scan_start).
    rewrite simplified_scan_from by reflexivity. rewrite Hsc. simpl.
    rewrite Hfr. subst set.
    destruct Hcase as [(i & l & Hh & Hhi & Hl & _) | Hmiss].
    - rewrite Hh, Hhi, andb_true_r.
      assert (Hl2 : set2 !! i = Some (forget l)).
      { rewrite <- (fmap_forget_remember set2), list_lookup_fmap, Hl. reflexivity. }
      destruct (useLRU cfg); simpl.
      + rewrite (assign_nat set2 i _ (forget l) Hl2). simpl.
        eexists. split; [reflexivity|]. split; [|discriminate].
        apply wf_set2_insert; [exact Hwf2 | exact Htc].
      + eexists. split; [reflexivity|]. split; [exact Hwf2 | discriminate].
    - destruct (miss_scan_target _ _ _ Hmiss) as (t & lt & Htg & Hlt & _).
      destruct Hmiss as (Hh & _). rewrite Hh, andb_false_r. simpl.
      eexists. split; [reflexivity|]. split; [exact Hwf2|]. intros _.
      exists t, (forget lt). split; [exact Htg|].
      rewrite <- (fmap_forget_remember set2), list_lookup_fmap, Hlt. reflexivity. }
  destruct Hscan as (set3 & Hscan & Hwf3 & Htarget).
  assert (Htc' : 0 <= wrap64 (Simplified.timeCounter s + 1) <= ULONG_MAX)
    by apply wrap64_range.
  destruct (simplified_handle cfg (op a) (tag_of cfg (addr a))
              (wrap64 (Simplified.timeCounter s + 1)) (forget_scan sc) set3
              (Simplified.stats s) Hwf3 Htc' Htarget) as (set' & Hhandle & Hwf').
  unfold Simplified.step. rewrite Hat. simpl. rewrite Hscan. simpl.
  rewrite Hhandle. simpl.
  eexists _, (hit sc). split; [reflexivity|]. split; [|reflexivity].
  split; simpl; [rewrite length_insert; exact Hlen|]. split; [exact Htc'|].
  intros k x Hx. apply lookup_insert_cases in Hx as [[_ ->] | [_ Hx]]; eauto.
Qed.

Lemma wrap64_lin c m u v :
  wrap64 (c + m * (wrap64 u + v)) = wrap64 (c + m * (u + v)).
Proof.
  unfold wrap64. rewrite (Z.mod_eq u (2 ^ 64)) by lia.
  replace (c + m * (u - 2 ^ 64 * (u / 2 ^ 64) + v))
    with (c + m * (u + v) + (- (m * (u / 2 ^ 64))) * 2 ^ 64) by ring.
  apply Z.mod_add. lia.
Qed.

Lemma cycles_closed_step cfg o h st :
  cycles_closed cfg st -> cycles_closed cfg (simplified_stats cfg o h st).
Proof.
  unfold cycles_closed, simplified_stats. intros H.
  destruct (String.eqb o "l"); [|destruct (String.eqb o "s"); [|exact H]];
    destruct h; simpl; rewrite H, wrap64_add_l.
  - rewrite <- !Z.add_assoc, wrap64_add_l. f_equal. lia.
  - rewrite wrap64_lin. f_equal. lia.
  - rewrite (Z.add_comm (loadHits st) (wrap64 _)), <- !Z.add_assoc, wrap64_add_l.
    f_equal. lia.
  - rewrite (Z.add_comm (loadMisses st) (wrap64 _)), wrap64_lin. f_equal. lia.
Qed.

Lemma sums_mod_simplified cfg o h st :
  sums_mod st -> sums_mod (simplified_stats cfg o h st).
Proof.
  intros H. unfold simplified_stats.
  destruct (String.eqb o "l"); [exact (sums_mod_load h st H)|].
  destruct (String.eqb o "s"); [exact (sums_mod_store h st H) | exact H].
Qed.

Lemma simplified_run cfg tr : forall s,
  pow2 (numSets cfg) -> 1 <= blocksPerSet cfg -> wf2 cfg s ->
  sums_mod (Simplified.stats s) -> cycles_closed cfg (Simplified.stats s) ->
  exists s', Simplified.run cfg s tr = Some s' /\ wf2 cfg s'
             /\ sums_mod (Simplified.stats s') /\ cycles_closed cfg (Simplified.stats s').
Proof.
  induction tr as [|a tr IH]; intros s Hn Hb Hwf Hsum Hcy; simpl.
  - eauto.
  - destruct (simplified_step cfg s a Hn Hb Hwf) as (s1 & h & Hs1 & Hwf1 & Hst).
    rewrite Hs1. simpl. apply IH; auto; rewrite Hst.
    + apply sums_mod_simplified, Hsum.
    + apply cycles_closed_step, Hcy.
Qed.

Lemma wf2_init cfg : wf2 cfg (Simplified.init cfg).
Proof.
  split; simpl; [apply length_replicate|]. split; [unfold ULONG_MAX; lia|].
  intros k set Hk. apply lookup_replicate_1 in Hk as [-> _].
  split; [apply length_replicate|].
  intros j l Hl. apply lookup_replicate_1 in Hl as [-> _]. simpl. unfold ULONG_MAX. lia.
Qed.

Lemma simplified_simulate cfg tr :
  validate cfg = None ->
  exists s, Simplified.simulate cfg tr = Some s
            /\ sums_mod (Simplified.stats s) /\ cycles_closed cfg (Simplified.stats s).
Proof.
  intros Hv. pose proof (valid_geometry cfg Hv) as (Hn & Hb & _).
  destruct (simplified_run cfg tr (Simplified.init cfg) Hn Hb (wf2_init cfg))
    as (s & Hs & _ & Hsum & Hcy).
  - split; reflexivity.
  - unfold cycles_closed. simpl. rewrite Z.mul_0_r. reflexivity.
  - eauto.
Qed.

(** The second variant, too, runs every trace to its end for every
    configuration that passes the checks, under LRU as under FIFO: no
    subscript of its search loop or of its installs is out of range. *)
Theorem simplified_completes cfg tr :
  validate cfg = None ->
  exists s, Simplified.simulate cfg tr = Some s
            /\ Simplified.main cfg tr = Finished (Simplified.stats s).
Proof.
  intros Hv. destruct (simplified_simulate cfg tr Hv) as (s & Hs & _).
  exists s. split; [exact Hs|]. unfold Simplified.main. rewrite Hv, Hs. reflexivity.
Qed.

Lemma simplified_completes_witness :
  exists s, Simplified.simulate (cfg2way "lru") trace9 = Some s
            /\ Simplified.main (cfg2way "lru") trace9 = Finished (Simplified.stats s).
Proof.
  apply (simplified_completes (cfg2way "lru") trace9). reflexivity.
Defined.

(** The cycles the second variant prints are a function of its other
    counters: one cycle per hit and [100 * (blockSize / 4)] per miss,
    loads and stores alike, in [unsigned long] arithmetic; the write
    policies add nothing.  Its totals are the sums of hits and misses. *)
Theorem simplified_cycles cfg tr st :
  Simplified.main cfg tr = Finished st ->
  sums_mod st
  /\ cycles st = wrap64 (loadHits st + storeHits st
                         + miss_penalty cfg * (loadMisses st + storeMisses st))
  /\ (blockSize cfg <= 2 ^ 26 ->
      cycles st = wrap64 (loadHits st + storeHits st
                          + 100 * (blockSize cfg / 4) * (loadMisses st + storeMisses st))).
Proof.
  unfold Simplified.main. destruct (validate cfg) as [e|] eqn:Hv; [discriminate|].
  destruct (simplified_simulate cfg tr Hv) as (s & Hs & Hsum & Hcy).
  rewrite Hs. intros Hst. inversion Hst; subst st.
  split; [exact Hsum|]. split; [exact Hcy|]. intros Hbs.
  pose proof (valid_geometry cfg Hv) as (_ & _ & H4).
  destruct (miss_penalty_exact cfg ltac:(lia)) as [Hp _].
  rewrite <- Hp. exact Hcy.
Qed.

Lemma simplified_cycles_witness :
  cycles (loads_only 1 4 401)
  = wrap64 (loadHits (loads_only 1 4 401) + storeHits (loads_only 1 4 401)
            + miss_penalty (cfg2way "lru")
              * (loadMisses (loads_only 1 4 401) + storeMisses (loads_only 1 4 401))).
Proof.
  assert (H : Simplified.main (cfg2way "lru") trace9 = Finished (loads_only 1 4 401))
    by reflexivity.
  exact (proj1 (proj2 (simplified_cycles _ _ _ H))).
Defined.

(** ** The two variants under FIFO *)

Lemma variants_agree_under_fifo_witness :
  exists st st2, main (cfg4x2 "fifo") [Load 0; Store 64; Load 0; Store 200] = Finished st
                 /\ Simplified.main (cfg4x2 "fifo") [Load 0; Store 64; Load 0; Store 200]
                    = Finished st2
                 /\ counts_eq st st2.
Proof.
  apply (variants_agree_under_fifo (cfg4x2 "fifo") [Load 0; Store 64; Load 0; Store 200]);
    reflexivity.
Defined.

(** ** The order in which a set fills *)

Lemma filled_prefix_change tg tc set set' :
  filled_prefix set -> set_change tg tc set set' -> filled_prefix set'.
Proof.
  intros [Hpre Hpris] [-> | i l l' Hfm -> Hv' _ _ | t lt d _ Hit Hlt ->].
  - split; assumption.
  - destruct Hfm as (Hl & Hm & _). apply matches_true in Hm as [Hvl _]. split.
    + intros i0 j0 li lj Hlt Hi Hj Hvj.
      apply lookup_insert_cases in Hi as [[_ ->] | [_ Hi]]; [exact Hv'|].
      apply lookup_insert_cases in Hj as [[-> _] | [_ Hj]]; eauto.
    + intros j x Hx Hvx.
      apply lookup_insert_cases in Hx as [[_ ->] | [_ Hx]]; [congruence | eauto].
  - split.
    + intros i0 j0 li lj Hlt0 Hi Hj Hvj.
      apply lookup_insert_cases in Hi as [[_ ->] | [_ Hi]]; [reflexivity|].
      apply lookup_insert_cases in Hj as [[-> _] | [_ Hj]]; [|eauto].
      destruct Hit as [[_ Hbefore] | [Hall _]]; eauto.
    + intros j x Hx Hvx.
      apply lookup_insert_cases in Hx as [[_ ->] | [_ Hx]]; [discriminate | eauto].
Qed.

Lemma filled_prefix_run cfg tr : forall s s',
  pow2 (numSets cfg) -> 1 <= blocksPerSet cfg -> wf cfg s ->
  (forall k set, cache s !! k = Some set -> filled_prefix set) ->
  run cfg s tr = Some s' ->
  forall k set, cache s' !! k = Some set -> filled_prefix set.
Proof.
  induction tr as [|a tr IH]; intros s s' Hn Hb Hwf Hu Hrun.
  - simpl in Hrun. inversion Hrun; subst. exact Hu.
  - simpl in Hrun. destruct (step cfg s a) as [s1|] eqn:Hstep; [|discriminate].
    simpl in Hrun. eapply (IH s1); eauto; [eapply wf_step; eauto|].
    destruct (step_set_change cfg s a s1 Hn Hb Hwf Hstep)
      as (set & set' & Hset & Hc & _ & Hch).
    rewrite Hc. apply sets_insert; [exact Hu|].
    eapply filled_prefix_change; eauto.
Qed.

(** A set fills from line 0 upwards and never gets a hole: in every
    reachable state the lines before a valid line are valid, and a line
    that is not valid still has the constructor's values (tag 0, stamp
    0, not dirty). *)
Theorem sets_fill_in_order cfg tr s k set :
  validate cfg = None -> simulate cfg tr = Some s -> cache s !! k = Some set ->
  (forall i j li lj, (i < j)%nat -> set !! i = Some li -> set !! j = Some lj ->
     valid lj = true -> valid li = true)
  /\ (forall j l, set !! j = Some l -> valid l = false -> l = empty_line).
Proof.
  intros Hv Hs Hset. pose proof (valid_geometry cfg Hv) as (Hn & Hb & _).
  apply (filled_prefix_run cfg tr (init cfg) s Hn Hb (wf_init cfg)) with (k := k);
    [|exact Hs | exact Hset].
  intros k' set' Hk. rewrite (init_set _ _ _ Hk). split.
  - intros i j li lj _ _ Hj Hvj. apply lookup_replicate_1 in Hj as [-> _]. discriminate.
  - intros j l Hl _. apply lookup_replicate_1 in Hl as [-> _]. reflexivity.
Qed.

Lemma sets_fill_in_order_witness :
  (forall i j li lj, (i < j)%nat -> [clean 0 1; empty_line] !! i = Some li ->
     [clean 0 1; empty_line] !! j = Some lj -> valid lj = true -> valid li = true)
  /\ (forall j l, [clean 0 1; empty_line] !! j = Some l -> valid l = false ->
      l = empty_line).
Proof.
  apply (sets_fill_in_order (cfg2way "fifo") [Load 0]
           {| cache := [[clean 0 1; empty_line]]; stats := loads_only 0 1 101;
              timeCounter := 1 |} 0%nat [clean 0 1; empty_line]); reflexivity.
Defined.

(** ** The cycles of a write-through run *)

Lemma wrap64_term a c u : wrap64 (a + c * wrap64 u) = wrap64 (a + c * u).
Proof.
  unfold wrap64. rewrite (Z.mod_eq u (2 ^ 64)) by lia.
  replace (a + c * (u - 2 ^ 64 * (u / 2 ^ 64)))
    with (a + c * u + (- (c * (u / 2 ^ 64))) * 2 ^ 64) by ring.
  apply Z.mod_add. lia.
Qed.

(** Replacing one counter [u] of weight [c] by [wrap64 (u + 1)] adds
    [c] to the weighted sum, modulo 2^64. *)
Lemma wrap64_bump x rest c u :
  wrap64 (wrap64 (rest + c * u) + x) = wrap64 (rest + c * wrap64 (u + 1)) <->
  wrap64 (rest + c * u + x) = wrap64 (rest + c * u + c).
Proof.
  rewrite wrap64_add_l, wrap64_term.
  replace (rest + c * (u + 1)) with (rest + c * u + c) by ring. reflexivity.
Qed.

Lemma charge_int_through cfg set v :
  is_write_through cfg = true -> charge_int cfg set v = 0.
Proof.
  unfold is_write_through, charge_int. intros H. apply String.eqb_eq in H. rewrite H.
  simpl. rewrite andb_false_r. reflexivity.
Qed.

Lemma wt_step cfg s a s' :
  pow2 (numSets cfg) -> 1 <= blocksPerSet cfg -> wf cfg s ->
  is_write_through cfg = true ->
  cycles (stats s) = wrap64 (wt_cycles cfg (stats s)) ->
  step cfg s a = Some s' ->
  cycles (stats s') = wrap64 (wt_cycles cfg (stats s')).
Proof.
  intros Hn Hb Hwf Hwt Hcy Hstep.
  destruct (step_cases cfg s a Hn Hb Hwf) as (set & _ & _ & Hcase).
  set (P := miss_penalty cfg) in *.
  destruct Hcase as [(i & l & _ & Heq) | (_ & t & lt & e & v & _ & _ & _ & Heq)];
    rewrite Heq in Hstep; inversion Hstep; subst s'; clear Hstep Heq;
    unfold commit, hit_result, miss_result; rewrite ?charge_int_through by exact Hwt;
    rewrite Hwt; unfold wt_cycles in *; fold P in Hcy |- *;
    (destruct (String.eqb (op a) "l"); [|destruct (String.eqb (op a) "s"); [|exact Hcy]]);
    simpl; rewrite ?Hcy.
  - set (lh := loadHits (stats s)).
    match goal with |- wrap64 (wrap64 ?X + _) = wrap64 ?Y =>
      replace X with (X - lh + 1 * lh) by ring;
      replace Y with (X - lh + 1 * wrap64 (lh + 1)) by (unfold lh; ring) end.
    apply wrap64_bump. reflexivity.
  - set (sh := storeHits (stats s)).
    match goal with |- wrap64 (wrap64 ?X + _) = wrap64 ?Y =>
      replace X with (X - 101 * sh + 101 * sh) by ring;
      replace Y with (X - 101 * sh + 101 * wrap64 (sh + 1)) by (unfold sh; ring) end.
    apply wrap64_bump. reflexivity.
  - set (lm := loadMisses (stats s)). set (c := wrap_int (P + 1)).
    match goal with |- wrap64 (wrap64 ?X + _) = wrap64 ?Y =>
      replace X with (X - c * lm + c * lm) by ring;
      replace Y with (X - c * lm + c * wrap64 (lm + 1)) by (unfold lm, c; ring) end.
    apply wrap64_bump. f_equal. lia.
  - set (sm := storeMisses (stats s)).
    destruct (isWriteAlloc cfg); simpl; rewrite ?Hcy.
    + match goal with |- wrap64 (wrap64 ?X + _) = wrap64 ?Y =>
        replace X with (X - (P + 101) * sm + (P + 101) * sm) by ring;
        replace Y with (X - (P + 101) * sm + (P + 101) * wrap64 (sm + 1))
          by (unfold sm; ring) end.
      apply wrap64_bump. f_equal. lia.
    + match goal with |- wrap64 (wrap64 ?X + _) = wrap64 ?Y =>
        replace X with (X - 100 * sm + 100 * sm) by ring;
        replace Y with (X - 100 * sm + 100 * wrap64 (sm + 1)) by (unfold sm; ring) end.
      apply wrap64_bump. reflexivity.
Qed.

Lemma wt_run cfg tr : forall s s',
  pow2 (numSets cfg) -> 1 <= blocksPerSet cfg -> wf cfg s ->
  is_write_through cfg = true ->
  cycles (stats s) = wrap64 (wt_cycles cfg (stats s)) ->
  run cfg s tr = Some s' ->
  cycles (stats s') = wrap64 (wt_cycles cfg (stats s')).
Proof.
  induction tr as [|a tr IH]; intros s s' Hn Hb Hwf Hwt Hcy Hrun; simpl in Hrun.
  - inversion Hrun; subst. exact Hcy.
  - destruct (step cfg s a) as [s1|] eqn:Hstep; [|discriminate]. simpl in Hrun.
    apply (IH s1 s'); auto; [eapply wf_step; eauto | eapply wt_step; eauto].
Qed.

(** Under write-through no cycle depends on the history of a line: the
    cycles printed are a weighted sum of the four hit and miss counters,
    in [unsigned long] arithmetic.  A load hit weighs 1, a load miss the
    transfer of a block plus 1, a store hit 101, a store miss the
    transfer plus 101 under write-allocate and 100 otherwise. *)
Theorem write_through_cycles cfg tr st :
  writePolicy cfg = "write-through" -> main cfg tr = Finished st ->
  cycles st = wrap64 (wt_cycles cfg st)
  /\ (blockSize cfg <= 2 ^ 26 ->
      cycles st
      = wrap64 (loadHits st + (100 * (blockSize cfg / 4) + 1) * loadMisses st
                + 101 * storeHits st
                + (if isWriteAlloc cfg then 100 * (blockSize cfg / 4) + 101 else 100)
                  * storeMisses st)).
Proof.
  intros Hwp. unfold main. destruct (validate cfg) as [e|] eqn:Hv; [discriminate|].
  destruct (simulate cfg tr) as [s|] eqn:Hs; [|discriminate].
  intros Hst. inversion Hst; subst st.
  pose proof (valid_geometry cfg Hv) as (Hn & Hb & H4).
  assert (Hwt : is_write_through cfg = true)
    by (unfold is_write_through; rewrite Hwp; reflexivity).
  assert (Hcy : cycles (stats s) = wrap64 (wt_cycles cfg (stats s))).
  { apply (wt_run cfg tr (init cfg) s Hn Hb (wf_init cfg) Hwt); [|exact Hs].
    unfold wt_cycles. simpl. rewrite !Z.mul_0_r. reflexivity. }
  split; [exact Hcy|]. intros Hbs.
  destruct (miss_penalty_exact cfg ltac:(lia)) as [Hp Hp1].
  rewrite Hcy. unfold wt_cycles. rewrite Hp1, Hp. reflexivity.
Qed.

Lemma write_through_cycles_witness :
  cycles (loads_only 1 3 304) = wrap64 (wt_cycles (cfg2way "fifo") (loads_only 1 3 304)).
Proof.
  assert (Hwp : writePolicy (cfg2way "fifo") = "write-through") by reflexivity.
  assert (H : main (cfg2way "fifo") [Load 0; Load 4; Load 0; Load 8]
              = Finished (loads_only 1 3 304)) by reflexivity.
  exact (proj1 (write_through_cycles _ _ _ Hwp H)).
Defined.
